(** * Verification of the state diff builder (statediff/builder.go)

    A shallow embedding of the state diff builder of go-ethereum's
    [statediff] package.  The trie layer, the node store, the RLP codec and
    Keccak-256 are collaborators of the builder; they are the fields of the
    record [Env] below, so every theorem holds for every store and codec.
    Go errors are values of [error]; the push-style sinks are functions from
    the records already sent and the next record to an optional error. *)

From Stdlib Require Import ZArith Lia Sorting.Sorted Strings.Ascii Strings.String.
From stdpp Require Import base gmap strings list fin_maps pretty.

Open Scope Z_scope.

(* ------------------------------------------------------------------ *)
(** ** Bytes, hashes and hex strings *)

(** A Go [[]byte]: each element is a byte in [0, 255]. *)
Definition bytes := list Z.

(** [common.Hash]: 32 bytes. *)
Definition Hash := bytes.

(** [nullHashBytes]: the all-zeros hash. *)
Definition nullHashBytes : bytes := repeat 0 32.

(** [bytes.Equal] *)
Definition bytes_Equal (a b : bytes) : bool := bool_decide (a = b).

(** [common.BytesToHash]: keep the last 32 bytes, left-pad with zeros. *)
Definition BytesToHash (b : bytes) : Hash :=
  let n := length b in
  if (32 <? n)%nat then drop (n - 32) b else repeat 0 (32 - n) ++ b.

Definition hex_digit (n : Z) : ascii :=
  if n <? 10 then ascii_of_nat (Z.to_nat (48 + n))
  else ascii_of_nat (Z.to_nat (87 + n)).

(** [common.Bytes2Hex] (= [hex.EncodeToString]): two lower-case hex digits
    per byte. *)
Fixpoint Bytes2Hex (b : bytes) : string :=
  match b with
  | [] => EmptyString
  | x :: b' => String (hex_digit (x / 16)) (String (hex_digit (x mod 16)) (Bytes2Hex b'))
  end.

(** Go's [strings.Compare]: byte-wise lexicographic comparison. *)
Fixpoint str_compare (s t : string) : comparison :=
  match s, t with
  | EmptyString, EmptyString => Eq
  | EmptyString, String _ _ => Lt
  | String _ _, EmptyString => Gt
  | String a s', String b t' =>
      match Nat.compare (nat_of_ascii a) (nat_of_ascii b) with
      | Eq => str_compare s' t'
      | c => c
      end
  end.

Definition str_lt (s t : string) : Prop := str_compare s t = Lt.

(* ------------------------------------------------------------------ *)
(** ** Compact (hex-prefix) encoding of nibble paths *)

(** Modelled from the spec: the trie package's [keybytesToHex],
    [CompactToHex] and [HexToCompact] (the standard MPT hex-prefix encoding,
    spec section 4.1), which are not under src/. *)
Definition keybytesToHex (str : bytes) : bytes :=
  flat_map (fun b => [b / 16; b mod 16]) str ++ [16].

Definition hasTerm (s : bytes) : bool :=
  match last s with Some 16 => true | _ => false end.

Definition CompactToHex (compact : bytes) : bytes :=
  match compact with
  | [] => []
  | _ =>
      let base := keybytesToHex compact in
      let base := match base with
                  | b0 :: _ => if b0 <? 2 then removelast base else base
                  | [] => base
                  end in
      let chop := match base with b0 :: _ => 2 - Z.land b0 1 | [] => 0 end in
      drop (Z.to_nat chop) base
  end.

Fixpoint decodeNibbles (nibbles : bytes) : bytes :=
  match nibbles with
  | n1 :: n2 :: rest => Z.lor (Z.shiftl n1 4) n2 :: decodeNibbles rest
  | _ => []
  end.

Definition HexToCompact (hex : bytes) : bytes :=
  let terminator := if hasTerm hex then 1 else 0 in
  let hex := if hasTerm hex then removelast hex else hex in
  let flag := Z.shiftl terminator 5 in
  if Nat.odd (length hex) then
    match hex with
    | h :: hex' => Z.lor (Z.lor flag (Z.shiftl 1 4)) h :: decodeNibbles hex'
    | [] => [flag]
    end
  else flag :: decodeNibbles hex.

(* ------------------------------------------------------------------ *)
(** ** Errors *)

(** Go [error] values.  [Errorf msg e] is [fmt.Errorf("msg: %v", e)]:
    a new error whose message embeds the message of [e]. *)
Inductive error :=
| ErrValue (code : Z)              (* an error value made by a collaborator or a sink *)
| ErrMsg (msg : string)            (* fmt.Errorf without a wrapped error *)
| Errorf (msg : string) (inner : error).

(* ------------------------------------------------------------------ *)
(** ** Data model (statediff/types and state.Account) *)

(** [sdtypes.NodeType]; [Unknown] is also the zero value. *)
Inductive NodeType := Unknown | Leaf | Extension | Branch | Removed.

Global Instance NodeType_eq_dec : EqDecision NodeType.
Proof. solve_decision. Defined.

(** [sdtypes.StorageNode] *)
Record StorageNode := {
  sNodeType : NodeType;
  sPath : bytes;
  sLeafKey : bytes;
  sNodeValue : bytes
}.

(** [sdtypes.StateNode] *)
Record StateNode := {
  NodeType_ : NodeType;
  Path : bytes;
  LeafKey : bytes;
  NodeValue : bytes;
  StorageNodes : list StorageNode
}.

(** [state.Account] *)
Record Account := {
  Nonce : Z;
  Balance : Z;
  Root : Hash;
  CodeHash : bytes
}.

(** [accountWrapper]; [aw_Account = None] is the nil pointer. *)
Record accountWrapper := {
  aw_NodeType : NodeType;
  aw_Path : bytes;
  aw_NodeValue : bytes;
  aw_LeafKey : bytes;
  aw_Account : option Account
}.

(** The zero value of [accountWrapper], returned by a map lookup that misses. *)
Definition zero_wrapper : accountWrapper :=
  {| aw_NodeType := Unknown; aw_Path := []; aw_NodeValue := [];
     aw_LeafKey := []; aw_Account := None |}.

(** [AccountMap] = [map[string]accountWrapper]. *)
Abbreviation AccountMap := (gmap string accountWrapper).

(** [CodeAndCodeHash] *)
Record CodeAndCodeHash := { cc_Hash : Hash; cc_Code : bytes }.

(** [StateRoots] *)
Record StateRoots := { OldStateRoot : Hash; NewStateRoot : Hash }.

(** [Params] *)
Record Params := {
  IntermediateStateNodes : bool;
  IntermediateStorageNodes : bool;
  WatchedAddresses : list bytes;
  WatchedStorageSlots : list Hash
}.

(** [Args] *)
Record Args := {
  a_OldStateRoot : Hash;
  a_NewStateRoot : Hash;
  a_BlockNumber : Z;
  a_BlockHash : Hash
}.

(** [StateObject] *)
Record StateObject := {
  so_BlockNumber : Z;
  so_BlockHash : Hash;
  so_Nodes : list StateNode;
  so_CodeAndCodeHashes : list CodeAndCodeHash
}.

(** The zero value [StateObject{}] (nil block number and hash, nil slices). *)
Definition empty_StateObject : StateObject :=
  {| so_BlockNumber := 0; so_BlockHash := []; so_Nodes := [];
     so_CodeAndCodeHashes := [] |}.

(* ------------------------------------------------------------------ *)
(** ** Tries, node iterators and the difference iterator *)

(** One step of a [trie.NodeIterator]: [it.Leaf()], [it.Hash()],
    [it.Path()], and for a hashless embedded node its encoded bytes. *)
Record IterStep := {
  st_Leaf : bool;
  st_Hash : Hash;
  st_Path : bytes;
  st_Blob : bytes
}.

Global Instance IterStep_eq_dec : EqDecision IterStep.
Proof.
  intros [l1 h1 p1 b1] [l2 h2 p2 b2].
  refine (cast_if (decide (l1 = l2 /\ h1 = h2 /\ p1 = p2 /\ b1 = b2)));
    [destruct_and?; subst; reflexivity | intros H; inversion H; tauto].
Defined.

(** A node iterator over a trie: the pre-order sequence of steps yielded by
    [it.Next(true)] and the value of [it.Error()] once it stops. *)
Record NodeIterator := {
  it_steps : list IterStep;
  it_Error : option error
}.

(** Modelled from the spec: [trie.NewDifferenceIterator(a, b)] (spec section
    4.3, the trie package is not under src/).  It yields exactly the nodes
    visited by [b] that do not also appear, at the same path with the same
    hash (embedded nodes: the same bytes), in [a]; its error is [a]'s error,
    else [b]'s. *)
Definition NewDifferenceIterator (a b : NodeIterator) : NodeIterator :=
  {| it_steps := filter (fun s => s ∉ it_steps a) (it_steps b);
     it_Error := match it_Error a with Some e => Some e | None => it_Error b end |}.

(** RLP items: the dynamic values of a decoded [[]interface{}]. *)
#[warnings="-register-all"]
Inductive item := IBytes (b : bytes) | IList (l : list item).

(** The collaborators of the builder: [state.Database] (tries, nodes, code),
    the RLP codec and Keccak-256. *)
Record Env := {
  (** [stateCache.OpenTrie(root).NodeIterator([]byte{})] *)
  OpenTrie : Hash -> NodeIterator + error;
  (** [stateCache.TrieDB().Node(hash)] *)
  NodeOf : Hash -> bytes + error;
  (** [stateCache.ContractCode(addrHash, codeHash)] *)
  ContractCode : Hash -> Hash -> bytes + error;
  (** [rlp.DecodeBytes(node, &nodeElements)] with [nodeElements []interface{}] *)
  DecodeElements : bytes -> list item + error;
  (** [rlp.DecodeBytes(b, &account)] with [account state.Account] *)
  DecodeAccount : bytes -> Account + error;
  (** [crypto.Keccak256] *)
  Keccak256 : bytes -> bytes
}.

(** [emptyNode, _ = rlp.EncodeToBytes([]byte{})] is the single byte 0x80. *)
Definition emptyNode : bytes := [128].

(** [emptyContractRoot = crypto.Keccak256Hash(emptyNode)] *)
Definition emptyContractRoot (env : Env) : Hash := Keccak256 env emptyNode.

(** [nullCodeHash = crypto.Keccak256Hash([]byte{}).Bytes()] *)
Definition nullCodeHash (env : Env) : bytes := Keccak256 env [].

(** Go map iteration: [for k, v := range m] visits the entries of [m] in an
    order chosen by the runtime.  A [GoRuntime] fixes that choice; every
    order it picks is a permutation of the map's entries. *)
Record GoRuntime := {
  range_map : AccountMap -> list (string * accountWrapper);
  range_map_perm : forall m, range_map m ≡ₚ map_to_list m
}.

(* ------------------------------------------------------------------ *)
(** ** Node classification (statediff/helpers.go) *)

(** Modelled from the spec: [CheckKeyType] (spec section 4.1; helpers.go is
    not under src/).  17 elements: Branch; 2 elements: the high nibble of
    the first byte of the first element is 0 or 1 for an Extension, 2 or 3
    for a Leaf; anything else is an error. *)
Definition CheckKeyType (elements : list item) : NodeType + error :=
  match length elements with
  | 17%nat => inl Branch
  | 2%nat =>
      match elements with
      | IBytes (b :: _) :: _ =>
          let hi := b / 16 in
          if (hi =? 0) || (hi =? 1) then inl Extension
          else if (hi =? 2) || (hi =? 3) then inl Leaf
          else inr (ErrMsg "unknown hex prefix")
      | _ => inr (ErrMsg "unknown hex prefix")
      end
  | _ => inr (ErrMsg "node must be a list of 2 or 17 elements")
  end.

(** The type assertion [x.([]byte)]; a failed assertion panics, which aborts
    the invocation. *)
Definition as_bytes (x : option item) : bytes + error :=
  match x with
  | Some (IBytes b) => inl b
  | _ => inr (ErrMsg "panic: interface conversion")
  end.

(** [isWatchedAddress] (builder.go, lines 798-810) *)
Definition isWatchedAddress (env : Env) (watchedAddresses : list bytes)
    (stateLeafKey : bytes) : bool :=
  match watchedAddresses with
  | [] => true
  | _ => existsb (fun addr => bytes_Equal (Keccak256 env addr) stateLeafKey)
                 watchedAddresses
  end.

(** [isWatchedStorageKey] (builder.go, lines 813-824) *)
Definition isWatchedStorageKey (watchedKeys : list Hash) (storageLeafKey : bytes) : bool :=
  match watchedKeys with
  | [] => true
  | _ => existsb (fun hashKey => bytes_Equal hashKey storageLeafKey) watchedKeys
  end.

(** The leaf key computation shared by every pass:
    [partialPath := trie.CompactToHex(nodeElements[0].([]byte))],
    [valueNodePath := append(nodePath, partialPath...)],
    [encodedPath := trie.HexToCompact(valueNodePath)], [leafKey := encodedPath[1:]]. *)
Definition leafKeyOf (nodePath : bytes) (nodeElements : list item) : bytes + error :=
  match as_bytes (nodeElements !! 0%nat) with
  | inr e => inr e
  | inl e0 =>
      let partialPath := CompactToHex e0 in
      let valueNodePath := nodePath ++ partialPath in
      let encodedPath := HexToCompact valueNodePath in
      inl (tail encodedPath)
  end.

(** Modelled from the spec: [sortKeys] (helpers.go, not under src/): the keys
    of the map sorted in ascending lexicographic order (spec section 4.4). *)
Fixpoint insert_sorted (k : string) (l : list string) : list string :=
  match l with
  | [] => [k]
  | k' :: l' => match str_compare k k' with
      | Gt => k' :: insert_sorted k l'
      | _ => k :: l
      end
  end.

Definition sortKeys (data : AccountMap) : list string :=
  foldr insert_sorted [] (map fst (map_to_list data)).

(** Modelled from the spec: [findIntersection] (helpers.go, not under src/):
    the keys of the sorted list [a] that also occur in [b], in [a]'s order
    (spec section 4.4: [updated = keys(diffA) ∩ keys(diffB)]). *)
Definition findIntersection (a b : list string) : list string :=
  filter (fun k => k ∈ b) a.

(* ------------------------------------------------------------------ *)
(** ** The sink-and-error monad *)

(** [sdtypes.StateNodeSink] / [sdtypes.StorageNodeSink]: the callback sees the
    records it has already received and the next one, and returns an error
    or [None] (nil). *)
Definition Sink (R : Type) := list R -> R -> option error.

(** A computation that passes records of type [R] to a sink: it maps the
    records sent so far to the records sent at its end and a result or an
    error.  A record on which the sink fails is counted as sent. *)
Definition M (R A : Type) := list R -> list R * (A + error).

Definition ret {R A} (a : A) : M R A := fun tr => (tr, inl a).

Definition throw {R A} (e : error) : M R A := fun tr => (tr, inr e).

(** A fallible call that sends nothing: [v, err := f(); if err != nil { return err }]. *)
Definition lift {R A} (x : A + error) : M R A := fun tr => (tr, x).

Definition bind {R A B} (m : M R A) (k : A -> M R B) : M R B :=
  fun tr => match m tr with
            | (tr', inl a) => k a tr'
            | (tr', inr e) => (tr', inr e)
            end.

Notation "x <- m ;; k" := (bind m (fun x => k))
  (at level 100, m at next level, right associativity).
#[warnings="-notation-incompatible-prefix"]
Notation "' p <- m ;; k" := (bind m (fun x => match x with p => k end))
  (at level 100, p pattern, m at next level, right associativity).

(** [if err := output(node); err != nil { return err }] *)
Definition emit {R} (sink : Sink R) (n : R) : M R unit :=
  fun tr => match sink tr n with
            | None => (tr ++ [n], inl tt)
            | Some e => (tr ++ [n], inr e)
            end.

(** [if err != nil { return fmt.Errorf("msg: %v", err) }] around a call. *)
Definition wrap {R A} (msg : string) (m : M R A) : M R A :=
  fun tr => match m tr with
            | (tr', inr e) => (tr', inr (Errorf msg e))
            | r => r
            end.

(** A [for] loop whose body threads the loop state [acc]. *)
Fixpoint foldM {R A B} (f : A -> B -> M R A) (l : list B) (acc : A) : M R A :=
  match l with
  | [] => ret acc
  | x :: l' => bind (f acc x) (foldM f l')
  end.

(** [return acc, it.Error()] followed by the caller's [if err != nil]. *)
Definition iterError {R A} (it : NodeIterator) (acc : A) : M R A :=
  match it_Error it with
  | Some e => throw e
  | None => ret acc
  end.

(** [storageNodeAppender(&nodes)]: appends and never fails. *)
Definition storageNodeAppender : Sink StorageNode := fun _ _ => None.

(** [stateNodeAppender(&nodes)]: appends and never fails. *)
Definition stateNodeAppender : Sink StateNode := fun _ _ => None.

(** Running a computation with a fresh slice ([var nodes []T]) as its sink's
    backing store: the records appended and the result. *)
Definition collect {R A} (m : M R A) : list R * (A + error) := m [].

(* ------------------------------------------------------------------ *)
(** ** The builder (statediff/builder.go) *)

Section Builder.

Context (env : Env).

(** The node read shared by every pass: [sdb.stateCache.TrieDB().Node(it.Hash())],
    [rlp.DecodeBytes(node, &nodeElements)], [CheckKeyType(nodeElements)]. *)
Definition readNode {R} (s : IterStep) : M R (bytes * list item * NodeType) :=
  node <- lift (NodeOf env (st_Hash s)) ;;
  nodeElements <- lift (DecodeElements env node) ;;
  ty <- lift (CheckKeyType nodeElements) ;;
  ret (node, nodeElements, ty).

(** The account decode of a state leaf, with its error message. *)
Definition decodeAccount {R} (nodePath : bytes) (nodeElements : list item) : M R Account :=
  v <- lift (as_bytes (nodeElements !! 1%nat)) ;;
  match DecodeAccount env v with
  | inl account => ret account
  | inr err =>
      throw (Errorf (String.append "error decoding account for leaf node at path "
                       (String.append (Bytes2Hex nodePath) " nerror")) err)
  end.

(** [if it.Leaf() { continue }; if bytes.Equal(nullHashBytes, it.Hash().Bytes()) { continue }] *)
Definition skipped (s : IterStep) : bool :=
  st_Leaf s || bytes_Equal nullHashBytes (st_Hash s).

(** *** Storage diffs *)

(** The loop body of [buildStorageNodesFromTrie] (lines 592-643). *)
Definition buildStorageNodesFromTrie_step (watchedStorageKeys : list Hash)
    (intermediateNodes : bool) (output : Sink StorageNode) (_ : unit) (s : IterStep)
    : M StorageNode unit :=
  if skipped s then ret tt else
  let nodePath := st_Path s in
  '(node, nodeElements, ty) <- readNode s ;;
  match ty with
  | Leaf =>
      leafKey <- lift (leafKeyOf nodePath nodeElements) ;;
      if isWatchedStorageKey watchedStorageKeys leafKey then
        emit output {| sNodeType := ty; sPath := nodePath; sNodeValue := node;
                         sLeafKey := leafKey |}
      else ret tt
  | Extension | Branch =>
      if intermediateNodes then
        emit output {| sNodeType := ty; sPath := nodePath; sNodeValue := node;
                         sLeafKey := [] |}
      else ret tt
  | _ => throw (ErrMsg "unexpected node type")
  end.

(** [buildStorageNodesFromTrie] (lines 591-645) *)
Definition buildStorageNodesFromTrie (it : NodeIterator) (watchedStorageKeys : list Hash)
    (intermediateNodes : bool) (output : Sink StorageNode) : M StorageNode unit :=
  _ <- foldM (buildStorageNodesFromTrie_step watchedStorageKeys intermediateNodes output)
             (it_steps it) tt ;;
  iterError it tt.

(** [buildStorageNodesEventual] (lines 570-586) *)
Definition buildStorageNodesEventual (sr : Hash) (watchedStorageKeys : list Hash)
    (intermediateNodes : bool) (output : Sink StorageNode) : M StorageNode unit :=
  if bytes_Equal sr (emptyContractRoot env) then ret tt else
  it <- lift (OpenTrie env sr) ;;
  buildStorageNodesFromTrie it watchedStorageKeys intermediateNodes output.

(** The loop body of [createdAndUpdatedStorage] (lines 679-731). *)
Definition createdAndUpdatedStorage_step (watchedKeys : list Hash) (intermediateNodes : bool)
    (output : Sink StorageNode) (diffPathsAtB : gset string) (s : IterStep)
    : M StorageNode (gset string) :=
  if skipped s then ret diffPathsAtB else
  let nodePath := st_Path s in
  '(node, nodeElements, ty) <- readNode s ;;
  _ <- match ty with
       | Leaf =>
           leafKey <- lift (leafKeyOf nodePath nodeElements) ;;
           if isWatchedStorageKey watchedKeys leafKey then
             emit output {| sNodeType := ty; sPath := nodePath; sNodeValue := node;
                              sLeafKey := leafKey |}
           else ret tt
       | Extension | Branch =>
           if intermediateNodes then
             emit output {| sNodeType := ty; sPath := nodePath; sNodeValue := node;
                              sLeafKey := [] |}
           else ret tt
       | _ => throw (ErrMsg "unexpected node type")
       end ;;
  ret ({[Bytes2Hex nodePath]} ∪ diffPathsAtB).

(** [createdAndUpdatedStorage] (lines 676-733) *)
Definition createdAndUpdatedStorage (a b : NodeIterator) (watchedKeys : list Hash)
    (intermediateNodes : bool) (output : Sink StorageNode) : M StorageNode (gset string) :=
  let it := NewDifferenceIterator a b in
  diffPathsAtB <- foldM (createdAndUpdatedStorage_step watchedKeys intermediateNodes output)
                        (it_steps it) ∅ ;;
  iterError it diffPathsAtB.

(** The loop body of [deletedOrUpdatedStorage] (lines 737-793). *)
Definition deletedOrUpdatedStorage_step (diffPathsAtB : gset string) (watchedKeys : list Hash)
    (intermediateNodes : bool) (output : Sink StorageNode) (_ : unit) (s : IterStep)
    : M StorageNode unit :=
  if skipped s then ret tt else
  let nodePath := st_Path s in
  if bool_decide (Bytes2Hex nodePath ∈ diffPathsAtB) then ret tt else
  '(node, nodeElements, ty) <- readNode s ;;
  match ty with
  | Leaf =>
      leafKey <- lift (leafKeyOf nodePath nodeElements) ;;
      if isWatchedStorageKey watchedKeys leafKey then
        emit output {| sNodeType := Removed; sPath := nodePath; sNodeValue := [];
                         sLeafKey := [] |}
      else ret tt
  | Extension | Branch =>
      if intermediateNodes then
        emit output {| sNodeType := Removed; sPath := nodePath; sNodeValue := [];
                         sLeafKey := [] |}
      else ret tt
  | _ => throw (ErrMsg "unexpected node type")
  end.

(** [deletedOrUpdatedStorage] (lines 735-795) *)
Definition deletedOrUpdatedStorage (a b : NodeIterator) (diffPathsAtB : gset string)
    (watchedKeys : list Hash) (intermediateNodes : bool) (output : Sink StorageNode)
    : M StorageNode unit :=
  let it := NewDifferenceIterator b a in
  _ <- foldM (deletedOrUpdatedStorage_step diffPathsAtB watchedKeys intermediateNodes output)
             (it_steps it) tt ;;
  iterError it tt.

(** [buildStorageNodesIncremental] (lines 648-674) *)
Definition buildStorageNodesIncremental (oldSR newSR : Hash) (watchedStorageKeys : list Hash)
    (intermediateNodes : bool) (output : Sink StorageNode) : M StorageNode unit :=
  if bytes_Equal newSR oldSR then ret tt else
  oldTrie <- lift (OpenTrie env oldSR) ;;
  newTrie <- lift (OpenTrie env newSR) ;;
  diffPathsAtB <- createdAndUpdatedStorage oldTrie newTrie watchedStorageKeys
                    intermediateNodes output ;;
  deletedOrUpdatedStorage oldTrie newTrie diffPathsAtB watchedStorageKeys
    intermediateNodes output.

(** *** State diffs *)

(** The loop body of [createdAndUpdatedState] (lines 310-355). *)
Definition createdAndUpdatedState_step (watchedAddresses : list bytes)
    (acc : AccountMap * gset string) (s : IterStep)
    : M StateNode (AccountMap * gset string) :=
  let '(diffAcountsAtB, diffPathsAtB) := acc in
  if skipped s then ret acc else
  let nodePath := st_Path s in
  '(node, nodeElements, ty) <- readNode s ;;
  diffAcountsAtB <-
    (match ty with
     | Leaf =>
         account <- decodeAccount nodePath nodeElements ;;
         leafKey <- lift (leafKeyOf nodePath nodeElements) ;;
         if isWatchedAddress env watchedAddresses leafKey then
           ret (<[Bytes2Hex leafKey := {| aw_NodeType := ty; aw_Path := nodePath;
                  aw_NodeValue := node; aw_LeafKey := leafKey;
                  aw_Account := Some account |}]> diffAcountsAtB)
         else ret diffAcountsAtB
     | _ => ret diffAcountsAtB
     end) ;;
  ret (diffAcountsAtB, {[Bytes2Hex nodePath]} ∪ diffPathsAtB).

(** [createdAndUpdatedState] (lines 306-357) *)
Definition createdAndUpdatedState (a b : NodeIterator) (watchedAddresses : list bytes)
    : M StateNode (AccountMap * gset string) :=
  let it := NewDifferenceIterator a b in
  acc <- foldM (createdAndUpdatedState_step watchedAddresses) (it_steps it) (∅, ∅) ;;
  iterError it acc.

(** The loop body of [createdAndUpdatedStateWithIntermediateNodes] (lines 367-423). *)
Definition createdAndUpdatedStateWithIntermediateNodes_step (output : Sink StateNode)
    (acc : AccountMap * gset string) (s : IterStep)
    : M StateNode (AccountMap * gset string) :=
  let '(diffAcountsAtB, diffPathsAtB) := acc in
  if skipped s then ret acc else
  let nodePath := st_Path s in
  '(node, nodeElements, ty) <- readNode s ;;
  diffAcountsAtB <-
    (match ty with
     | Leaf =>
         account <- decodeAccount nodePath nodeElements ;;
         leafKey <- lift (leafKeyOf nodePath nodeElements) ;;
         ret (<[Bytes2Hex leafKey := {| aw_NodeType := ty; aw_Path := nodePath;
                aw_NodeValue := node; aw_LeafKey := leafKey;
                aw_Account := Some account |}]> diffAcountsAtB)
     | Extension | Branch =>
         _ <- emit output {| NodeType_ := ty; Path := nodePath; NodeValue := node;
                             LeafKey := []; StorageNodes := [] |} ;;
         ret diffAcountsAtB
     | _ => throw (ErrMsg "unexpected node type")
     end) ;;
  ret (diffAcountsAtB, {[Bytes2Hex nodePath]} ∪ diffPathsAtB).

(** [createdAndUpdatedStateWithIntermediateNodes] (lines 363-425) *)
Definition createdAndUpdatedStateWithIntermediateNodes (a b : NodeIterator)
    (output : Sink StateNode) : M StateNode (AccountMap * gset string) :=
  let it := NewDifferenceIterator a b in
  acc <- foldM (createdAndUpdatedStateWithIntermediateNodes_step output) (it_steps it) (∅, ∅) ;;
  iterError it acc.

(** The [Removed] record of Pass 2 (lines 446-450). *)
Definition removedNode (nodePath : bytes) : StateNode :=
  {| NodeType_ := Removed; Path := nodePath; NodeValue := [];
     LeafKey := []; StorageNodes := [] |}.

(** The loop body of [deletedOrUpdatedState] (lines 432-489). *)
Definition deletedOrUpdatedState_step (diffPathsAtB : gset string) (output : Sink StateNode)
    (diffAccountAtA : AccountMap) (s : IterStep) : M StateNode AccountMap :=
  if skipped s then ret diffAccountAtA else
  let nodePath := st_Path s in
  _ <- (if bool_decide (Bytes2Hex nodePath ∈ diffPathsAtB) then ret tt
        else emit output (removedNode nodePath)) ;;
  '(node, nodeElements, ty) <- readNode s ;;
  match ty with
  | Leaf =>
      account <- decodeAccount nodePath nodeElements ;;
      leafKey <- lift (leafKeyOf nodePath nodeElements) ;;
      ret (<[Bytes2Hex leafKey := {| aw_NodeType := ty; aw_Path := nodePath;
             aw_NodeValue := node; aw_LeafKey := leafKey;
             aw_Account := Some account |}]> diffAccountAtA)
  | Extension | Branch => ret diffAccountAtA
  | _ => throw (ErrMsg "unexpected node type")
  end.

(** [deletedOrUpdatedState] (lines 429-491) *)
Definition deletedOrUpdatedState (a b : NodeIterator) (diffPathsAtB : gset string)
    (output : Sink StateNode) : M StateNode AccountMap :=
  let it := NewDifferenceIterator b a in
  diffAccountAtA <- foldM (deletedOrUpdatedState_step diffPathsAtB output) (it_steps it) ∅ ;;
  iterError it diffAccountAtA.

(** Map lookup [m[key]]: the zero value when [key] is absent. *)
Definition lookup0 (m : AccountMap) (key : string) : accountWrapper :=
  default zero_wrapper (m !! key).

(** [buildAccountUpdates] (lines 497-528).  The maps [creations] and
    [deletions] are shared with the caller, which goes on using them after
    the deletes: they are returned. *)
Fixpoint buildAccountUpdates (creations deletions : AccountMap) (updatedKeys : list string)
    (watchedStorageKeys : list Hash) (intermediateStorageNodes : bool)
    (output : Sink StateNode) : M StateNode (AccountMap * AccountMap) :=
  match updatedKeys with
  | [] => ret (creations, deletions)
  | key :: updatedKeys' =>
      let createdAcc := lookup0 creations key in
      let deletedAcc := lookup0 deletions key in
      storageDiffs <-
        (match aw_Account deletedAcc, aw_Account createdAcc with
         | Some dAcc, Some cAcc =>
             let oldSR := Root dAcc in
             let newSR := Root cAcc in
             match collect (buildStorageNodesIncremental oldSR newSR watchedStorageKeys
                              intermediateStorageNodes storageNodeAppender) with
             | (storageDiffs, inl _) => ret storageDiffs
             | (_, inr err) =>
                 throw (Errorf (String.append
                   "failed building incremental storage diffs for account with leafkey "
                   (String.append key " error")) err)
             end
         | _, _ => ret []
         end) ;;
      _ <- emit output {| NodeType_ := aw_NodeType createdAcc; Path := aw_Path createdAcc;
                          NodeValue := aw_NodeValue createdAcc;
                          LeafKey := aw_LeafKey createdAcc; StorageNodes := storageDiffs |} ;;
      buildAccountUpdates (delete key creations) (delete key deletions) updatedKeys'
        watchedStorageKeys intermediateStorageNodes output
  end.

(** The loop body of [buildAccountCreations] (lines 534-563).  The nil
    pointer [val.Account] cannot occur for entries built by Pass 1; its
    dereference would panic. *)
Definition buildAccountCreations_step (watchedStorageKeys : list Hash)
    (intermediateStorageNodes : bool) (output : Sink StateNode)
    (codeAndCodeHashes : list CodeAndCodeHash) (kv : string * accountWrapper)
    : M StateNode (list CodeAndCodeHash) :=
  let val := kv.2 in
  match aw_Account val with
  | None => throw (ErrMsg "panic: nil pointer dereference")
  | Some acct =>
      '(diff, codeAndCodeHashes) <-
        (if negb (bytes_Equal (CodeHash acct) (nullCodeHash env)) then
           (* For contract creations, any storage node contained is a diff *)
           match collect (buildStorageNodesEventual (Root acct) watchedStorageKeys
                            intermediateStorageNodes storageNodeAppender) with
           | (_, inr err) =>
               throw (Errorf (String.append "failed building eventual storage diffs for node "
                                (String.append (Bytes2Hex (aw_Path val)) " error")) err)
           | (storageDiffs, inl _) =>
               let codeHash := BytesToHash (CodeHash acct) in
               code <- (match ContractCode env nullHashBytes codeHash with
                        | inl code => ret code
                        | inr err =>
                            throw (Errorf (String.append "failed to retrieve code for codehash "
                                             (String.append (Bytes2Hex codeHash) " error")) err)
                        end) ;;
               ret ({| NodeType_ := aw_NodeType val; Path := aw_Path val;
                       LeafKey := aw_LeafKey val; NodeValue := aw_NodeValue val;
                       StorageNodes := storageDiffs |},
                    codeAndCodeHashes ++ [{| cc_Hash := codeHash; cc_Code := code |}])
           end
         else
           ret ({| NodeType_ := aw_NodeType val; Path := aw_Path val;
                   LeafKey := aw_LeafKey val; NodeValue := aw_NodeValue val;
                   StorageNodes := [] |}, codeAndCodeHashes)) ;;
      _ <- emit output diff ;;
      ret codeAndCodeHashes
  end.

(** [buildAccountCreations] (lines 532-566): [for _, val := range accounts]
    in the runtime's iteration order. *)
Definition buildAccountCreations (rt : GoRuntime) (accounts : AccountMap)
    (watchedStorageKeys : list Hash) (intermediateStorageNodes : bool)
    (output : Sink StateNode) : M StateNode (list CodeAndCodeHash) :=
  foldM (buildAccountCreations_step watchedStorageKeys intermediateStorageNodes output)
        (range_map rt accounts) [].

(** Pass 3 shared by both entry points (lines 224-246 and 278-300). *)
Definition reconcile (rt : GoRuntime) (params : Params) (output : Sink StateNode)
    (diffAccountsAtB diffAccountsAtA : AccountMap) : M StateNode (list CodeAndCodeHash) :=
  let createKeys := sortKeys diffAccountsAtB in
  let deleteKeys := sortKeys diffAccountsAtA in
  let updatedKeys := findIntersection createKeys deleteKeys in
  '(diffAccountsAtB, diffAccountsAtA) <-
    wrap "error building diff for updated accounts"
      (buildAccountUpdates diffAccountsAtB diffAccountsAtA updatedKeys
         (WatchedStorageSlots params) (IntermediateStorageNodes params) output) ;;
  wrap "error building diff for created accounts"
    (buildAccountCreations rt diffAccountsAtB (WatchedStorageSlots params)
       (IntermediateStorageNodes params) output).

(** [OpenTrie] with the error message of both entry points. *)
Definition openTrie {R} (root : Hash) (msg : string) : M R NodeIterator :=
  match OpenTrie env root with
  | inl t => ret t
  | inr err => throw (Errorf msg err)
  end.

(** [buildStateDiffWithIntermediateStateNodes] (lines 194-247) *)
Definition buildStateDiffWithIntermediateStateNodes (rt : GoRuntime) (args : StateRoots)
    (params : Params) (output : Sink StateNode) : M StateNode (list CodeAndCodeHash) :=
  oldTrie <- openTrie (OldStateRoot args) "error creating trie for oldStateRoot" ;;
  newTrie <- openTrie (NewStateRoot args) "error creating trie for newStateRoot" ;;
  '(diffAccountsAtB, diffPathsAtB) <-
    wrap "error collecting createdAndUpdatedNodes"
      (createdAndUpdatedStateWithIntermediateNodes oldTrie newTrie output) ;;
  diffAccountsAtA <-
    wrap "error collecting deletedOrUpdatedNodes"
      (deletedOrUpdatedState oldTrie newTrie diffPathsAtB output) ;;
  reconcile rt params output diffAccountsAtB diffAccountsAtA.

(** [buildStateDiffWithoutIntermediateStateNodes] (lines 249-301) *)
Definition buildStateDiffWithoutIntermediateStateNodes (rt : GoRuntime) (args : StateRoots)
    (params : Params) (output : Sink StateNode) : M StateNode (list CodeAndCodeHash) :=
  oldTrie <- openTrie (OldStateRoot args) "error creating trie for oldStateRoot" ;;
  newTrie <- openTrie (NewStateRoot args) "error creating trie for newStateRoot" ;;
  '(diffAccountsAtB, diffPathsAtB) <-
    wrap "error collecting createdAndUpdatedNodes"
      (createdAndUpdatedState oldTrie newTrie (WatchedAddresses params)) ;;
  diffAccountsAtA <-
    wrap "error collecting deletedOrUpdatedNodes"
      (deletedOrUpdatedState oldTrie newTrie diffPathsAtB output) ;;
  reconcile rt params output diffAccountsAtB diffAccountsAtA.

(** [WriteStateDiffObject] (lines 185-192) *)
Definition WriteStateDiffObject (rt : GoRuntime) (args : StateRoots) (params : Params)
    (output : Sink StateNode) : M StateNode (list CodeAndCodeHash) :=
  if negb (IntermediateStateNodes params) || bool_decide (0 < length (WatchedAddresses params))%nat
  then buildStateDiffWithoutIntermediateStateNodes rt args params output
  else buildStateDiffWithIntermediateStateNodes rt args params output.

(** [BuildStateDiffObject] (lines 168-182): the records are appended to a
    fresh slice by [stateNodeAppender]. *)
Definition BuildStateDiffObject (rt : GoRuntime) (args : Args) (params : Params)
    : StateObject * option error :=
  match collect (WriteStateDiffObject rt
                   {| OldStateRoot := a_OldStateRoot args; NewStateRoot := a_NewStateRoot args |}
                   params stateNodeAppender) with
  | (_, inr err) => (empty_StateObject, Some err)
  | (stateNodes, inl codeAndCodeHashes) =>
      ({| so_BlockHash := a_BlockHash args; so_BlockNumber := a_BlockNumber args;
          so_Nodes := stateNodes; so_CodeAndCodeHashes := codeAndCodeHashes |}, None)
  end.

End Builder.

(** Pass 1 of the variant [WriteStateDiffObject] selects (lines 187-191):
    [createdAndUpdatedState] (line 260) or
    [createdAndUpdatedStateWithIntermediateNodes] (line 205). *)
Definition firstPass (env : Env) (params : Params) (output : Sink StateNode)
    (oldTrie newTrie : NodeIterator) : M StateNode (AccountMap * gset string) :=
  if negb (IntermediateStateNodes params) || bool_decide (0 < length (WatchedAddresses params))%nat
  then createdAndUpdatedState env oldTrie newTrie (WatchedAddresses params)
  else createdAndUpdatedStateWithIntermediateNodes env oldTrie newTrie output.

(** [FailedInPass env rt args params output tr tr' e r]: the run of
    [WriteStateDiffObject] from [tr] opened both tries, and one of its four
    passes, run on the results of the passes before it, ended at [tr'] with
    the error [e]; [r] is [e] wrapped with the prefix of that pass. *)
Definition FailedInPass (env : Env) (rt : GoRuntime) (args : StateRoots) (params : Params)
    (output : Sink StateNode) (tr tr' : list StateNode) (e : error)
    (r : list CodeAndCodeHash + error) : Prop :=
  exists oldTrie newTrie,
    OpenTrie env (OldStateRoot args) = inl oldTrie /\
    OpenTrie env (NewStateRoot args) = inl newTrie /\
    ((firstPass env params output oldTrie newTrie tr = (tr', inr e) /\
      r = inr (Errorf "error collecting createdAndUpdatedNodes" e)) \/
     (exists diffAccountsAtB diffPathsAtB tr1,
       firstPass env params output oldTrie newTrie tr = (tr1, inl (diffAccountsAtB, diffPathsAtB)) /\
       ((deletedOrUpdatedState env oldTrie newTrie diffPathsAtB output tr1 = (tr', inr e) /\
         r = inr (Errorf "error collecting deletedOrUpdatedNodes" e)) \/
        (exists diffAccountsAtA tr2,
          deletedOrUpdatedState env oldTrie newTrie diffPathsAtB output tr1 = (tr2, inl diffAccountsAtA) /\
          ((buildAccountUpdates env diffAccountsAtB diffAccountsAtA
              (findIntersection (sortKeys diffAccountsAtB) (sortKeys diffAccountsAtA))
              (WatchedStorageSlots params) (IntermediateStorageNodes params) output tr2 = (tr', inr e) /\
            r = inr (Errorf "error building diff for updated accounts" e)) \/
           (exists B' A' tr3,
             buildAccountUpdates env diffAccountsAtB diffAccountsAtA
               (findIntersection (sortKeys diffAccountsAtB) (sortKeys diffAccountsAtA))
               (WatchedStorageSlots params) (IntermediateStorageNodes params) output tr2
               = (tr3, inl (B', A')) /\
             buildAccountCreations env rt B' (WatchedStorageSlots params)
               (IntermediateStorageNodes params) output tr3 = (tr', inr e) /\
             r = inr (Errorf "error building diff for created accounts" e))))))).

(** The rule the spec gives for the A-side storage pass: whether the node
    read at step [s] calls for a [Removed] storage record, by its node type
    (a leaf when its key passes the watch filter, an extension or a branch
    when [intermediateNodes] is set).  [false] when the node cannot be read. *)
Definition storageRemovalDue (env : Env) (watchedKeys : list Hash) (intermediateNodes : bool)
    (s : IterStep) : bool :=
  match NodeOf env (st_Hash s) with
  | inr _ => false
  | inl node =>
      match DecodeElements env node with
      | inr _ => false
      | inl nodeElements =>
          match CheckKeyType nodeElements with
          | inl Leaf =>
              match leafKeyOf (st_Path s) nodeElements with
              | inl leafKey => isWatchedStorageKey watchedKeys leafKey
              | inr _ => false
              end
          | inl Extension | inl Branch => intermediateNodes
          | _ => false
          end
      end
  end.

(** A [Removed] storage record: [StorageNode{NodeType: Removed, Path: nodePath,
    NodeValue: []byte{}}]. *)
Definition removedStorageNode (nodePath : bytes) : StorageNode :=
  {| sNodeType := Removed; sPath := nodePath; sNodeValue := []; sLeafKey := [] |}.

(** The invariant of the account maps built by Passes 1 and 2: every entry
    is filed under the hex encoding of its own leaf key. *)
Definition keyedByLeafKey (m : AccountMap) : Prop :=
  map_Forall (fun key w => Bytes2Hex (aw_LeafKey w) = key) m.

(** What [buildAccountCreations] makes of one entry [val]: the record [n]
    it sends and the code and code hash pairs [codes] it adds.  The record
    copies the entry's type, path, leaf key and value; the eventual storage
    walk runs, its storage nodes are attached and the pair is added only for
    an account whose code hash is not the hash of empty code. *)
Definition creationOutcome (env : Env) (watchedStorageKeys : list Hash)
    (intermediateStorageNodes : bool) (val : accountWrapper) (n : StateNode)
    (codes : list CodeAndCodeHash) : Prop :=
  NodeType_ n = aw_NodeType val /\ Path n = aw_Path val /\
  LeafKey n = aw_LeafKey val /\ NodeValue n = aw_NodeValue val /\
  exists acct, aw_Account val = Some acct /\
    if bytes_Equal (CodeHash acct) (nullCodeHash env)
    then StorageNodes n = [] /\ codes = []
    else (exists u, collect (buildStorageNodesEventual env (Root acct) watchedStorageKeys
                               intermediateStorageNodes storageNodeAppender)
                    = (StorageNodes n, inl u)) /\
         exists code, ContractCode env nullHashBytes (BytesToHash (CodeHash acct)) = inl code /\
                      codes = [{| cc_Hash := BytesToHash (CodeHash acct); cc_Code := code |}].

(** [Accepted sink tr ext]: the sink, called on each record of [ext] in turn
    (its backing store holding [tr] and the records before), accepted all. *)
Fixpoint Accepted {R} (sink : Sink R) (tr ext : list R) : Prop :=
  match ext with
  | [] => True
  | n :: ext' => sink tr n = None /\ Accepted sink (tr ++ [n]) ext'
  end.


(* ------------------------------------------------------------------ *)
(** ** The state trie snapshot (builder.go, lines 75-165) *)

(** [types.Block]: the fields of a block the code reads. *)
Record Block := {
  b_Root : Hash;
  b_Number : Z;
  b_Hash : Hash;
  b_ParentHash : Hash
}.

Section StateTrie.

Context (env : Env).

(** The loop body of [buildStateTrie] (lines 97-163): the state nodes and
    the code and code hash pairs collected so far.  The storage of a
    contract account is walked with no watched keys ([nil]) and with
    intermediate nodes.  The [%+v] rendering of the account in the storage
    error message is left out of the message text. *)
Definition buildStateTrie_step (acc : list StateNode * list CodeAndCodeHash) (s : IterStep)
    : M StateNode (list StateNode * list CodeAndCodeHash) :=
  let '(stateNodes, codeAndCodeHashes) := acc in
  if skipped s then ret acc else
  let nodePath := st_Path s in
  '(node, nodeElements, ty) <- readNode env s ;;
  match ty with
  | Leaf =>
      account <- decodeAccount env nodePath nodeElements ;;
      leafKey <- lift (leafKeyOf nodePath nodeElements) ;;
      if negb (bytes_Equal (CodeHash account) (nullCodeHash env)) then
        match collect (buildStorageNodesEventual env (Root account) [] true
                         storageNodeAppender) with
        | (_, inr err) =>
            throw (Errorf "failed building eventual storage diffs for account error" err)
        | (storageNodes, inl _) =>
            let codeHash := BytesToHash (CodeHash account) in
            code <- (match ContractCode env nullHashBytes codeHash with
                     | inl code => ret code
                     | inr err =>
                         throw (Errorf (String.append "failed to retrieve code for codehash "
                                          (String.append (Bytes2Hex codeHash) " error")) err)
                     end) ;;
            ret (stateNodes ++ [{| NodeType_ := ty; Path := nodePath; LeafKey := leafKey;
                                   NodeValue := node; StorageNodes := storageNodes |}],
                 codeAndCodeHashes ++ [{| cc_Hash := codeHash; cc_Code := code |}])
        end
      else
        ret (stateNodes ++ [{| NodeType_ := ty; Path := nodePath; LeafKey := leafKey;
                               NodeValue := node; StorageNodes := [] |}],
             codeAndCodeHashes)
  | Extension | Branch =>
      ret (stateNodes ++ [{| NodeType_ := ty; Path := nodePath; LeafKey := [];
                             NodeValue := node; StorageNodes := [] |}],
           codeAndCodeHashes)
  | _ => throw (ErrMsg "unexpected node type")
  end.

(** [buildStateTrie] (lines 94-165).  [return stateNodes, codeAndCodeHashes,
    it.Error()]: its only caller drops the slices when the error is set. *)
Definition buildStateTrie (it : NodeIterator)
    : M StateNode (list StateNode * list CodeAndCodeHash) :=
  acc <- foldM buildStateTrie_step (it_steps it) ([], []) ;;
  iterError it acc.

(** [BuildStateTrieObject] (lines 76-92); [%d] prints the block number in
    decimal. *)
Definition BuildStateTrieObject (current : Block) : StateObject * option error :=
  match OpenTrie env (b_Root current) with
  | inr err =>
      (empty_StateObject,
       Some (Errorf (String.append "error creating trie for block " (pretty (b_Number current)))
               err))
  | inl it =>
      match collect (buildStateTrie it) with
      | (_, inr err) =>
          (empty_StateObject,
           Some (Errorf (String.append "error collecting state nodes for block "
                           (pretty (b_Number current))) err))
      | (_, inl (stateNodes, codeAndCodeHashes)) =>
          ({| so_BlockNumber := b_Number current; so_BlockHash := b_Hash current;
              so_Nodes := stateNodes; so_CodeAndCodeHashes := codeAndCodeHashes |}, None)
      end
  end.

End StateTrie.

(** What [buildStateTrie] makes of one visited trie node [s]: the state node
    [n] it appends and the code and code hash pairs [codes] it adds.  The
    node is read, decoded and typed; a leaf carries its leaf key and, for an
    account with code, the records of the eventual storage walk at its
    storage root (no watched keys, intermediate nodes included) and one
    pair; an extension or a branch carries neither. *)
Definition trieNodeOutcome (env : Env) (s : IterStep) (n : StateNode)
    (codes : list CodeAndCodeHash) : Prop :=
  Path n = st_Path s /\
  exists node el, NodeOf env (st_Hash s) = inl node /\ DecodeElements env node = inl el /\
    NodeValue n = node /\ CheckKeyType el = inl (NodeType_ n) /\
    match NodeType_ n with
    | Leaf =>
        exists v acct, as_bytes (el !! 1%nat) = inl v /\ DecodeAccount env v = inl acct /\
          leafKeyOf (st_Path s) el = inl (LeafKey n) /\
          if bytes_Equal (CodeHash acct) (nullCodeHash env)
          then StorageNodes n = [] /\ codes = []
          else (exists u, collect (buildStorageNodesEventual env (Root acct) [] true
                                     storageNodeAppender) = (StorageNodes n, inl u)) /\
               exists code, ContractCode env nullHashBytes (BytesToHash (CodeHash acct)) = inl code /\
                 codes = [{| cc_Hash := BytesToHash (CodeHash acct); cc_Code := code |}]
    | Extension | Branch => LeafKey n = [] /\ StorageNodes n = [] /\ codes = []
    | _ => False
    end.

(** The record [buildAccountUpdates] sends for one key, from the entries
    [createdAcc := creations[key]] and [deletedAcc := deletions[key]]
    (lines 502-521). *)
Definition updateRecord (env : Env) (watchedStorageKeys : list Hash)
    (intermediateStorageNodes : bool) (createdAcc deletedAcc : accountWrapper) : StateNode :=
  {| NodeType_ := aw_NodeType createdAcc; Path := aw_Path createdAcc;
     NodeValue := aw_NodeValue createdAcc; LeafKey := aw_LeafKey createdAcc;
     StorageNodes :=
       match aw_Account deletedAcc, aw_Account createdAcc with
       | Some dAcc, Some cAcc =>
           (collect (buildStorageNodesIncremental env (Root dAcc) (Root cAcc) watchedStorageKeys
                       intermediateStorageNodes storageNodeAppender)).1
       | _, _ => []
       end |}.

(** An entry of the account maps of Passes 1 and 2, built from the steps
    [steps] of the difference iterator: filed under the hex encoding of its
    leaf key, a leaf, with a decoded account, at the path of a visited
    structural node. *)
Definition accountEntryFrom (steps : list IterStep) (key : string) (w : accountWrapper) : Prop :=
  Bytes2Hex (aw_LeafKey w) = key /\ aw_NodeType w = Leaf /\ is_Some (aw_Account w) /\
  exists s, s ∈ steps /\ skipped s = false /\ aw_Path w = st_Path s.

(* ------------------------------------------------------------------ *)
(** ** The mock state diff service (statediff/testhelpers/mocks/api.go) *)

Module Mocks.

(** A Go channel value; [None] is the nil channel. *)
Definition chan := option Z.

(** [statediff.Payload] *)
Record Payload := { BlockRlp : bytes; StateDiffRlp : bytes }.

(** [statediff.Subscription] *)
Record Subscription := { PayloadChan : chan; sub_QuitChan : chan }.

Global Instance Subscription_eq_dec : EqDecision Subscription.
Proof.
  intros [p1 q1] [p2 q2].
  refine (cast_if (decide (p1 = p2 /\ q1 = q2)));
    [destruct_and?; subst; reflexivity | intros H; inversion H; tauto].
Defined.

(** A value sent on a channel. *)
Inductive message := MPayload (p : Payload) | MBool (b : bool).

(** The channels, as the sending goroutine sees them: how many sends each
    takes without blocking (receivers waiting plus free buffer slots), the
    closed ones, and the values sent so far. *)
Record Channels := {
  ch_room : gmap Z nat;
  ch_closed : gset Z;
  ch_sent : list (Z * message)
}.

(** [MockStateDiffService]: the embedded [sync.Mutex] is [mu_locked].  The
    [Builder], [BlockChain], protocol and API fields are not read by the
    methods modelled here.  [Subscriptions = None] is the nil map. *)
Record MockStateDiffService := {
  mu_locked : bool;
  Subscriptions : option (gmap string Subscription);
  streamBlock : bool;
  BlockChan : chan;
  ParentBlockChan : chan;
  QuitChan : chan;
  channels : Channels
}.

Definition set_locked (b : bool) (s : MockStateDiffService) : MockStateDiffService :=
  {| mu_locked := b; Subscriptions := Subscriptions s; streamBlock := streamBlock s;
     BlockChan := BlockChan s; ParentBlockChan := ParentBlockChan s; QuitChan := QuitChan s;
     channels := channels s |}.

Definition set_subs (m : option (gmap string Subscription)) (s : MockStateDiffService)
    : MockStateDiffService :=
  {| mu_locked := mu_locked s; Subscriptions := m; streamBlock := streamBlock s;
     BlockChan := BlockChan s; ParentBlockChan := ParentBlockChan s; QuitChan := QuitChan s;
     channels := channels s |}.

Definition set_channels (c : Channels) (s : MockStateDiffService) : MockStateDiffService :=
  {| mu_locked := mu_locked s; Subscriptions := Subscriptions s; streamBlock := streamBlock s;
     BlockChan := BlockChan s; ParentBlockChan := ParentBlockChan s; QuitChan := QuitChan s;
     channels := c |}.

(** How a call of a method ends: it returns (with the new state of the
    service), it blocks forever, or it panics (a Go panic or a fatal error). *)
Inductive Outcome (A : Type) :=
| Done (s : MockStateDiffService) (a : A)
| Blocked
| Panic.
Arguments Done {A}.
Arguments Blocked {A}.
Arguments Panic {A}.

(** A method of the service, run by one goroutine. *)
Definition Svc (A : Type) := MockStateDiffService -> Outcome A.

Global Instance Svc_ret : MRet Svc := fun A a s => Done s a.
Global Instance Svc_bind : MBind Svc := fun A B k m s =>
  match m s with
  | Done s' a => k a s'
  | Blocked => Blocked
  | Panic => Panic
  end.

Definition gets {A} (f : MockStateDiffService -> A) : Svc A := fun s => Done s (f s).

Definition modify (f : MockStateDiffService -> MockStateDiffService) : Svc unit :=
  fun s => Done (f s) tt.

(** [sds.Lock()]: blocks while the mutex is held (every method runs on
    behalf of one goroutine, so nothing else releases it). *)
Definition Lock : Svc unit := fun s =>
  if mu_locked s then Blocked else Done (set_locked true s) tt.

(** [sds.Unlock()]: unlocking an unlocked mutex is a fatal error. *)
Definition Unlock : Svc unit := fun s =>
  if mu_locked s then Done (set_locked false s) tt else Panic.

(** [select { case c <- m: ...; default: ... }]: a nil channel is never
    ready, a send on a closed channel panics, and a channel with room takes
    the value.  The result says which case ran. *)
Definition trySend (c : chan) (m : message) : Svc bool := fun s =>
  match c with
  | None => Done s false
  | Some c =>
      let ch := channels s in
      if bool_decide (c ∈ ch_closed ch) then Panic else
      match ch_room ch !! c with
      | Some (S n) =>
          Done (set_channels {| ch_room := <[c := n]> (ch_room ch); ch_closed := ch_closed ch;
                                ch_sent := ch_sent ch ++ [(c, m)] |} s) true
      | _ => Done s false
      end
  end.

(** [close(c)]: closing a nil or a closed channel panics. *)
Definition closeChan (c : chan) : Svc unit := fun s =>
  match c with
  | None => Panic
  | Some c =>
      let ch := channels s in
      if bool_decide (c ∈ ch_closed ch) then Panic else
      Done (set_channels {| ch_room := ch_room ch; ch_closed := {[c]} ∪ ch_closed ch;
                            ch_sent := ch_sent ch |} s) tt
  end.

(** A run-time panic, such as a nil pointer dereference. *)
Definition goPanic {A} : Svc A := fun _ => Panic.

(** A [for] loop over a list. *)
Fixpoint forEach {A} (f : A -> Svc unit) (l : list A) : Svc unit :=
  match l with
  | [] => mret tt
  | x :: l' => f x ;; forEach f l'
  end.

(** Reading the subscription map: a nil map reads as the empty one. *)
Definition subs_of (s : MockStateDiffService) : gmap string Subscription :=
  default ∅ (Subscriptions s).

(** Go map iteration over the subscriptions, as for [GoRuntime]. *)
Record SubsRuntime := {
  range_subs : gmap string Subscription -> list (string * Subscription);
  range_subs_perm : forall m, range_subs m ≡ₚ map_to_list m
}.

(** The collaborators of [processStateDiff]: [sds.Builder.BuildStateDiff]
    (its result type [StateDiff] is left abstract), [rlp.EncodeToBytes] of
    that result and [currentBlock.EncodeRLP]. *)
Record MockWorld (StateDiff : Type) := {
  BuildStateDiff : Hash -> Hash -> Z -> Hash -> StateDiff + error;
  EncodeStateDiff : StateDiff -> bytes + error;
  EncodeBlock : Block -> bytes + error
}.
Arguments BuildStateDiff {StateDiff}.
Arguments EncodeStateDiff {StateDiff}.
Arguments EncodeBlock {StateDiff}.

(** The events [Loop] receives: a value from [BlockChan] followed by one
    from [ParentBlockChan] ([None] is a nil [*types.Block]), or the quit
    signal. *)
Inductive LoopEvent :=
| BlockReceived (current parent : option Block)
| QuitReceived.

Section Service.

Context (rt : SubsRuntime).

(** An assignment [m[id] = v] to the subscription map: it panics on a nil map. *)
Definition assignSub (id : string) (sub : Subscription) : Svc unit := fun s =>
  match Subscriptions s with
  | None => Panic
  | Some m => Done (set_subs (Some (<[id := sub]> m)) s) tt
  end.

(** [delete(m, id)] on the subscription map: a no-op on a nil map. *)
Definition deleteSub (id : string) : Svc unit :=
  modify (fun s => set_subs (delete id <$> Subscriptions s) s).

(** [Subscribe] (lines 120-128) *)
Definition Subscribe (id : string) (sub : Subscription) : Svc unit :=
  Lock ;;
  assignSub id sub ;;
  Unlock.

(** [Unsubscribe] (lines 131-141): the early return on an unknown id does
    not unlock. *)
Definition Unsubscribe (id : string) : Svc (option error) :=
  Lock ;;
  subs ← gets subs_of ;
  match subs !! id with
  | None =>
      mret (Some (ErrMsg (String.append "cannot unsubscribe; subscription for id "
                            (String.append id " does not exist"))))
  | Some _ =>
      deleteSub id ;;
      Unlock ;;
      mret None
  end.

(** [send] (lines 143-154) *)
Definition send (payload : Payload) : Svc unit :=
  Lock ;;
  subs ← gets subs_of ;
  forEach (fun kv : string * Subscription => _ ← trySend (PayloadChan kv.2) (MPayload payload) ; mret tt)
          (range_subs rt subs) ;;
  Unlock.

(** [close] (lines 156-168): an entry is deleted only when its quit signal
    was taken; deleting the current entry does not change the rest of the
    iteration. *)
Definition close : Svc unit :=
  Lock ;;
  subs ← gets subs_of ;
  forEach (fun kv : string * Subscription =>
             ok ← trySend (sub_QuitChan kv.2) (MBool true) ;
             if (ok : bool) then deleteSub kv.1 else mret tt)
          (range_subs rt subs) ;;
  Unlock.

(** [Stop] (lines 183-187) *)
Definition Stop : Svc (option error) :=
  c ← gets QuitChan ;
  closeChan c ;;
  mret None.

Context {StateDiff : Type} (w : MockWorld StateDiff).

(** [processStateDiff] (lines 96-117) *)
Definition processStateDiff (streamBlock : bool) (currentBlock parentBlock : Block)
    : Payload + error :=
  match BuildStateDiff w (b_Root parentBlock) (b_Root currentBlock) (b_Number currentBlock)
          (b_Hash currentBlock) with
  | inr err => inr err
  | inl stateDiff =>
      match EncodeStateDiff w stateDiff with
      | inr err => inr err
      | inl stateDiffRlp =>
          if streamBlock then
            match EncodeBlock w currentBlock with
            | inr err => inr err
            | inl blockRlp => inl {| BlockRlp := blockRlp; StateDiffRlp := stateDiffRlp |}
            end
          else inl {| BlockRlp := []; StateDiffRlp := stateDiffRlp |}
      end
  end.

(** [Loop] (lines 67-93) over the events it receives; with no event left it
    is still waiting, in the state reached.  [parentBlock.Hash()] (line 74)
    dereferences the parent before the nil check of line 75, so a nil parent
    panics; [processStateDiff] reads [currentBlock.Root()] (line 97), so a
    nil current block panics too.  A failed diff is logged and skipped; the
    quit signal closes the subscriptions and returns. *)
Fixpoint Loop (evs : list LoopEvent) : Svc unit :=
  match evs with
  | [] => mret tt
  | BlockReceived currentBlock parentBlock :: evs' =>
      match parentBlock with
      | None => goPanic
      | Some parentBlock =>
          match currentBlock with
          | None => goPanic
          | Some currentBlock =>
              sb ← gets streamBlock ;
              match processStateDiff sb currentBlock parentBlock with
              | inr _ => Loop evs'
              | inl payload => send payload ;; Loop evs'
              end
          end
      end
  | QuitReceived :: _ => close
  end.

(** The payloads [processStateDiff] builds for the block events of [evs]
    with non-nil blocks, in order; a failed diff gives none. *)
Definition loopPayloads (sb : bool) (evs : list LoopEvent) : list Payload :=
  omap (fun ev => match ev with
                  | BlockReceived (Some currentBlock) (Some parentBlock) =>
                      match processStateDiff sb currentBlock parentBlock with
                      | inl payload => Some payload
                      | inr _ => None
                      end
                  | _ => None
                  end) evs.

End Service.

End Mocks.

(* ------------------------------------------------------------------ *)
(** ** A small concrete store *)

(** A store with two state tries and one storage trie, used to run the
    builder on concrete inputs.  Hashes are one byte, the bytes of a node
    are its hash, and the toy hash function appends the byte 0xEE, so the
    account with address [[n]] has the leaf key [[n; 0xEE]].
    - old state root [[1]]: a branch over account A (address [[0x0A]],
      balance 100) at path [[0]] and account C (address [[0x2C]]) at [[2]];
    - new state root [[2]]: a branch over account A (balance 200) at [[0]]
      and the contract B (address [[0x1B]], storage root [[10]]) at [[1]];
    - storage root [[10]]: one storage leaf with key [[9; 0xEE]]. *)
Module Demo.

Definition keccak (b : bytes) : bytes := b ++ [238].

Definition branch : list item := repeat (IBytes []) 17.

Definition step (h : Z) (p : bytes) : IterStep :=
  {| st_Leaf := false; st_Hash := [h]; st_Path := p; st_Blob := [] |}.

Definition value_step (p : bytes) : IterStep :=
  {| st_Leaf := true; st_Hash := nullHashBytes; st_Path := p; st_Blob := [] |}.

Definition old_trie : NodeIterator :=
  {| it_steps := [step 1 []; step 3 [0]; value_step [0; 10; 14; 14];
                  step 6 [2]; value_step [2; 12; 14; 14]];
     it_Error := None |}.

Definition new_trie : NodeIterator :=
  {| it_steps := [step 2 []; step 4 [0]; value_step [0; 10; 14; 14];
                  step 5 [1]; value_step [1; 11; 14; 14]];
     it_Error := None |}.

Definition empty_trie : NodeIterator := {| it_steps := []; it_Error := None |}.

(** A later state created from the empty state: contract B at [[1]], and
    accounts D at [[3]] and E at [[4]] without code; E has a storage root. *)
Definition created_trie : NodeIterator :=
  {| it_steps := [step 12 []; step 5 [1]; value_step [1; 11; 14; 14];
                  step 8 [3]; value_step [3; 13; 14; 14];
                  step 9 [4]; value_step [4; 14; 14; 14]];
     it_Error := None |}.

Definition storage_trie : NodeIterator :=
  {| it_steps := [step 11 []; value_step [0; 9; 14; 14]]; it_Error := None |}.

Definition acct (n : Z) (root code : bytes) : Account :=
  {| Nonce := 0; Balance := n; Root := root; CodeHash := code |}.

Definition env : Env := {|
  OpenTrie := fun r =>
    match r with
    | [1] => inl old_trie
    | [2] => inl new_trie
    | [10] => inl storage_trie
    | [0] => inl empty_trie
    | [12] => inl created_trie
    | _ => inr (ErrValue 404)
    end;
  NodeOf := fun h =>
    match h with
    | [x] => if (1 <=? x) && (x <=? 12) then inl [x] else inr (ErrValue 404)
    | _ => inr (ErrValue 404)
    end;
  ContractCode := fun _ h => if bytes_Equal h (BytesToHash [7]) then inl [96; 0]
                             else inr (ErrValue 404);
  DecodeElements := fun b =>
    match b with
    | [1] | [2] | [12] => inl branch
    | [3] => inl [IBytes [58; 238]; IBytes [30]]
    | [4] => inl [IBytes [58; 238]; IBytes [31]]
    | [5] => inl [IBytes [59; 238]; IBytes [32]]
    | [6] => inl [IBytes [60; 238]; IBytes [33]]
    | [8] => inl [IBytes [61; 238]; IBytes [34]]
    | [9] => inl [IBytes [62; 238]; IBytes [35]]
    | [11] => inl [IBytes [32; 9; 238]; IBytes [42]]
    | _ => inr (ErrValue 500)
    end;
  DecodeAccount := fun b =>
    match b with
    | [30] => inl (acct 100 (keccak emptyNode) (keccak []))
    | [31] => inl (acct 200 (keccak emptyNode) (keccak []))
    | [32] => inl (acct 0 [10] [7])
    | [33] => inl (acct 5 (keccak emptyNode) (keccak []))
    | [34] => inl (acct 7 (keccak emptyNode) (keccak []))
    | [35] => inl (acct 9 [10] (keccak []))
    | _ => inr (ErrValue 501)
    end;
  Keccak256 := keccak
|}.

(** The runtime that ranges over a map in [map_to_list] order. *)
Definition rt : GoRuntime := {| range_map := map_to_list; range_map_perm := fun m => reflexivity _ |}.

Definition roots : StateRoots := {| OldStateRoot := [1]; NewStateRoot := [2] |}.

(** A sink that refuses every record with the error value 7. *)
Definition failing_sink : Sink StateNode := fun _ _ => Some (ErrValue 7).

Definition creation_roots : StateRoots := {| OldStateRoot := [0]; NewStateRoot := [12] |}.

(** The account maps Passes 1 and 2 build for the two diffs. *)
Definition diffB (a b : NodeIterator) : AccountMap :=
  match createdAndUpdatedState env a b [] [] with
  | (_, inl (m, _)) => m
  | _ => ∅
  end.

Definition diffA (a b : NodeIterator) : AccountMap :=
  match createdAndUpdatedState env a b [] [] with
  | (_, inl (_, paths)) =>
      match deletedOrUpdatedState env a b paths stateNodeAppender [] with
      | (_, inl m) => m
      | _ => ∅
      end
  | _ => ∅
  end.

Definition params (inter : bool) (watched : list bytes) : Params :=
  {| IntermediateStateNodes := inter; IntermediateStorageNodes := true;
     WatchedAddresses := watched; WatchedStorageSlots := [] |}.

(** A block whose state root is the root of [created_trie]. *)
Definition block12 : Block :=
  {| b_Root := [12]; b_Number := 7; b_Hash := [7; 7]; b_ParentHash := [6; 6] |}.

End Demo.

(** A service with two subscriptions: "a" (payload channel 1, quit channel
    2) and "b" (payload channel 3, quit channel 4).  Channels 1, 3 and 4 take
    one value, channel 2 none. *)
Module DemoMock.
Import Mocks.

Definition rt : SubsRuntime :=
  {| range_subs := map_to_list; range_subs_perm := fun m => reflexivity _ |}.

Definition subs : gmap string Subscription :=
  <["a" := {| PayloadChan := Some 1; sub_QuitChan := Some 2 |}]>
    (<["b" := {| PayloadChan := Some 3; sub_QuitChan := Some 4 |}]> ∅).

Definition svc : MockStateDiffService :=
  {| mu_locked := false; Subscriptions := Some subs; streamBlock := false;
     BlockChan := Some 5; ParentBlockChan := Some 6; QuitChan := Some 7;
     channels := {| ch_room := <[1 := 1%nat]> (<[2 := 0%nat]> (<[3 := 1%nat]> (<[4 := 1%nat]> ∅)));
                    ch_closed := ∅; ch_sent := [] |} |}.

Definition payload : Payload := {| BlockRlp := []; StateDiffRlp := [1; 2] |}.

(** Collaborators of [processStateDiff]: the diff between two roots is their
    concatenation, encoded as is; a block encodes to its hash. *)
Definition world : MockWorld bytes :=
  {| BuildStateDiff := fun oldRoot newRoot _ _ => inl (oldRoot ++ newRoot);
     EncodeStateDiff := fun d => inl d;
     EncodeBlock := fun b => inl (b_Hash b) |}.

(** The service [svc] with room for two values on payload channels 1 and 3. *)
Definition svc2 : MockStateDiffService :=
  set_channels {| ch_room := <[1 := 2%nat]> (<[3 := 2%nat]> ∅); ch_closed := ∅; ch_sent := [] |} svc.

Definition blk (n : Z) : Block :=
  {| b_Root := [n]; b_Number := n; b_Hash := [n; n]; b_ParentHash := [n - 1; n - 1] |}.

End DemoMock.

(* ------------------------------------------------------------------ *)
(** ** Reasoning about the monad *)

(** [Appends m ext]: every successful run of [m] sends exactly [ext]. *)
Definition Appends {R A} (m : M R A) (ext : list R) : Prop :=
  forall tr tr' a, m tr = (tr', inl a) -> tr' = tr ++ ext.

(** [Hoare Q m Post]: every record a run of [m] sends satisfies [Q], and a
    successful run returns a value satisfying [Post]. *)
Definition Hoare {R A} (Q : R -> Prop) (m : M R A) (Post : A -> Prop) : Prop :=
  forall tr tr' r, m tr = (tr', r) ->
    (exists ext, tr' = tr ++ ext /\ Forall Q ext) /\ (forall a, r = inl a -> Post a).

(** The account maps of the watched path hold only leaves whose key passes the
    watch filter. *)
Definition WatchedMap (env : Env) (watched : list bytes) (m : AccountMap) : Prop :=
  map_Forall (fun _ w => aw_NodeType w = Leaf /\
                         isWatchedAddress env watched (aw_LeafKey w) = true) m.

(** A state record allowed by the watch list. *)
Definition WatchedRecord (env : Env) (watched : list bytes) (n : StateNode) : Prop :=
  NodeType_ n <> Extension /\ NodeType_ n <> Branch /\
  (NodeType_ n = Leaf -> exists addr, addr ∈ watched /\ LeafKey n = Keccak256 env addr).

(** [SinkSafe sink E m]: a run of [m] sends records that the sink all
    accepted, or stops right after the first record the sink rejected, with
    an error related by [E] to the sink's. *)
Definition SinkSafe {R A} (sink : Sink R) (E : error -> error -> Prop) (m : M R A) : Prop :=
  forall tr tr' r, m tr = (tr', r) ->
    exists ext, tr' = tr ++ ext /\
      (Accepted sink tr ext \/
       exists ext0 n e, ext = ext0 ++ [n] /\ Accepted sink tr ext0 /\
         sink (tr ++ ext0) n = Some e /\ exists e', r = inr e' /\ E e e').

(** Unfold the monad's combinators and split on every match. *)
Ltac mstep :=
  repeat (unfold bind, ret, throw, lift, emit, wrap, iterError, collect in *);
  repeat (case_match; simplify_eq/=).

Lemma foldM_cons {R A B} (f : A -> B -> M R A) (x : B) (l : list B) (acc : A) tr :
  foldM f (x :: l) acc tr =
  match f acc x tr with
  | (tr', inl a) => foldM f l a tr'
  | (tr', inr e) => (tr', inr e)
  end.
Proof. reflexivity. Qed.

(** A loop whose every successful step appends [g x] to the records sent
    appends [flat_map g l] when it completes. *)
Lemma foldM_trace_ok {R A B} (f : A -> B -> M R A) (g : B -> list R) :
  (forall acc x tr tr' acc', f acc x tr = (tr', inl acc') -> tr' = tr ++ g x) ->
  forall l acc tr tr' acc', foldM f l acc tr = (tr', inl acc') -> tr' = tr ++ flat_map g l.
Proof.
  intros Hf l. induction l as [|x l IH]; intros acc tr tr' acc' H; simpl in *.
  - unfold ret in H. simplify_eq. by rewrite app_nil_r.
  - unfold bind in H. destruct (f acc x tr) as [tr1 [a|e]] eqn:E; [|discriminate].
    apply Hf in E. subst. rewrite (IH _ _ _ _ H). by rewrite app_assoc.
Qed.

Lemma readNode_inv {R} env s tr tr' r :
  @readNode env R s tr = (tr', r) -> tr' = tr.
Proof. unfold readNode. intros H. mstep; done. Qed.

Lemma decodeAccount_inv {R} env p el tr tr' r :
  @decodeAccount env R p el tr = (tr', r) -> tr' = tr.
Proof. unfold decodeAccount. intros H. mstep; done. Qed.

Lemma Appends_ret {R A} (a : A) : Appends (R:=R) (ret a) [].
Proof. intros tr tr' b H. unfold ret in H. simplify_eq. by rewrite app_nil_r. Qed.

Lemma Appends_throw {R A} e ext : Appends (R:=R) (A:=A) (throw e) ext.
Proof. intros tr tr' b H. discriminate. Qed.

Lemma Appends_lift {R A} (x : A + error) : Appends (R:=R) (lift x) [].
Proof. intros tr tr' b H. unfold lift in H. simplify_eq. by rewrite app_nil_r. Qed.

Lemma Appends_emit {R} (sink : Sink R) n : Appends (emit sink n) [n].
Proof. intros tr tr' b H. unfold emit in H. case_match; simplify_eq; auto. Qed.

Lemma Appends_bind {R A B} (m : M R A) (k : A -> M R B) e1 e2 :
  Appends m e1 -> (forall a, Appends (k a) e2) -> Appends (bind m k) (e1 ++ e2).
Proof.
  intros Hm Hk tr tr' b H. unfold bind in H.
  destruct (m tr) as [tr1 [a|e]] eqn:E; [|discriminate].
  rewrite (Hk a _ _ _ H), (Hm _ _ _ E). by rewrite app_assoc.
Qed.

Lemma Appends_bind0 {R A B} (m : M R A) (k : A -> M R B) e2 :
  Appends m [] -> (forall a, Appends (k a) e2) -> Appends (bind m k) e2.
Proof. intros. change e2 with ([] ++ e2). by apply Appends_bind. Qed.

Lemma Appends_readNode {R} env s : Appends (@readNode env R s) [].
Proof. intros tr tr' a H. apply readNode_inv in H. subst. by rewrite app_nil_r. Qed.

Lemma Appends_decodeAccount {R} env p el : Appends (@decodeAccount env R p el) [].
Proof. intros tr tr' a H. apply decodeAccount_inv in H. subst. by rewrite app_nil_r. Qed.

Lemma Appends_foldM {R A B} (f : A -> B -> M R A) (g : B -> list R) :
  (forall acc x, Appends (f acc x) (g x)) ->
  forall l acc, Appends (foldM f l acc) (flat_map g l).
Proof.
  intros Hf l acc tr tr' a H. eapply foldM_trace_ok; [|exact H].
  intros ? ? ? ? ? E. exact (Hf _ _ _ _ _ E).
Qed.

Lemma Appends_iterError {R A} it (a : A) : Appends (R:=R) (iterError it a) [].
Proof. unfold iterError. case_match; [apply Appends_throw | apply Appends_ret]. Qed.

Create HintDb appends.

#[export] Hint Resolve Appends_ret Appends_throw Appends_lift Appends_emit Appends_readNode
  Appends_decodeAccount Appends_iterError : appends.

(** Split a computation into its binds and close the pieces that send nothing. *)
Ltac appends :=
  repeat first
    [ apply Appends_bind0; [solve [auto with appends] | intros ?]
    | progress case_match
    | solve [auto with appends] ].

Lemma flat_map_singleton_filter {A B} (P : A -> Prop) `{!forall x, Decision (P x)}
    (f : A -> B) (l : list A) :
  flat_map (fun x => if decide (P x) then [f x] else []) l = map f (filter P l).
Proof.
  induction l as [|x l IH]; simpl; [done|].
  rewrite filter_cons. case_decide; simpl; by rewrite IH.
Qed.

(** The records sent by one step of Pass 2. *)
Lemma deletedOrUpdatedState_step_appends env pathsB output acc s :
  Appends (deletedOrUpdatedState_step env pathsB output acc s)
    (if decide (skipped s = false /\ Bytes2Hex (st_Path s) ∉ pathsB)
     then [removedNode (st_Path s)] else []).
Proof.
  unfold deletedOrUpdatedState_step.
  destruct (skipped s) eqn:Hs.
  - rewrite decide_False by (intros [? _]; discriminate). apply Appends_ret.
  - case_bool_decide as Hin.
    + rewrite decide_False by tauto. apply Appends_bind0; [apply Appends_ret|intros _].
      appends.
    + rewrite decide_True by tauto.
      rewrite <- (app_nil_r [removedNode (st_Path s)]).
      apply Appends_bind; [apply Appends_emit|intros _]. appends.
Qed.

(* ------------------------------------------------------------------ *)
(** ** Claims *)

(** C1: in Pass 2 ([deletedOrUpdatedState]), every node yielded by
    [NewDifferenceIterator(new, old)] that is not a value node and whose hash
    is not all zeros, and whose path is not in [pathsB], gives exactly one
    [Removed] record with that path and an empty value, whatever its node
    type; the other nodes give no record.  On a successful run the records
    sent are exactly these, in iteration order. *)
Theorem deletedOrUpdatedState_removed_records (env : Env) (a b : NodeIterator)
    (pathsB : gset string) (output : Sink StateNode)
    (tr tr' : list StateNode) (diffAccountAtA : AccountMap) :
  deletedOrUpdatedState env a b pathsB output tr = (tr', inl diffAccountAtA) ->
  tr' = tr ++ map (fun s => removedNode (st_Path s))
                (filter (fun s => skipped s = false /\ Bytes2Hex (st_Path s) ∉ pathsB)
                        (it_steps (NewDifferenceIterator b a))).
Proof.
  intros H. rewrite <- flat_map_singleton_filter, <- (app_nil_r (flat_map _ _)).
  revert tr tr' diffAccountAtA H. unfold deletedOrUpdatedState. apply Appends_bind.
  - apply Appends_foldM. intros. apply deletedOrUpdatedState_step_appends.
  - intros. apply Appends_iterError.
Qed.


Section HoareRules.
Context {R : Type} (Q : R -> Prop).

Lemma Hoare_ret {A} (a : A) (P : A -> Prop) : P a -> Hoare Q (ret a) P.
Proof.
  intros HP tr tr' r H. unfold ret in H. simplify_eq.
  split; [exists []; by rewrite app_nil_r | intros; by simplify_eq].
Qed.

Lemma Hoare_throw {A} e (P : A -> Prop) : Hoare Q (throw e) P.
Proof.
  intros tr tr' r H. unfold throw in H. simplify_eq.
  split; [exists []; by rewrite app_nil_r | discriminate].
Qed.

Lemma Hoare_lift {A} (x : A + error) : Hoare Q (lift x) (fun a => x = inl a).
Proof.
  intros tr tr' r H. unfold lift in H. simplify_eq.
  split; [exists []; by rewrite app_nil_r | done].
Qed.

Lemma Hoare_emit (sink : Sink R) n : Q n -> Hoare Q (emit sink n) (fun _ => True).
Proof.
  intros HQ tr tr' r H. unfold emit in H.
  case_match; simplify_eq; (split; [exists [n]; auto | done]).
Qed.

Lemma Hoare_bind {A B} (m : M R A) (k : A -> M R B) P1 P2 :
  Hoare Q m P1 -> (forall a, P1 a -> Hoare Q (k a) P2) -> Hoare Q (bind m k) P2.
Proof.
  intros Hm Hk tr tr' r H. unfold bind in H.
  destruct (m tr) as [tr1 [a|e]] eqn:E.
  - destruct (Hm _ _ _ E) as [[ext1 [-> F1]] HP1].
    destruct (Hk a (HP1 a eq_refl) _ _ _ H) as [[ext2 [-> F2]] HP2].
    split; [exists (ext1 ++ ext2); rewrite app_assoc; split; [done|by apply Forall_app]|done].
  - simplify_eq. destruct (Hm _ _ _ E) as [Hext _]. split; [done|discriminate].
Qed.

Lemma Hoare_weaken {A} (m : M R A) (P P' : A -> Prop) :
  Hoare Q m P -> (forall a, P a -> P' a) -> Hoare Q m P'.
Proof. intros Hm HP tr tr' r H. destruct (Hm _ _ _ H) as [? HP1]. split; eauto. Qed.

Lemma Hoare_wrap {A} msg (m : M R A) P : Hoare Q m P -> Hoare Q (wrap msg m) P.
Proof.
  intros Hm tr tr' r H. unfold wrap in H.
  destruct (m tr) as [tr1 [a|e]] eqn:E; simplify_eq; destruct (Hm _ _ _ E) as [? HP];
    split; auto; discriminate.
Qed.

Lemma Hoare_readNode env s : Hoare Q (@readNode env R s) (fun _ => True).
Proof.
  intros tr tr' r H. apply readNode_inv in H. subst.
  split; [exists []; by rewrite app_nil_r | done].
Qed.

Lemma Hoare_decodeAccount env p el : Hoare Q (@decodeAccount env R p el) (fun _ => True).
Proof.
  intros tr tr' r H. apply decodeAccount_inv in H. subst.
  split; [exists []; by rewrite app_nil_r | done].
Qed.

Lemma Hoare_iterError {A} it (a : A) (P : A -> Prop) : P a -> Hoare Q (iterError it a) P.
Proof. intros. unfold iterError. case_match; [apply Hoare_throw | by apply Hoare_ret]. Qed.

(** A loop invariant that may mention the elements already visited. *)
Lemma Hoare_foldM {A B} (f : A -> B -> M R A) (I : list B -> A -> Prop) (Pre : B -> Prop) :
  (forall done acc x, I done acc -> Pre x -> Hoare Q (f acc x) (I (done ++ [x]))) ->
  forall l done acc, Forall Pre l -> I done acc -> Hoare Q (foldM f l acc) (I (done ++ l)).
Proof.
  intros Hf l. induction l as [|x l IH]; intros done acc Hpre HI; simpl.
  - rewrite app_nil_r. by apply Hoare_ret.
  - inversion Hpre; subst. eapply Hoare_bind; [by apply Hf|].
    intros a Ha. rewrite cons_middle, app_assoc. by apply IH.
Qed.

End HoareRules.

Create HintDb hoare.
#[export] Hint Resolve Hoare_readNode Hoare_decodeAccount Hoare_lift Hoare_throw : hoare.

(** Split a computation into its binds, closing the pieces that send nothing. *)
Ltac hoare :=
  repeat
    lazymatch goal with
    | |- Hoare _ (bind _ _) _ =>
        first
          [ eapply Hoare_bind; [solve [eauto with hoare] | intros ? ?]
          | eapply (Hoare_bind _ _ _ (fun _ => True));
              [solve [hoare; first [apply Hoare_ret; exact I | apply Hoare_emit; done]]
              | intros ? _] ]
    | |- Hoare _ (throw _) _ => apply Hoare_throw
    | |- Hoare _ (match ?x with _ => _ end) _ => destruct x eqn:?
    end.

(** Pass 1 without intermediate nodes sends no record, and every visited
    structural node's path is in [diffPathsAtB]. *)
Lemma createdAndUpdatedState_step_paths env watched done acc s :
  (forall s', s' ∈ done -> skipped s' = false -> Bytes2Hex (st_Path s') ∈ acc.2) ->
  Hoare (fun _ => False) (createdAndUpdatedState_step env watched acc s)
    (fun acc' => forall s', s' ∈ done ++ [s] -> skipped s' = false ->
                 Bytes2Hex (st_Path s') ∈ acc'.2).
Proof.
  intros HI. destruct acc as [accB paths]. unfold createdAndUpdatedState_step.
  destruct (skipped s) eqn:Hs.
  - apply Hoare_ret. intros s' Hin Hs'. apply elem_of_app in Hin as [Hin|Hin]; [by apply HI|].
    apply list_elem_of_singleton in Hin; subst; congruence.
  - simpl. hoare. apply Hoare_ret. simpl. intros s' Hin Hs'.
    apply elem_of_app in Hin as [Hin|Hin].
    + specialize (HI s' Hin Hs'). simpl in HI. set_solver.
    + apply list_elem_of_singleton in Hin; subst. set_solver.
Qed.

Lemma createdAndUpdatedState_paths env a b watched :
  Hoare (fun _ => False) (createdAndUpdatedState env a b watched)
    (fun acc => forall s, s ∈ it_steps (NewDifferenceIterator a b) -> skipped s = false ->
                Bytes2Hex (st_Path s) ∈ acc.2).
Proof.
  unfold createdAndUpdatedState.
  set (I := fun (done : list IterStep) (acc : AccountMap * gset string) =>
              forall s', s' ∈ done -> skipped s' = false -> Bytes2Hex (st_Path s') ∈ acc.2).
  eapply Hoare_bind.
  - apply (Hoare_foldM _ _ I (fun _ => True) ltac:(intros ? ? ? HI _; by apply createdAndUpdatedState_step_paths)
             _ [] (∅, ∅)).
    + apply Forall_true. done.
    + intros s' Hin. by apply not_elem_of_nil in Hin.
  - intros acc HI. apply Hoare_iterError. exact HI.
Qed.

(** Pass 2 sends only [Removed] records, at paths absent from [diffPathsAtB]. *)
Lemma deletedOrUpdatedState_only_removed env a b pathsB output :
  Hoare (fun n => NodeType_ n = Removed /\ Bytes2Hex (Path n) ∉ pathsB)
    (deletedOrUpdatedState env a b pathsB output) (fun _ => True).
Proof.
  unfold deletedOrUpdatedState. eapply Hoare_bind.
  - refine (Hoare_foldM _ _ (fun _ _ => True) (fun _ => True) _ _ [] ∅ _ I);
      [|apply Forall_true; done].
    intros done acc s _ _. unfold deletedOrUpdatedState_step.
    destruct (skipped s); [by apply Hoare_ret|].
    eapply (Hoare_bind _ _ _ (fun _ => True)).
    + case_bool_decide; [by apply Hoare_ret|]. apply Hoare_emit. simpl. done.
    + intros _ _. hoare; by apply Hoare_ret.
  - intros. by apply Hoare_iterError.
Qed.

(** C10: Pass 1 without intermediate nodes ([createdAndUpdatedState], used
    whenever the watch list is non-empty) puts the path of every visited
    structural node (not a value node, hash not all zeros) into
    [diffPathsAtB], leaves that fail the watch filter included; so Pass 2
    sends no [Removed] record at the path of any node that changed at B. *)
Theorem createdAndUpdatedState_paths_anchor (env : Env) (a b : NodeIterator)
    (watched : list bytes) (tr1 tr1' : list StateNode) (accB : AccountMap)
    (pathsB : gset string) :
  createdAndUpdatedState env a b watched tr1 = (tr1', inl (accB, pathsB)) ->
  forall s, s ∈ it_steps (NewDifferenceIterator a b) -> skipped s = false ->
    Bytes2Hex (st_Path s) ∈ pathsB /\
    forall (output : Sink StateNode) (tr2 tr2' : list StateNode) r2,
      deletedOrUpdatedState env a b pathsB output tr2 = (tr2', r2) ->
      forall n, n ∈ drop (length tr2) tr2' -> NodeType_ n = Removed -> Path n <> st_Path s.
Proof.
  intros H1 s Hs Hsk.
  destruct (createdAndUpdatedState_paths env a b watched _ _ _ H1) as [_ HP].
  specialize (HP _ eq_refl s Hs Hsk). simpl in HP.
  split; [exact HP|].
  intros output tr2 tr2' r2 H2 n Hn _ Hp.
  destruct (deletedOrUpdatedState_only_removed env a b pathsB output _ _ _ H2)
    as [[ext [-> HF]] _].
  rewrite drop_app_length in Hn.
  rewrite Forall_forall in HF. destruct (HF n Hn) as [_ Hnot].
  rewrite Hp in Hnot. contradiction.
Qed.

(** Witness for C1: Pass 2 on the demo store, where account C (path [[2]])
    was deleted. *)
Lemma deletedOrUpdatedState_removed_records_witness :
  exists tr' accA,
    deletedOrUpdatedState Demo.env Demo.old_trie Demo.new_trie (list_to_set [""; "00"; "01"])
      stateNodeAppender [] = (tr', inl accA) /\
    tr' = [] ++ map (fun s => removedNode (st_Path s))
                 (filter (fun s => skipped s = false /\
                                   Bytes2Hex (st_Path s) ∉ (list_to_set [""; "00"; "01"] : gset string))
                         (it_steps (NewDifferenceIterator Demo.new_trie Demo.old_trie))).
Proof.
  eexists _, _. split.
  - vm_compute. reflexivity.
  - eapply (deletedOrUpdatedState_removed_records Demo.env Demo.old_trie Demo.new_trie
             (list_to_set [""; "00"; "01"]) stateNodeAppender []).
    vm_compute. reflexivity.
Defined.

(** Witness for C10: the watch list [[[0x0A]]] filters out the new contract B
    at path [[1]], whose path is still recorded. *)
Lemma createdAndUpdatedState_paths_anchor_witness :
  exists tr1' accB pathsB,
    createdAndUpdatedState Demo.env Demo.old_trie Demo.new_trie [[10]] [] = (tr1', inl (accB, pathsB)) /\
    Demo.step 5 [1] ∈ it_steps (NewDifferenceIterator Demo.old_trie Demo.new_trie) /\
    accB !! Bytes2Hex [27; 238] = None /\
    (Bytes2Hex [1] ∈ pathsB /\
     forall (output : Sink StateNode) (tr2 tr2' : list StateNode) r2,
       deletedOrUpdatedState Demo.env Demo.old_trie Demo.new_trie pathsB output tr2 = (tr2', r2) ->
       forall n, n ∈ drop (length tr2) tr2' -> NodeType_ n = Removed -> Path n <> [1]).
Proof.
  eexists _, _, _. split; [vm_compute; reflexivity|].
  split; [vm_compute; repeat first [apply list_elem_of_here | apply list_elem_of_further]|].
  split; [vm_compute; reflexivity|].
  eapply (createdAndUpdatedState_paths_anchor Demo.env Demo.old_trie Demo.new_trie [[10]] [] _ _ _
            _ (Demo.step 5 [1])).
  Unshelve.
  all: vm_compute; first [reflexivity | repeat first [apply list_elem_of_here | apply list_elem_of_further]].
Defined.

Lemma Hoare_mono {R A} (Q Q' : R -> Prop) (m : M R A) P :
  Hoare Q m P -> (forall n, Q n -> Q' n) -> Hoare Q' m P.
Proof.
  intros Hm HQ tr tr' r H. destruct (Hm _ _ _ H) as [[ext [-> F]] HP].
  split; [exists ext; split; [done|eapply Forall_impl; eauto]|done].
Qed.

Lemma isWatchedAddress_spec env watched k :
  watched <> [] -> isWatchedAddress env watched k = true ->
  exists addr, addr ∈ watched /\ k = Keccak256 env addr.
Proof.
  intros Hne H. unfold isWatchedAddress in H. destruct watched as [|a0 w]; [done|].
  apply existsb_exists in H as [addr [Hin Heq]].
  unfold bytes_Equal in Heq. apply bool_decide_eq_true in Heq.
  exists addr. split; [by apply list_elem_of_In|done].
Qed.

Lemma WatchedMap_record env watched (w : accountWrapper) sn :
  watched <> [] ->
  aw_NodeType w = Leaf /\ isWatchedAddress env watched (aw_LeafKey w) = true ->
  WatchedRecord env watched {| NodeType_ := aw_NodeType w; Path := aw_Path w;
     NodeValue := aw_NodeValue w; LeafKey := aw_LeafKey w; StorageNodes := sn |}.
Proof.
  intros Hne [Hty Hw]. unfold WatchedRecord; simpl. rewrite Hty.
  split; [done|]. split; [done|]. intros _.
  destruct (isWatchedAddress_spec env watched _ Hne Hw) as [addr [? ?]]. eauto.
Qed.

Lemma createdAndUpdatedState_watched env a b watched Q :
  Hoare Q (createdAndUpdatedState env a b watched) (fun acc => WatchedMap env watched acc.1).
Proof.
  unfold createdAndUpdatedState. eapply Hoare_bind.
  - refine (Hoare_foldM _ _ (fun _ acc => WatchedMap env watched acc.1) (fun _ => True)
              _ _ [] (∅, ∅) _ _); [|apply Forall_true; done|apply map_Forall_empty].
    intros done [accB paths] s HI _. unfold createdAndUpdatedState_step.
    destruct (skipped s); [by apply Hoare_ret|]. simpl in HI.
    eapply Hoare_bind; [apply Hoare_readNode|]. intros [[node el] ty] _.
    apply (Hoare_bind _ _ _ (fun m => WatchedMap env watched m)).
    + destruct ty; try (by apply Hoare_ret).
      eapply Hoare_bind; [apply Hoare_decodeAccount|]. intros acct _.
      eapply Hoare_bind; [apply Hoare_lift|]. intros k _.
      destruct (isWatchedAddress env watched k) eqn:Hw; apply Hoare_ret; [|done].
      apply map_Forall_insert_2; [|done]. simpl. done.
    + intros m Hm. by apply Hoare_ret.
  - intros acc HI. by apply Hoare_iterError.
Qed.

Lemma buildAccountUpdates_watched env watched keys wsk isn output :
  watched <> [] ->
  forall creations deletions, WatchedMap env watched creations ->
  Hoare (WatchedRecord env watched)
    (buildAccountUpdates env creations deletions keys wsk isn output)
    (fun r => WatchedMap env watched r.1).
Proof.
  intros Hne. induction keys as [|key keys IH]; intros creations deletions HW; simpl.
  - by apply Hoare_ret.
  - apply (Hoare_bind _ _ _ (fun _ => True)).
    + repeat case_match; first [by apply Hoare_ret | apply Hoare_throw].
    + intros sd _. eapply Hoare_bind.
      * apply Hoare_emit. unfold lookup0.
        destruct (creations !! key) as [w|] eqn:E; simpl.
        -- apply WatchedMap_record; [done|]. exact (HW key w E).
        -- unfold WatchedRecord; simpl. split; [done|]. split; [done|]. discriminate.
      * intros _ _. apply IH. by apply map_Forall_delete.
Qed.

Lemma range_map_entries (rt : GoRuntime) (m : AccountMap) kv :
  kv ∈ range_map rt m -> m !! kv.1 = Some kv.2.
Proof.
  intros Hin. rewrite (range_map_perm rt m) in Hin.
  destruct kv as [k v]. by apply elem_of_map_to_list in Hin.
Qed.

Lemma buildAccountCreations_watched env rt watched m wsk isn output :
  watched <> [] -> WatchedMap env watched m ->
  Hoare (WatchedRecord env watched) (buildAccountCreations env rt m wsk isn output)
    (fun _ => True).
Proof.
  intros Hne HW. unfold buildAccountCreations.
  eapply Hoare_weaken.
  - refine (Hoare_foldM _ _ (fun _ _ => True)
              (fun kv => aw_NodeType kv.2 = Leaf /\
                         isWatchedAddress env watched (aw_LeafKey kv.2) = true)
              _ _ [] [] _ I).
    + intros _ codes [k val] _ Hval. unfold buildAccountCreations_step. simpl in *.
      destruct (aw_Account val) as [acct|]; [|apply Hoare_throw].
      apply (Hoare_bind _ _ _ (fun p => WatchedRecord env watched p.1)).
      * destruct (negb _).
        -- destruct (collect _) as [sd [u|e]]; [|apply Hoare_throw].
           eapply Hoare_bind.
           ++ instantiate (1 := fun _ => True).
              case_match; [by apply Hoare_ret | apply Hoare_throw].
           ++ intros code _. apply Hoare_ret. by apply WatchedMap_record.
        -- apply Hoare_ret. by apply WatchedMap_record.
      * intros [diff codes'] Hd. eapply Hoare_bind; [by apply Hoare_emit|].
        intros _ _. by apply Hoare_ret.
    + apply Forall_forall. intros kv Hin. apply range_map_entries in Hin.
      exact (HW _ _ Hin).
  - done.
Qed.

Lemma Hoare_openTrie {R} (Q : R -> Prop) env root msg :
  Hoare Q (@openTrie env R root msg) (fun _ => True).
Proof. unfold openTrie. case_match; [by apply Hoare_ret | apply Hoare_throw]. Qed.

Lemma reconcile_watched env rt params output diffB diffA :
  WatchedAddresses params <> [] -> WatchedMap env (WatchedAddresses params) diffB ->
  Hoare (WatchedRecord env (WatchedAddresses params))
    (reconcile env rt params output diffB diffA) (fun _ => True).
Proof.
  intros Hne HW. unfold reconcile.
  eapply Hoare_bind.
  - apply Hoare_wrap. by apply buildAccountUpdates_watched.
  - intros [cB cA] HcB. simpl in HcB. apply Hoare_wrap.
    by apply buildAccountCreations_watched.
Qed.

(** C2: with a non-empty watch list, whatever [IntermediateStateNodes] says,
    [WriteStateDiffObject] sends no [Extension] or [Branch] record, and every
    [Leaf] record it sends has the leaf key [Keccak256(addr)] of some watched
    address [addr].  This holds for every record sent, also on a run that
    ends in an error. *)
Theorem WriteStateDiffObject_watched_addresses (env : Env) (rt : GoRuntime)
    (args : StateRoots) (params : Params) (output : Sink StateNode)
    (tr tr' : list StateNode) (r : list CodeAndCodeHash + error) :
  WatchedAddresses params <> [] ->
  WriteStateDiffObject env rt args params output tr = (tr', r) ->
  exists ext, tr' = tr ++ ext /\
    forall n, n ∈ ext ->
      NodeType_ n <> Extension /\ NodeType_ n <> Branch /\
      (NodeType_ n = Leaf ->
       exists addr, addr ∈ WatchedAddresses params /\ LeafKey n = Keccak256 env addr).
Proof.
  intros Hne H.
  assert (Hb : negb (IntermediateStateNodes params)
               || bool_decide (0 < length (WatchedAddresses params))%nat = true).
  { destruct (WatchedAddresses params) as [|a w]; [done|].
    rewrite bool_decide_eq_true_2 by (simpl; lia). apply orb_true_r. }
  unfold WriteStateDiffObject in H. rewrite Hb in H.
  enough (HH : Hoare (WatchedRecord env (WatchedAddresses params))
                 (buildStateDiffWithoutIntermediateStateNodes env rt args params output)
                 (fun _ => True)).
  { destruct (HH _ _ _ H) as [[ext [-> F]] _]. exists ext. split; [done|].
    intros n Hn. rewrite Forall_forall in F. exact (F n Hn). }
  unfold buildStateDiffWithoutIntermediateStateNodes.
  eapply Hoare_bind; [apply Hoare_openTrie|intros oldTrie _].
  eapply Hoare_bind; [apply Hoare_openTrie|intros newTrie _].
  eapply Hoare_bind; [apply Hoare_wrap, createdAndUpdatedState_watched|].
  intros [diffB pathsB] HW. simpl in HW.
  eapply Hoare_bind.
  - apply Hoare_wrap. eapply Hoare_mono; [apply deletedOrUpdatedState_only_removed|].
    intros n [Hty _]. unfold WatchedRecord. rewrite Hty. split; [done|]. split; [done|].
    discriminate.
  - intros diffA _. by apply reconcile_watched.
Qed.

(** Witness for C2: the demo diff with intermediate nodes requested and the
    watch list [[[0x0A]]]. *)
Lemma WriteStateDiffObject_watched_addresses_witness :
  exists tr' r,
    WriteStateDiffObject Demo.env Demo.rt Demo.roots (Demo.params true [[10]])
      stateNodeAppender [] = (tr', r) /\
    exists ext, tr' = [] ++ ext /\
      forall n, n ∈ ext ->
        NodeType_ n <> Extension /\ NodeType_ n <> Branch /\
        (NodeType_ n = Leaf ->
         exists addr, addr ∈ WatchedAddresses (Demo.params true [[10]]) /\
                      LeafKey n = Keccak256 Demo.env addr).
Proof.
  eexists _, _. split; [vm_compute; reflexivity|].
  eapply (WriteStateDiffObject_watched_addresses Demo.env Demo.rt Demo.roots
            (Demo.params true [[10]]) stateNodeAppender []).
  - discriminate.
  - vm_compute. reflexivity.
Defined.

(** The difference iterator of a trie against itself yields nothing. *)
Lemma NewDifferenceIterator_self (v : NodeIterator) :
  it_steps (NewDifferenceIterator v v) = [].
Proof.
  simpl. assert (H : forall l, (forall s, s ∈ l -> s ∈ it_steps v) ->
                        filter (fun s => s ∉ it_steps v) l = []).
  { induction l as [|x l IH]; intros Hin; [done|].
    rewrite filter_cons_False.
    - apply IH. intros s Hs. apply Hin. by apply list_elem_of_further.
    - intros Hn. apply Hn, Hin, list_elem_of_here. }
  by apply H.
Qed.

Lemma Hoare_nothing_sent {R A} (m : M R A) P tr tr' r :
  Hoare (fun _ => False) m P -> m tr = (tr', r) -> tr' = tr /\ (forall a, r = inl a -> P a).
Proof.
  intros Hm H. destruct (Hm _ _ _ H) as [[ext [-> F]] HP]. split; [|done].
  destruct ext as [|n ext]; [by rewrite app_nil_r|]. by inversion F.
Qed.

Lemma reconcile_empty env rt params output :
  Hoare (fun _ => False) (reconcile env rt params output ∅ ∅) (fun codes => codes = []).
Proof.
  unfold reconcile.
  assert (Hk : sortKeys (∅ : AccountMap) = []) by (unfold sortKeys; by rewrite map_to_list_empty).
  rewrite !Hk. simpl. unfold ret, bind, wrap. simpl.
  unfold buildAccountCreations.
  assert (Hr : range_map rt ∅ = []).
  { apply Permutation_nil. symmetry. rewrite (range_map_perm rt ∅). by rewrite map_to_list_empty. }
  rewrite Hr. simpl. by apply Hoare_ret.
Qed.

Lemma Hoare_bind_ret {R A B} (Q : R -> Prop) (a : A) (k : A -> M R B) P :
  Hoare Q (k a) P -> Hoare Q (bind (ret a) k) P.
Proof. done. Qed.

Lemma createdAndUpdatedState_self env v watched :
  Hoare (fun _ => False) (createdAndUpdatedState env v v watched)
        (fun acc => acc = (∅, ∅)).
Proof.
  unfold createdAndUpdatedState. cbv zeta. rewrite NewDifferenceIterator_self.
  simpl. apply Hoare_bind_ret. by apply Hoare_iterError.
Qed.

Lemma createdAndUpdatedStateWithIntermediateNodes_self env v output :
  Hoare (fun _ => False) (createdAndUpdatedStateWithIntermediateNodes env v v output)
        (fun acc => acc = (∅, ∅)).
Proof.
  unfold createdAndUpdatedStateWithIntermediateNodes. cbv zeta.
  rewrite NewDifferenceIterator_self. simpl. apply Hoare_bind_ret. by apply Hoare_iterError.
Qed.

Lemma deletedOrUpdatedState_self env v pathsB output :
  Hoare (fun _ => False) (deletedOrUpdatedState env v v pathsB output)
        (fun acc => acc = ∅).
Proof.
  unfold deletedOrUpdatedState. cbv zeta.
  rewrite NewDifferenceIterator_self. simpl. apply Hoare_bind_ret. by apply Hoare_iterError.
Qed.

Lemma WriteStateDiffObject_self env rt R params output :
  Hoare (fun _ => False)
    (WriteStateDiffObject env rt {| OldStateRoot := R; NewStateRoot := R |} params output)
    (fun codes => codes = []).
Proof.
  unfold WriteStateDiffObject, buildStateDiffWithoutIntermediateStateNodes,
    buildStateDiffWithIntermediateStateNodes, openTrie. simpl.
  destruct (OpenTrie env R) as [t|e]; [|case_match; apply Hoare_throw].
  case_match; do 2 apply Hoare_bind_ret.
  all: eapply Hoare_bind;
    [apply Hoare_wrap; first [apply createdAndUpdatedState_self
                             | apply createdAndUpdatedStateWithIntermediateNodes_self] |].
  all: intros ? ->; eapply Hoare_bind;
    [apply Hoare_wrap, deletedOrUpdatedState_self | intros ? ->; apply reconcile_empty].
Qed.

(** C5: diffing a state root against itself sends no record to the sink and
    returns an empty list of code and code hash pairs (an error, such as a
    missing root, also comes with no record and a nil list). *)
Theorem WriteStateDiffObject_same_root env rt R params output tr tr' r :
  WriteStateDiffObject env rt {| OldStateRoot := R; NewStateRoot := R |} params output tr
    = (tr', r) ->
  tr' = tr /\ forall codes, r = inl codes -> codes = [].
Proof. apply Hoare_nothing_sent, WriteStateDiffObject_self. Qed.

Lemma WriteStateDiffObject_same_root_witness :
  exists tr' r,
    WriteStateDiffObject Demo.env Demo.rt {| OldStateRoot := [2]; NewStateRoot := [2] |}
      (Demo.params true []) stateNodeAppender [] = (tr', r) /\
    (tr' = [] /\ forall codes, r = inl codes -> codes = []).
Proof.
  eexists _, _. split; [vm_compute; reflexivity|].
  apply (WriteStateDiffObject_same_root Demo.env Demo.rt [2] (Demo.params true [])
           stateNodeAppender []).
  vm_compute. reflexivity.
Defined.

(** C8: whenever [BuildStateDiffObject] returns an error, the state object
    returned with it is the zero [StateObject{}]: no nodes, no code and code
    hash pairs, no block number and no block hash. *)
Theorem BuildStateDiffObject_error_empty env rt args params so err :
  BuildStateDiffObject env rt args params = (so, Some err) ->
  so = empty_StateObject.
Proof.
  unfold BuildStateDiffObject.
  destruct (collect _) as [nodes [codes|e]]; intros H; by simplify_eq.
Qed.

Lemma BuildStateDiffObject_error_empty_witness :
  exists so err,
    BuildStateDiffObject Demo.env Demo.rt
      {| a_OldStateRoot := [99]; a_NewStateRoot := [2]; a_BlockNumber := 7;
         a_BlockHash := [5] |} (Demo.params false []) = (so, Some err) /\
    so = empty_StateObject.
Proof.
  eexists _, _. split; [vm_compute; reflexivity|].
  eapply (BuildStateDiffObject_error_empty Demo.env Demo.rt
    {| a_OldStateRoot := [99]; a_NewStateRoot := [2]; a_BlockNumber := 7;
       a_BlockHash := [5] |} (Demo.params false [])).
  vm_compute. reflexivity.
Defined.

Lemma Appends_readNode_bind {R B} env s (k : bytes * list item * NodeType -> M R B) ext :
  (forall node el ty, NodeOf env (st_Hash s) = inl node -> DecodeElements env node = inl el ->
     CheckKeyType el = inl ty -> Appends (k (node, el, ty)) ext) ->
  Appends (bind (readNode env s) k) ext.
Proof.
  intros Hk tr tr' b H. unfold readNode, bind, lift, ret in H.
  destruct (NodeOf env (st_Hash s)) as [node|] eqn:E1; simpl in H; [|discriminate].
  destruct (DecodeElements env node) as [el|] eqn:E2; simpl in H; [|discriminate].
  destruct (CheckKeyType el) as [ty|] eqn:E3; simpl in H; [|discriminate].
  by eapply Hk.
Qed.

Lemma Appends_lift_bind {R A B} (x : A + error) (k : A -> M R B) ext :
  (forall a, x = inl a -> Appends (k a) ext) -> Appends (bind (lift x) k) ext.
Proof.
  intros Hk tr tr' b H. unfold bind, lift in H. destruct x as [a|]; [|simpl in H; discriminate].
  by eapply Hk.
Qed.

Lemma deletedOrUpdatedStorage_step_appends env pathsB keys inter output u s :
  Appends (deletedOrUpdatedStorage_step env pathsB keys inter output u s)
    (if decide (skipped s = false /\ (Bytes2Hex (st_Path s) ∉ pathsB) /\
                (storageRemovalDue env keys inter s = true))
     then [removedStorageNode (st_Path s)] else []).
Proof.
  unfold deletedOrUpdatedStorage_step.
  destruct (skipped s) eqn:Hs.
  { rewrite decide_False by (intros [? _]; discriminate). apply Appends_ret. }
  case_bool_decide as Hin.
  { rewrite decide_False by tauto. apply Appends_ret. }
  apply Appends_readNode_bind. intros node el ty E1 E2 E3.
  unfold storageRemovalDue. rewrite E1, E2, E3.
  destruct ty; simpl; try (rewrite decide_False by (intros (_ & _ & ?); discriminate);
                           apply Appends_throw).
  - apply Appends_lift_bind. intros k ->.
    destruct (isWatchedStorageKey keys k).
    + rewrite decide_True by tauto. apply Appends_emit.
    + rewrite decide_False by (intros (_ & _ & ?); discriminate). apply Appends_ret.
  - destruct inter.
    + rewrite decide_True by tauto. apply Appends_emit.
    + rewrite decide_False by (intros (_ & _ & ?); discriminate). apply Appends_ret.
  - destruct inter.
    + rewrite decide_True by tauto. apply Appends_emit.
    + rewrite decide_False by (intros (_ & _ & ?); discriminate). apply Appends_ret.
Qed.

(** C6: in the A-side pass of the incremental storage diff
    ([deletedOrUpdatedStorage], over [NewDifferenceIterator(new, old)]), a
    node that is not a value node, whose hash is not all zeros and whose path
    is not in [pathsB'] gives one [Removed] storage record with its path and
    an empty value exactly when [storageRemovalDue] holds: for a leaf when
    its key passes [isWatchedStorageKey] (always with an empty watch list),
    for an extension or a branch when [intermediateNodes] is set.  Nodes whose
    path is in [pathsB'] give nothing.  On a successful run these are all the
    records sent, in iteration order. *)
Theorem deletedOrUpdatedStorage_removed_records (env : Env) (a b : NodeIterator)
    (pathsB : gset string) (watchedKeys : list Hash) (intermediateNodes : bool)
    (output : Sink StorageNode) (tr tr' : list StorageNode) (u : unit) :
  deletedOrUpdatedStorage env a b pathsB watchedKeys intermediateNodes output tr
    = (tr', inl u) ->
  tr' = tr ++ map (fun s => removedStorageNode (st_Path s))
                (filter (fun s => skipped s = false /\ (Bytes2Hex (st_Path s) ∉ pathsB) /\
                           (storageRemovalDue env watchedKeys intermediateNodes s = true))
                   (it_steps (NewDifferenceIterator b a))) /\
  (forall leafKey, isWatchedStorageKey [] leafKey = true).
Proof.
  intros H. split; [|done].
  rewrite <- flat_map_singleton_filter, <- (app_nil_r (flat_map _ _)).
  revert tr tr' u H. unfold deletedOrUpdatedStorage. apply Appends_bind.
  - apply Appends_foldM. intros. apply deletedOrUpdatedStorage_step_appends.
  - intros. apply Appends_iterError.
Qed.

Lemma deletedOrUpdatedStorage_removed_records_witness :
  exists u,
    deletedOrUpdatedStorage Demo.env Demo.storage_trie
      {| it_steps := []; it_Error := None |} ∅ [] true storageNodeAppender []
      = ([removedStorageNode []], inl u) /\
    [removedStorageNode []] =
      [] ++ map (fun s => removedStorageNode (st_Path s))
              (filter (fun s => skipped s = false /\ (Bytes2Hex (st_Path s) ∉ (∅ : gset string)) /\
                         (storageRemovalDue Demo.env [] true s = true))
                 (it_steps (NewDifferenceIterator {| it_steps := []; it_Error := None |}
                              Demo.storage_trie))).
Proof.
  exists tt. split; [vm_compute; reflexivity|].
  destruct (deletedOrUpdatedStorage_removed_records Demo.env Demo.storage_trie
              {| it_steps := []; it_Error := None |} ∅ [] true storageNodeAppender []
              [removedStorageNode []] tt) as [H _].
  - vm_compute. reflexivity.
  - exact H.
Defined.

(* ------------------------------------------------------------------ *)
(** ** Pass 3: key order and the shape of the records *)

Lemma str_compare_eq s t : str_compare s t = Eq -> s = t.
Proof.
  revert t; induction s as [|a s IH]; intros [|b t]; simpl; try discriminate; [done|].
  destruct (Nat.compare (nat_of_ascii a) (nat_of_ascii b)) eqn:E; try discriminate.
  intros H. apply Nat.compare_eq_iff in E.
  rewrite <- (ascii_nat_embedding a), <- (ascii_nat_embedding b), E.
  by rewrite (IH t H).
Qed.

Lemma str_compare_refl s : str_compare s s = Eq.
Proof. induction s as [|a s IH]; simpl; [done|]. by rewrite Nat.compare_refl. Qed.

Lemma str_compare_antisym s t : str_compare t s = CompOpp (str_compare s t).
Proof.
  revert t; induction s as [|a s IH]; intros [|b t]; simpl; try done.
  rewrite (Nat.compare_antisym (nat_of_ascii a) (nat_of_ascii b)).
  destruct (Nat.compare (nat_of_ascii a) (nat_of_ascii b)); simpl; [apply IH|done|done].
Qed.

Lemma str_lt_trans s t u : str_lt s t -> str_lt t u -> str_lt s u.
Proof.
  unfold str_lt. revert t u; induction s as [|a s IH]; intros [|b t] [|c u]; simpl;
    try discriminate; try done.
  destruct (Nat.compare (nat_of_ascii a) (nat_of_ascii b)) eqn:E1; try discriminate;
  destruct (Nat.compare (nat_of_ascii b) (nat_of_ascii c)) eqn:E2; try discriminate;
  intros H1 H2.
  - apply Nat.compare_eq_iff in E1, E2. rewrite E1, E2, Nat.compare_refl. eauto.
  - apply Nat.compare_eq_iff in E1. by rewrite E1, E2.
  - apply Nat.compare_eq_iff in E2. by rewrite <- E2, E1.
  - apply Nat.compare_lt_iff in E1, E2.
    assert (E : (nat_of_ascii a < nat_of_ascii c)%nat) by lia.
    apply Nat.compare_lt_iff in E. by rewrite E.
Qed.

Lemma insert_sorted_perm k l : insert_sorted k l ≡ₚ k :: l.
Proof.
  induction l as [|k' l IH]; simpl; [done|].
  destruct (str_compare k k'); try done.
  rewrite IH. constructor.
Qed.

Lemma insert_sorted_sorted k l :
  StronglySorted str_lt l -> k ∉ l -> StronglySorted str_lt (insert_sorted k l).
Proof.
  induction l as [|k' l IH]; intros Hs Hk; simpl.
  { repeat constructor. }
  apply StronglySorted_inv in Hs as [Hs Hall].
  destruct (str_compare k k') eqn:E.
  - apply str_compare_eq in E. subst. destruct Hk. apply list_elem_of_here.
  - constructor; [by constructor|]. constructor; [done|].
    eapply Forall_impl; [exact Hall|]. intros y Hy. by eapply str_lt_trans.
  - constructor.
    + apply IH; [done|]. intros Hin. apply Hk. by apply list_elem_of_further.
    + apply Forall_forall. intros y Hy.
      rewrite insert_sorted_perm in Hy. apply elem_of_cons in Hy as [->|Hy].
      * unfold str_lt. by rewrite str_compare_antisym, E.
      * by apply Forall_forall with (x := y) in Hall.
Qed.

Lemma sortKeys_perm (m : AccountMap) : sortKeys m ≡ₚ map fst (map_to_list m).
Proof.
  unfold sortKeys. induction (map fst (map_to_list m)) as [|k l IH]; simpl; [done|].
  by rewrite insert_sorted_perm, IH.
Qed.

Lemma sortKeys_elem (m : AccountMap) k : k ∈ sortKeys m <-> is_Some (m !! k).
Proof.
  rewrite (sortKeys_perm m), list_elem_of_fmap. split.
  - intros [[k' w] [-> Hin]]. apply elem_of_map_to_list in Hin. by exists w.
  - intros [w Hw]. exists (k, w). split; [done|]. by apply elem_of_map_to_list.
Qed.

Lemma sortKeys_NoDup (m : AccountMap) : NoDup (sortKeys m).
Proof. rewrite (sortKeys_perm m). apply NoDup_fst_map_to_list. Qed.

Lemma sortKeys_sorted (m : AccountMap) : StronglySorted str_lt (sortKeys m).
Proof.
  assert (Hnd : NoDup (map fst (map_to_list m))) by exact (NoDup_fst_map_to_list m).
  unfold sortKeys. revert Hnd.
  induction (map fst (map_to_list m)) as [|k l IH]; intros Hnd; simpl; [constructor|].
  apply NoDup_cons in Hnd as [Hk Hnd].
  apply insert_sorted_sorted; [by apply IH|].
  assert (Hp : foldr insert_sorted [] l ≡ₚ l).
  { clear. induction l as [|k' l IH]; simpl; [done|]. by rewrite insert_sorted_perm, IH. }
  by rewrite Hp.
Qed.

Lemma StronglySorted_filter {A} (Rl : A -> A -> Prop) (P : A -> Prop)
    `{!forall x, Decision (P x)} (l : list A) :
  StronglySorted Rl l -> StronglySorted Rl (filter P l).
Proof.
  induction l as [|x l IH]; intros Hs; simpl; [constructor|].
  apply StronglySorted_inv in Hs as [Hs Hall]. rewrite filter_cons.
  case_decide; [|by apply IH].
  constructor; [by apply IH|]. apply Forall_forall. intros y Hy.
  apply list_elem_of_filter in Hy as [_ Hy].
  by apply Forall_forall with (x := y) in Hall.
Qed.

Lemma bind_inl {R A B} (m : M R A) (k : A -> M R B) tr tr' b :
  bind m k tr = (tr', inl b) -> exists tr1 a, m tr = (tr1, inl a) /\ k a tr1 = (tr', inl b).
Proof.
  unfold bind. destruct (m tr) as [tr1 [a|e]]; [eauto|discriminate].
Qed.

Lemma emit_inl {R} (sink : Sink R) n tr tr' u :
  emit sink n tr = (tr', inl u) -> tr' = tr ++ [n] /\ sink tr n = None.
Proof. unfold emit. case_match; intros; by simplify_eq. Qed.

(** Updating the keys [ks] sends one record per key, in the order of [ks],
    each carrying the leaf key of the entry at [B], and takes the keys out of
    [B]. *)
Lemma buildAccountUpdates_shape env ks B A keys inter output tr tr' B' A' :
  keyedByLeafKey B -> NoDup ks -> (forall k, k ∈ ks -> is_Some (B !! k)) ->
  buildAccountUpdates env B A ks keys inter output tr = (tr', inl (B', A')) ->
  exists upd, tr' = tr ++ upd /\ map (fun n => Bytes2Hex (LeafKey n)) upd = ks /\
    (forall j, B' !! j = if decide (j ∈ ks) then None else B !! j).
Proof.
  revert B A tr. induction ks as [|k ks IH]; intros B A tr HB Hnd Hks H; simpl in H.
  { unfold ret in H. simplify_eq. exists []. rewrite app_nil_r. split; [done|].
    split; [done|]. intros j. rewrite decide_False; [done|]. apply not_elem_of_nil. }
  apply bind_inl in H as (tr1 & sd & H1 & H2).
  assert (tr1 = tr) as ->.
  { unfold ret, throw in H1. repeat case_match; by simplify_eq. }
  apply bind_inl in H2 as (tr2 & [] & H3 & H4). apply emit_inl in H3 as [-> _].
  apply NoDup_cons in Hnd as [Hk Hnd].
  assert (HB1 : keyedByLeafKey (delete k B)) by by apply map_Forall_delete.
  assert (Hks1 : forall j, j ∈ ks -> is_Some (delete k B !! j)).
  { intros j Hj. rewrite lookup_delete_ne; [by apply Hks, list_elem_of_further|].
    intros ->. done. }
  destruct (IH _ _ _ HB1 Hnd Hks1 H4) as (upd & -> & Hmap & HB').
  eexists. rewrite <- app_assoc. split; [done|]. simpl. split.
    + f_equal; [|done]. destruct (Hks k (list_elem_of_here _ _)) as [w Hw].
      unfold lookup0. rewrite Hw. simpl. by apply HB in Hw.
    + intros j. rewrite HB'. destruct (decide (j = k)) as [->|Hne].
      * rewrite lookup_delete_eq.
        destruct (decide (k ∈ ks)); destruct (decide (k ∈ k :: ks)) as [|Hc]; try done.
        destruct Hc. apply list_elem_of_here.
      * rewrite lookup_delete_ne by congruence.
        destruct (decide (j ∈ ks)) as [Hj|Hj];
          destruct (decide (j ∈ k :: ks)) as [Hj'|Hj']; try done.
        -- destruct Hj'. by apply list_elem_of_further.
        -- apply elem_of_cons in Hj' as [?|?]; [congruence|done].
Qed.

Lemma buildAccountCreations_step_shape env keys inter output cs kv tr tr' cs' :
  buildAccountCreations_step env keys inter output cs kv tr = (tr', inl cs') ->
  exists n ncs, tr' = tr ++ [n] /\ cs' = cs ++ ncs /\ creationOutcome env keys inter kv.2 n ncs.
Proof.
  unfold buildAccountCreations_step. intros H.
  destruct (aw_Account kv.2) as [acct|] eqn:Ea; [|unfold throw in H; discriminate].
  apply bind_inl in H as (tr1 & [diff cs1] & H1 & H2). simpl in H2.
  apply bind_inl in H2 as (tr2 & [] & H3 & H4). apply emit_inl in H3 as [-> _].
  unfold ret in H4. simplify_eq.
  destruct (bytes_Equal (CodeHash acct) (nullCodeHash env)) eqn:Eb; simpl in H1.
  - unfold ret in H1. simplify_eq. eexists _, []. rewrite app_nil_r.
    do 2 (split; [done|]). simpl. do 4 (split; [done|]). exists acct. rewrite Eb. by split.
  - destruct (collect _) as [sd [u|e]] eqn:Ec; [|unfold throw in H1; discriminate].
    apply bind_inl in H1 as (tr3 & code & H5 & H6).
    destruct (ContractCode env nullHashBytes (BytesToHash (CodeHash acct))) as [c|e] eqn:Ecc;
      unfold ret, throw in H5; simplify_eq.
    unfold ret in H6. simplify_eq. eexists _, _. split; [done|]. split; [done|]. simpl.
    do 4 (split; [done|]). exists acct. rewrite Eb. split; [done|]. split; [by exists u|].
    by exists code.
Qed.

Lemma buildAccountCreations_fold_shape env keys inter output (l : list (string * accountWrapper))
    cs tr tr' cs' :
  foldM (buildAccountCreations_step env keys inter output) l cs tr = (tr', inl cs') ->
  exists outs, Forall2 (fun kv o => creationOutcome env keys inter kv.2 o.1 o.2) l outs /\
    tr' = tr ++ map fst outs /\ cs' = cs ++ concat (map snd outs).
Proof.
  revert cs tr. induction l as [|kv l IH]; intros cs tr H; simpl in H.
  { unfold ret in H. simplify_eq. exists []. simpl. by rewrite !app_nil_r. }
  apply bind_inl in H as (tr1 & cs1 & H1 & H2).
  apply buildAccountCreations_step_shape in H1 as (n & ncs & -> & -> & Hn).
  destruct (IH _ _ H2) as (outs & Hf & -> & ->).
  exists ((n, ncs) :: outs). split; [by constructor|]. simpl. by rewrite <- !app_assoc.
Qed.

Lemma wrap_inl {R A} msg (m : M R A) tr tr' a :
  wrap msg m tr = (tr', inl a) -> m tr = (tr', inl a).
Proof. unfold wrap. destruct (m tr) as [? [?|?]]; intros; by simplify_eq. Qed.

Lemma findIntersection_elem (B A : AccountMap) k :
  k ∈ findIntersection (sortKeys B) (sortKeys A) <-> is_Some (B !! k) /\ is_Some (A !! k).
Proof.
  unfold findIntersection. rewrite list_elem_of_filter, !sortKeys_elem. tauto.
Qed.

(** Pass 3 sends the updated records, one per key in both maps and in the
    order of [updatedKeys], then one record per entry of [B] whose key is not
    in [A], in the runtime's iteration order over those entries. *)
Lemma reconcile_shape env rt params output B A tr tr' codes :
  keyedByLeafKey B ->
  reconcile env rt params output B A tr = (tr', inl codes) ->
  exists upd outs, tr' = tr ++ upd ++ map fst outs /\
    map (fun n => Bytes2Hex (LeafKey n)) upd = findIntersection (sortKeys B) (sortKeys A) /\
    Forall2 (fun kv o => creationOutcome env (WatchedStorageSlots params)
                           (IntermediateStorageNodes params) kv.2 o.1 o.2)
      (range_map rt (filter (fun kv => A !! kv.1 = None) B)) outs /\
    codes = concat (map snd outs).
Proof.
  intros HB H. unfold reconcile in H. cbv zeta in H.
  apply bind_inl in H as (tr1 & [B' A'] & H1 & H2). apply wrap_inl in H1, H2.
  apply buildAccountUpdates_shape in H1 as (upd & -> & Hmap & HB');
    [|done|apply NoDup_filter, sortKeys_NoDup
     |intros k Hk; by apply findIntersection_elem in Hk as [? _]].
  assert (Heq : B' = filter (fun kv => A !! kv.1 = None) B).
  { apply map_eq. intros j. rewrite HB', map_lookup_filter.
    destruct (decide (j ∈ _)) as [Hj|Hj].
    - apply findIntersection_elem in Hj as [[w Hw] [v Hv]]. rewrite Hw. simpl.
      rewrite option_guard_False; [done|]. simpl. by rewrite Hv.
    - destruct (B !! j) as [w|] eqn:Hw; [|done]. simpl.
      rewrite option_guard_True; [done|]. simpl.
      destruct (A !! j) eqn:Ha; [|done]. destruct Hj. apply findIntersection_elem. by split. }
  subst B'. unfold buildAccountCreations in H2.
  apply buildAccountCreations_fold_shape in H2 as (outs & Hf & -> & ->).
  exists upd, outs. by rewrite app_assoc.
Qed.

(** Pass 1 files every account under the hex encoding of its leaf key, so
    the map handed to Pass 3 satisfies [keyedByLeafKey]. *)
Lemma createdAndUpdatedState_keyed env a b watched Q :
  Hoare Q (createdAndUpdatedState env a b watched) (fun acc => keyedByLeafKey acc.1).
Proof.
  unfold createdAndUpdatedState. eapply Hoare_bind.
  - refine (Hoare_foldM _ _ (fun _ acc => keyedByLeafKey acc.1) (fun _ => True)
              _ _ [] (∅, ∅) _ _); [|apply Forall_true; done|apply map_Forall_empty].
    intros done [accB paths] s HI _. unfold createdAndUpdatedState_step.
    destruct (skipped s); [by apply Hoare_ret|]. simpl in HI.
    eapply Hoare_bind; [apply Hoare_readNode|]. intros [[node el] ty] _.
    apply (Hoare_bind _ _ _ keyedByLeafKey).
    + destruct ty; try (by apply Hoare_ret).
      eapply Hoare_bind; [apply Hoare_decodeAccount|]. intros acct _.
      eapply Hoare_bind; [apply Hoare_lift|]. intros k _.
      case_match; apply Hoare_ret; [|done]. by apply map_Forall_insert_2.
    + intros m Hm. by apply Hoare_ret.
  - intros acc HI. by apply Hoare_iterError.
Qed.

Lemma createdAndUpdatedStateWithIntermediateNodes_keyed env a b output :
  Hoare (fun _ => True) (createdAndUpdatedStateWithIntermediateNodes env a b output)
    (fun acc => keyedByLeafKey acc.1).
Proof.
  unfold createdAndUpdatedStateWithIntermediateNodes. eapply Hoare_bind.
  - refine (Hoare_foldM _ _ (fun _ acc => keyedByLeafKey acc.1) (fun _ => True)
              _ _ [] (∅, ∅) _ _); [|apply Forall_true; done|apply map_Forall_empty].
    intros done [accB paths] s HI _. unfold createdAndUpdatedStateWithIntermediateNodes_step.
    destruct (skipped s); [by apply Hoare_ret|]. simpl in HI.
    eapply Hoare_bind; [apply Hoare_readNode|]. intros [[node el] ty] _.
    apply (Hoare_bind _ _ _ keyedByLeafKey).
    + destruct ty; try (by apply Hoare_throw).
      * eapply Hoare_bind; [apply Hoare_decodeAccount|]. intros acct _.
        eapply Hoare_bind; [apply Hoare_lift|]. intros k _.
        apply Hoare_ret. by apply map_Forall_insert_2.
      * eapply Hoare_bind; [by apply Hoare_emit|]. intros _ _. by apply Hoare_ret.
      * eapply Hoare_bind; [by apply Hoare_emit|]. intros _ _. by apply Hoare_ret.
    + intros m Hm. by apply Hoare_ret.
  - intros acc HI. by apply Hoare_iterError.
Qed.

(** The two groups of Pass 3 with the hex leaf keys they carry: the updated
    records in the order of [updatedKeys], then the created records in the
    runtime's iteration order over the entries of [B] whose key is not in [A]. *)
Lemma reconcile_groups env rt params output B A tr tr' codes :
  keyedByLeafKey B ->
  reconcile env rt params output B A tr = (tr', inl codes) ->
  exists upd cre, tr' = tr ++ upd ++ cre /\
    map (fun n => Bytes2Hex (LeafKey n)) upd = findIntersection (sortKeys B) (sortKeys A) /\
    map (fun n => Bytes2Hex (LeafKey n)) cre
      = map fst (range_map rt (filter (fun kv => A !! kv.1 = None) B)).
Proof.
  intros HB H. destruct (reconcile_shape _ _ _ _ _ _ _ _ _ HB H)
    as (upd & outs & -> & Hupd & Hf & _).
  exists upd, (map fst outs). split; [done|]. split; [done|].
  assert (Hin : forall kv, kv ∈ range_map rt (filter (fun kv => A !! kv.1 = None) B) ->
                  B !! kv.1 = Some kv.2).
  { intros [k w] Hkv. rewrite (range_map_perm rt) in Hkv.
    apply elem_of_map_to_list, map_lookup_filter_Some in Hkv as [Hkv _]. done. }
  revert Hf Hin. generalize (range_map rt (filter (fun kv => A !! kv.1 = None) B)).
  intros l Hf Hin. clear H. induction Hf as [|kv o l' outs Ho Hf IH]; simpl; [done|].
  destruct Ho as (_ & _ & Hk & _). f_equal.
  - rewrite Hk. apply (HB kv.1 kv.2), Hin, list_elem_of_here.
  - apply IH. intros kv' Hkv'. by apply Hin, list_elem_of_further.
Qed.

(** C9: in Pass 3, the leaf keys of the records sent for updated accounts
    and those of the records sent for created accounts are disjoint: the
    updated group carries the keys found in both maps, and the created group
    ranges over the entries of [diffAccountsAtB] left after
    [buildAccountUpdates] deleted those keys, i.e. the entries whose key is
    not in [diffAccountsAtA].  The maps are keyed by the hex of their leaf
    keys, as Pass 1 builds them ([createdAndUpdatedState_keyed]). *)
Theorem reconcile_update_creation_disjoint env rt params output B A tr tr' codes :
  keyedByLeafKey B ->
  reconcile env rt params output B A tr = (tr', inl codes) ->
  exists upd cre, tr' = tr ++ upd ++ cre /\
    map (fun n => Bytes2Hex (LeafKey n)) upd = findIntersection (sortKeys B) (sortKeys A) /\
    map (fun n => Bytes2Hex (LeafKey n)) cre
      = map fst (range_map rt (filter (fun kv => A !! kv.1 = None) B)) /\
    forall n m, n ∈ upd -> m ∈ cre -> LeafKey n <> LeafKey m.
Proof.
  intros HB H. destruct (reconcile_groups _ _ _ _ _ _ _ _ _ HB H)
    as (upd & cre & -> & Hupd & Hcre).
  exists upd, cre. do 3 (split; [done|]).
  intros n m Hn Hm Heq.
  assert (Hu : Bytes2Hex (LeafKey n) ∈ findIntersection (sortKeys B) (sortKeys A)).
  { rewrite <- Hupd. apply list_elem_of_In, (in_map (fun n => Bytes2Hex (LeafKey n))), list_elem_of_In. done. }
  assert (Hc : Bytes2Hex (LeafKey m) ∈ map fst (range_map rt (filter (fun kv => A !! kv.1 = None) B))).
  { rewrite <- Hcre. apply list_elem_of_In, (in_map (fun n => Bytes2Hex (LeafKey n))), list_elem_of_In. done. }
  apply findIntersection_elem in Hu as [_ [v Hv]].
  apply list_elem_of_In, in_map_iff in Hc as [[k w] [Hk Hkw]].
  apply list_elem_of_In in Hkw. rewrite (range_map_perm rt) in Hkw.
  apply elem_of_map_to_list, map_lookup_filter_Some in Hkw as [_ HA]. simpl in *.
  rewrite Hk, <- Heq, Hv in HA. discriminate.
Qed.

Lemma reconcile_update_creation_disjoint_witness :
  exists tr' codes,
    reconcile Demo.env Demo.rt (Demo.params false []) stateNodeAppender
      (Demo.diffB Demo.old_trie Demo.new_trie) (Demo.diffA Demo.old_trie Demo.new_trie) []
      = (tr', inl codes) /\
    exists upd cre, tr' = [] ++ upd ++ cre /\
      map (fun n => Bytes2Hex (LeafKey n)) upd
        = findIntersection (sortKeys (Demo.diffB Demo.old_trie Demo.new_trie))
                           (sortKeys (Demo.diffA Demo.old_trie Demo.new_trie)) /\
      map (fun n => Bytes2Hex (LeafKey n)) cre
        = map fst (range_map Demo.rt
                     (filter (fun kv => Demo.diffA Demo.old_trie Demo.new_trie !! kv.1 = None)
                        (Demo.diffB Demo.old_trie Demo.new_trie))) /\
      forall n m, n ∈ upd -> m ∈ cre -> LeafKey n <> LeafKey m.
Proof.
  eexists _, _. split; [vm_compute; reflexivity|].
  eapply (reconcile_update_creation_disjoint Demo.env Demo.rt (Demo.params false [])
            stateNodeAppender (Demo.diffB Demo.old_trie Demo.new_trie)
            (Demo.diffA Demo.old_trie Demo.new_trie) []).
  - unfold keyedByLeafKey. apply (bool_decide_unpack _). vm_compute. reflexivity.
  - vm_compute. reflexivity.
Defined.

(** Counterexample to C3: diffing the empty state against the state with
    the accounts B ([1bee]), D ([3dee]) and E ([4eee]), all three created,
    sends the created leaves in the runtime's iteration order over the map,
    here [3dee], [1bee], [4eee], which is not ascending. *)
Lemma WriteStateDiffObject_creations_unsorted :
  exists tr codes,
    WriteStateDiffObject Demo.env Demo.rt Demo.creation_roots (Demo.params false [])
      stateNodeAppender [] = (tr, inl codes) /\
    map (fun n => Bytes2Hex (LeafKey n)) tr = ["3dee"; "1bee"; "4eee"] /\
    Forall (fun n => NodeType_ n = Leaf) tr /\
    ~ StronglySorted str_lt ["3dee"; "1bee"; "4eee"].
Proof.
  eexists _, _. split; [vm_compute; reflexivity|].
  split; [vm_compute; reflexivity|]. split; [repeat constructor|].
  intros H. apply StronglySorted_inv in H as [_ H]. apply Forall_inv in H.
  vm_compute in H. discriminate.
Qed.

(** C3 (amended): in Pass 3 the updated account leaves are sent in ascending
    lexicographic order of hex(leaf_key); the created account leaves that
    follow are sent in the runtime's (Go's map) iteration order over the
    entries of [diffAccountsAtB] not in [diffAccountsAtA], which need not be
    sorted. *)
Theorem reconcile_emission_order env rt params output B A tr tr' codes :
  keyedByLeafKey B ->
  reconcile env rt params output B A tr = (tr', inl codes) ->
  exists upd cre, tr' = tr ++ upd ++ cre /\
    StronglySorted str_lt (map (fun n => Bytes2Hex (LeafKey n)) upd) /\
    map (fun n => Bytes2Hex (LeafKey n)) upd = findIntersection (sortKeys B) (sortKeys A) /\
    map (fun n => Bytes2Hex (LeafKey n)) cre
      = map fst (range_map rt (filter (fun kv => A !! kv.1 = None) B)).
Proof.
  intros HB H. destruct (reconcile_groups _ _ _ _ _ _ _ _ _ HB H)
    as (upd & cre & -> & Hupd & Hcre).
  exists upd, cre. split; [done|]. split; [|done].
  rewrite Hupd. apply StronglySorted_filter, sortKeys_sorted.
Qed.

Lemma reconcile_emission_order_witness :
  exists tr' codes,
    reconcile Demo.env Demo.rt (Demo.params false []) stateNodeAppender
      (Demo.diffB Demo.old_trie Demo.new_trie) (Demo.diffA Demo.old_trie Demo.new_trie) []
      = (tr', inl codes) /\
    exists upd cre, tr' = [] ++ upd ++ cre /\
      StronglySorted str_lt (map (fun n => Bytes2Hex (LeafKey n)) upd) /\
      map (fun n => Bytes2Hex (LeafKey n)) upd
        = findIntersection (sortKeys (Demo.diffB Demo.old_trie Demo.new_trie))
                           (sortKeys (Demo.diffA Demo.old_trie Demo.new_trie)) /\
      map (fun n => Bytes2Hex (LeafKey n)) cre
        = map fst (range_map Demo.rt
                     (filter (fun kv => Demo.diffA Demo.old_trie Demo.new_trie !! kv.1 = None)
                        (Demo.diffB Demo.old_trie Demo.new_trie))).
Proof.
  eexists _, _. split; [vm_compute; reflexivity|].
  eapply (reconcile_emission_order Demo.env Demo.rt (Demo.params false [])
            stateNodeAppender (Demo.diffB Demo.old_trie Demo.new_trie)
            (Demo.diffA Demo.old_trie Demo.new_trie) []).
  - unfold keyedByLeafKey. apply (bool_decide_unpack _). vm_compute. reflexivity.
  - vm_compute. reflexivity.
Defined.

(** Counterexample to C4: account E ([4eee]) is created with the hash of
    empty code and the storage root [[10]], whose full storage walk yields a
    leaf.  [buildAccountCreations] sends E's leaf with no storage nodes: the
    walk runs only for accounts with code. *)
Lemma buildAccountCreations_storage_skipped :
  exists tr codes w acct n,
    buildAccountCreations Demo.env Demo.rt (Demo.diffB Demo.empty_trie Demo.created_trie)
      [] true stateNodeAppender [] = (tr, inl codes) /\
    Demo.diffB Demo.empty_trie Demo.created_trie !! "4eee" = Some w /\
    aw_Account w = Some acct /\
    CodeHash acct = Keccak256 Demo.env [] /\
    n ∈ tr /\ LeafKey n = aw_LeafKey w /\ StorageNodes n = [] /\
    fst (collect (buildStorageNodesEventual Demo.env (Root acct) [] true storageNodeAppender))
      <> [].
Proof.
  do 5 eexists. split; [vm_compute; reflexivity|].
  split; [vm_compute; reflexivity|]. split; [vm_compute; reflexivity|].
  split; [vm_compute; reflexivity|].
  split; [apply list_elem_of_further, list_elem_of_further, list_elem_of_here|].
  split; [vm_compute; reflexivity|]. split; [vm_compute; reflexivity|].
  vm_compute. discriminate.
Qed.

(** C4 (amended): [buildAccountCreations] sends, for every entry of the map
    in the runtime's iteration order, one record copying the entry's type,
    path, leaf key and value.  Only when the account's code hash differs from
    Keccak256(empty) does it run the eventual storage walk at the account's
    storage root, attach the storage nodes it yields and add the
    (code hash, code) pair; otherwise the record has no storage nodes and no
    pair is added.  The pairs come in the order of the records. *)
Theorem buildAccountCreations_outcome env rt accounts watchedStorageKeys
    intermediateStorageNodes output tr tr' codes :
  buildAccountCreations env rt accounts watchedStorageKeys intermediateStorageNodes output tr
    = (tr', inl codes) ->
  exists outs,
    Forall2 (fun kv o => creationOutcome env watchedStorageKeys intermediateStorageNodes
                           kv.2 o.1 o.2)
      (range_map rt accounts) outs /\
    tr' = tr ++ map fst outs /\ codes = concat (map snd outs).
Proof.
  unfold buildAccountCreations. intros H.
  apply buildAccountCreations_fold_shape in H as (outs & Hf & -> & ->). by exists outs.
Qed.

Lemma buildAccountCreations_outcome_witness :
  exists tr' codes,
    buildAccountCreations Demo.env Demo.rt (Demo.diffB Demo.empty_trie Demo.created_trie)
      [] true stateNodeAppender [] = (tr', inl codes) /\
    exists outs,
      Forall2 (fun kv o => creationOutcome Demo.env [] true kv.2 o.1 o.2)
        (range_map Demo.rt (Demo.diffB Demo.empty_trie Demo.created_trie)) outs /\
      tr' = [] ++ map fst outs /\ codes = concat (map snd outs).
Proof.
  eexists _, _. split; [vm_compute; reflexivity|].
  eapply (buildAccountCreations_outcome Demo.env Demo.rt
            (Demo.diffB Demo.empty_trie Demo.created_trie) [] true stateNodeAppender []).
  vm_compute. reflexivity.
Defined.

(* ------------------------------------------------------------------ *)
(** ** Sink errors *)

Lemma Accepted_app {R} (sink : Sink R) tr a b :
  Accepted sink tr (a ++ b) <-> Accepted sink tr a /\ Accepted sink (tr ++ a) b.
Proof.
  revert tr; induction a as [|n a IH]; intros tr; simpl.
  - rewrite app_nil_r. tauto.
  - rewrite IH, <- app_assoc. simpl. tauto.
Qed.

Section SinkRules.
Context {R : Type} (sink : Sink R).

Lemma SS_nothing {A} E (m : M R A) :
  (forall tr tr' r, m tr = (tr', r) -> tr' = tr) -> SinkSafe sink E m.
Proof.
  intros Hm tr tr' r H. apply Hm in H as ->. exists []. rewrite app_nil_r. split; [done|by left].
Qed.

Lemma SS_ret {A} E (a : A) : SinkSafe sink E (ret a).
Proof. apply SS_nothing. unfold ret. intros; by simplify_eq. Qed.

Lemma SS_throw {A} E e : SinkSafe sink E (A:=A) (throw e).
Proof. apply SS_nothing. unfold throw. intros; by simplify_eq. Qed.

Lemma SS_lift {A} E (x : A + error) : SinkSafe sink E (lift x).
Proof. apply SS_nothing. unfold lift. intros; by simplify_eq. Qed.

Lemma SS_emit n : SinkSafe sink eq (emit sink n).
Proof.
  intros tr tr' r H. unfold emit in H. exists [n].
  destruct (sink tr n) as [e|] eqn:Hs; simplify_eq; split; try done.
  - right. exists [], n, e. split; [done|]. split; [done|].
    split; [by rewrite app_nil_r|]. by exists e.
  - left. simpl. by split.
Qed.

Lemma SS_bind {A B} E (m : M R A) (k : A -> M R B) :
  SinkSafe sink E m -> (forall a, SinkSafe sink E (k a)) -> SinkSafe sink E (bind m k).
Proof.
  intros Hm Hk tr tr' r H. unfold bind in H.
  destruct (m tr) as [tr1 r1] eqn:E1.
  destruct (Hm _ _ _ E1) as (ext1 & -> & Hc1).
  destruct r1 as [a|e1].
  - destruct (Hk a _ _ _ H) as (ext2 & -> & Hc2). exists (ext1 ++ ext2).
    rewrite <- app_assoc. split; [done|].
    destruct Hc1 as [Hacc1|(ext0 & n & e & _ & _ & _ & e' & ? & _)]; [|discriminate].
    destruct Hc2 as [Hacc2|(ext0 & n & e & -> & Hacc0 & Hs & He)].
    + left. by apply Accepted_app.
    + right. exists (ext1 ++ ext0), n, e. rewrite !app_assoc. split; [done|].
      split; [by apply Accepted_app|]. by split.
  - simplify_eq. exists ext1. split; [done|].
    destruct Hc1 as [?|(ext0 & n & e & ? & ? & ? & e' & He & ?)]; [by left|].
    right. exists ext0, n, e. simplify_eq. eauto 10.
Qed.

Lemma SS_foldM {A B} E (f : A -> B -> M R A) l acc :
  (forall acc x, SinkSafe sink E (f acc x)) -> SinkSafe sink E (foldM f l acc).
Proof.
  intros Hf. revert acc. induction l as [|x l IH]; intros acc; simpl.
  - apply SS_ret.
  - apply SS_bind; [apply Hf|apply IH].
Qed.

Lemma SS_weaken {A} (E E' : error -> error -> Prop) (m : M R A) :
  SinkSafe sink E m -> (forall e e', E e e' -> E' e e') -> SinkSafe sink E' m.
Proof.
  intros Hm HE tr tr' r H. destruct (Hm _ _ _ H) as (ext & -> & Hc). exists ext.
  split; [done|]. destruct Hc as [?|(ext0 & n & e & ? & ? & ? & e' & ? & ?)]; [by left|].
  right. exists ext0, n, e. eauto 10.
Qed.

Lemma SS_wrap {A} msg (m : M R A) :
  SinkSafe sink eq m -> SinkSafe sink (fun e e' => e' = Errorf msg e) (wrap msg m).
Proof.
  intros Hm tr tr' r H. unfold wrap in H.
  destruct (m tr) as [tr1 r1] eqn:E1. destruct (Hm _ _ _ E1) as (ext & -> & Hc).
  exists ext. split; [destruct r1; by simplify_eq|].
  destruct Hc as [?|(ext0 & n & e & ? & ? & ? & e' & -> & <-)]; [by left|].
  right. exists ext0, n, e. simplify_eq. eauto 10.
Qed.

End SinkRules.

Ltac sinksafe :=
  repeat
    lazymatch goal with
    | |- SinkSafe _ _ (bind _ _) => apply SS_bind; [|intros ?; cbv beta zeta]
    | |- SinkSafe _ _ (ret _) => apply SS_ret
    | |- SinkSafe _ _ (throw _) => apply SS_throw
    | |- SinkSafe _ _ (lift _) => apply SS_lift
    | |- SinkSafe _ _ (emit _ _) => apply SS_emit
    | |- SinkSafe _ _ (foldM _ _ _) => apply SS_foldM; intros ? ?; cbv beta zeta
    | |- SinkSafe _ _ (readNode _ _) => unfold readNode
    | |- SinkSafe _ _ (decodeAccount _ _ _) => unfold decodeAccount
    | |- SinkSafe _ _ (iterError _ _) => unfold iterError
    | |- SinkSafe _ _ (match ?x with _ => _ end) => destruct x
    end.

Lemma createdAndUpdatedState_sink env a b watched output :
  SinkSafe output eq (createdAndUpdatedState env a b watched).
Proof. unfold createdAndUpdatedState, createdAndUpdatedState_step. cbv zeta. sinksafe. Qed.

Lemma createdAndUpdatedStateWithIntermediateNodes_sink env a b output :
  SinkSafe output eq (createdAndUpdatedStateWithIntermediateNodes env a b output).
Proof.
  unfold createdAndUpdatedStateWithIntermediateNodes,
    createdAndUpdatedStateWithIntermediateNodes_step. cbv zeta. sinksafe.
Qed.

Lemma deletedOrUpdatedState_sink env a b pathsB output :
  SinkSafe output eq (deletedOrUpdatedState env a b pathsB output).
Proof. unfold deletedOrUpdatedState, deletedOrUpdatedState_step. cbv zeta. sinksafe. Qed.

Lemma buildAccountUpdates_sink env keys B A wsk inter output :
  SinkSafe output eq (buildAccountUpdates env B A keys wsk inter output).
Proof.
  revert B A. induction keys as [|k keys IH]; intros B A; simpl; sinksafe; apply IH.
Qed.

Lemma buildAccountCreations_sink env rt accounts wsk inter output :
  SinkSafe output eq (buildAccountCreations env rt accounts wsk inter output).
Proof. unfold buildAccountCreations, buildAccountCreations_step. cbv zeta. sinksafe. Qed.

Lemma SS_eq_ok {R A} (sink : Sink R) (m : M R A) t t' a :
  SinkSafe sink eq m -> m t = (t', inl a) -> exists x, t' = t ++ x /\ Accepted sink t x.
Proof.
  intros Hm H. destruct (Hm _ _ _ H) as (x & -> & [Hacc|(? & ? & ? & _ & _ & _ & e' & ? & _)]);
    [eauto|discriminate].
Qed.

Lemma SS_eq_err {R A} (sink : Sink R) (m : M R A) t t' e :
  SinkSafe sink eq m -> m t = (t', inr e) ->
  exists x, t' = t ++ x /\
    (Accepted sink t x \/
     exists x0 n, x = x0 ++ [n] /\ Accepted sink t x0 /\ sink (t ++ x0) n = Some e).
Proof.
  intros Hm H. destruct (Hm _ _ _ H) as (x & -> & [Hacc|(x0 & n & e0 & -> & Hacc & Hs & e' & He & <-)]);
    [eauto|]. simplify_eq. eauto 10.
Qed.

(** The records of the passes before the failing one were all accepted; the
    failing pass sent records the sink accepted, or stopped at one it refused. *)
Lemma sink_fail_combine {R} (sink : Sink R) tr t x1 x2 e (Q : error -> Prop) :
  t = tr ++ x1 -> Accepted sink tr x1 ->
  (Accepted sink t x2 \/
   exists x0 n, x2 = x0 ++ [n] /\ Accepted sink t x0 /\ sink (t ++ x0) n = Some e) ->
  Q e ->
  exists ext, t ++ x2 = tr ++ ext /\
    (Accepted sink tr ext \/
     exists ext0 n e', ext = ext0 ++ [n] /\ Accepted sink tr ext0 /\
       sink (tr ++ ext0) n = Some e' /\ Q e').
Proof.
  intros -> H1 [H2|(x0 & n & -> & H0 & Hs)] HQ.
  - exists (x1 ++ x2). rewrite app_assoc. split; [done|]. left. by apply Accepted_app.
  - exists (x1 ++ x0 ++ [n]). split; [by rewrite !app_assoc|]. right.
    exists (x1 ++ x0), n, e. split; [by rewrite app_assoc|].
    split; [by apply Accepted_app|]. split; [by rewrite app_assoc|done].
Qed.

Lemma sink_all_accepted {R} (sink : Sink R) tr t x1 x2 (Q : error -> Prop) :
  t = tr ++ x1 -> Accepted sink tr x1 -> Accepted sink t x2 ->
  exists ext, t ++ x2 = tr ++ ext /\
    (Accepted sink tr ext \/
     exists ext0 n e', ext = ext0 ++ [n] /\ Accepted sink tr ext0 /\
       sink (tr ++ ext0) n = Some e' /\ Q e').
Proof.
  intros -> H1 H2. exists (x1 ++ x2). rewrite app_assoc. split; [done|].
  left. by apply Accepted_app.
Qed.

Lemma firstPass_sink env params output oldTrie newTrie :
  SinkSafe output eq (firstPass env params output oldTrie newTrie).
Proof.
  unfold firstPass. destruct (_ || _);
    [apply createdAndUpdatedState_sink|apply createdAndUpdatedStateWithIntermediateNodes_sink].
Qed.

(** Both variants of [WriteStateDiffObject] run the same steps around their
    own Pass 1. *)
Lemma WriteStateDiffObject_passes env rt args params output :
  WriteStateDiffObject env rt args params output =
  (oldTrie <- openTrie env (OldStateRoot args) "error creating trie for oldStateRoot" ;;
   newTrie <- openTrie env (NewStateRoot args) "error creating trie for newStateRoot" ;;
   '(diffAccountsAtB, diffPathsAtB) <-
     wrap "error collecting createdAndUpdatedNodes" (firstPass env params output oldTrie newTrie) ;;
   diffAccountsAtA <-
     wrap "error collecting deletedOrUpdatedNodes"
       (deletedOrUpdatedState env oldTrie newTrie diffPathsAtB output) ;;
   reconcile env rt params output diffAccountsAtB diffAccountsAtA).
Proof.
  unfold WriteStateDiffObject, firstPass, buildStateDiffWithoutIntermediateStateNodes,
    buildStateDiffWithIntermediateStateNodes.
  by destruct (_ || _).
Qed.

(** Counterexample to C7: with intermediate state nodes requested, the sink
    refusing the first record (the branch at the root) with [ErrValue 7]
    makes [WriteStateDiffObject] stop after that record and return
    [error collecting createdAndUpdatedNodes: 7], not the sink's error. *)
Lemma WriteStateDiffObject_sink_error_wrapped :
  exists tr' e,
    WriteStateDiffObject Demo.env Demo.rt Demo.roots (Demo.params true [])
      Demo.failing_sink [] = (tr', inr e) /\
    length tr' = 1%nat /\
    e = Errorf "error collecting createdAndUpdatedNodes" (ErrValue 7) /\
    e <> ErrValue 7.
Proof.
  eexists _, _. split; [vm_compute; reflexivity|].
  split; [reflexivity|]. split; [reflexivity|]. discriminate.
Qed.

(** C7 (amended): when the sink returns an error on a record,
    [WriteStateDiffObject] sends no further record and returns that error
    wrapped once by [fmt.Errorf] with the prefix of the pass it happened in
    ([FailedInPass]); otherwise every record sent was accepted by the sink. *)
Theorem WriteStateDiffObject_sink_error env rt args params output tr tr' r :
  WriteStateDiffObject env rt args params output tr = (tr', r) ->
  exists ext, tr' = tr ++ ext /\
    (Accepted output tr ext \/
     exists ext0 n e, ext = ext0 ++ [n] /\ Accepted output tr ext0 /\
       output (tr ++ ext0) n = Some e /\
       FailedInPass env rt args params output tr tr' e r).
Proof.
  rewrite WriteStateDiffObject_passes. intros H.
  unfold bind at 1, openTrie at 1, ret at 1, throw at 1 in H.
  destruct (OpenTrie env (OldStateRoot args)) as [ot|err] eqn:Eo;
    [|injection H as <- <-; exists []; rewrite app_nil_r; split; [done|by left]].
  unfold bind at 1, openTrie at 1, ret at 1, throw at 1 in H.
  destruct (OpenTrie env (NewStateRoot args)) as [nt|err] eqn:En;
    [|injection H as <- <-; exists []; rewrite app_nil_r; split; [done|by left]].
  unfold bind at 1, wrap at 1 in H.
  destruct (firstPass env params output ot nt tr) as [t1 [[B pB]|e1]] eqn:E1.
  2:{ injection H as <- <-.
      destruct (SS_eq_err _ _ _ _ _ (firstPass_sink env params output ot nt) E1) as (x1 & -> & D1).
      refine (sink_fail_combine output tr tr [] x1 e1
                (fun e0 => FailedInPass env rt args params output tr _ e0 _) _ _ D1 _);
        [by rewrite app_nil_r|done|].
      exists ot, nt. split; [done|]. split; [done|]. by left. }
  destruct (SS_eq_ok _ _ _ _ _ (firstPass_sink env params output ot nt) E1) as (x1 & -> & A1).
  unfold bind at 1, wrap at 1 in H.
  destruct (deletedOrUpdatedState env ot nt pB output (tr ++ x1)) as [t2 [A|e2]] eqn:E2.
  2:{ injection H as <- <-.
      destruct (SS_eq_err _ _ _ _ _ (deletedOrUpdatedState_sink env ot nt pB output) E2)
        as (x2 & -> & D2).
      refine (sink_fail_combine output tr (tr ++ x1) x1 x2 e2
                (fun e0 => FailedInPass env rt args params output tr _ e0 _) _ _ D2 _);
        [done|done|].
      exists ot, nt. split; [done|]. split; [done|]. right. exists B, pB, (tr ++ x1).
      split; [done|]. by left. }
  destruct (SS_eq_ok _ _ _ _ _ (deletedOrUpdatedState_sink env ot nt pB output) E2)
    as (x2 & -> & A2).
  assert (A12 : Accepted output tr (x1 ++ x2)) by (by apply Accepted_app).
  unfold reconcile in H. cbv zeta in H. unfold bind at 1, wrap at 1 in H.
  set (keys := findIntersection (sortKeys B) (sortKeys A)) in H.
  destruct (buildAccountUpdates env B A keys (WatchedStorageSlots params)
              (IntermediateStorageNodes params) output ((tr ++ x1) ++ x2))
    as [t3 [[B' A']|e3]] eqn:E3.
  2:{ injection H as <- <-.
      destruct (SS_eq_err _ _ _ _ _ (buildAccountUpdates_sink env keys B A
                  (WatchedStorageSlots params) (IntermediateStorageNodes params) output) E3)
        as (x3 & -> & D3).
      refine (sink_fail_combine output tr ((tr ++ x1) ++ x2) (x1 ++ x2) x3 e3
                (fun e0 => FailedInPass env rt args params output tr _ e0 _) _ _ D3 _);
        [by rewrite app_assoc|done|].
      exists ot, nt. split; [done|]. split; [done|]. right. exists B, pB, (tr ++ x1).
      split; [done|]. right. exists A, ((tr ++ x1) ++ x2). split; [done|]. by left. }
  destruct (SS_eq_ok _ _ _ _ _ (buildAccountUpdates_sink env keys B A
              (WatchedStorageSlots params) (IntermediateStorageNodes params) output) E3)
    as (x3 & -> & A3).
  assert (A123 : Accepted output tr ((x1 ++ x2) ++ x3))
    by (apply Accepted_app; split; [done|by rewrite app_assoc]).
  unfold wrap in H.
  destruct (buildAccountCreations env rt B' (WatchedStorageSlots params)
              (IntermediateStorageNodes params) output (((tr ++ x1) ++ x2) ++ x3))
    as [t4 [codes|e4]] eqn:E4.
  - injection H as <- <-.
    destruct (SS_eq_ok _ _ _ _ _ (buildAccountCreations_sink env rt B'
                (WatchedStorageSlots params) (IntermediateStorageNodes params) output) E4)
      as (x4 & -> & A4).
    apply (sink_all_accepted output tr (((tr ++ x1) ++ x2) ++ x3) ((x1 ++ x2) ++ x3) x4);
      [by rewrite !app_assoc|done|done].
  - injection H as <- <-.
    destruct (SS_eq_err _ _ _ _ _ (buildAccountCreations_sink env rt B'
                (WatchedStorageSlots params) (IntermediateStorageNodes params) output) E4)
      as (x4 & -> & D4).
    refine (sink_fail_combine output tr (((tr ++ x1) ++ x2) ++ x3) ((x1 ++ x2) ++ x3) x4 e4
              (fun e0 => FailedInPass env rt args params output tr _ e0 _) _ _ D4 _);
      [by rewrite !app_assoc|done|].
    exists ot, nt. split; [done|]. split; [done|]. right. exists B, pB, (tr ++ x1).
    split; [done|]. right. exists A, ((tr ++ x1) ++ x2). split; [done|]. right.
    exists B', A', (((tr ++ x1) ++ x2) ++ x3). split; [done|]. by split.
Qed.

Lemma WriteStateDiffObject_sink_error_witness :
  exists tr' r,
    WriteStateDiffObject Demo.env Demo.rt Demo.roots (Demo.params true [])
      Demo.failing_sink [] = (tr', r) /\
    exists ext, tr' = [] ++ ext /\
      (Accepted Demo.failing_sink [] ext \/
       exists ext0 n e, ext = ext0 ++ [n] /\ Accepted Demo.failing_sink [] ext0 /\
         Demo.failing_sink ([] ++ ext0) n = Some e /\
         FailedInPass Demo.env Demo.rt Demo.roots (Demo.params true [])
           Demo.failing_sink [] tr' e r).
Proof.
  eexists _, _. split; [vm_compute; reflexivity|].
  eapply (WriteStateDiffObject_sink_error Demo.env Demo.rt Demo.roots (Demo.params true [])
            Demo.failing_sink []).
  vm_compute. reflexivity.
Defined.

(* ------------------------------------------------------------------ *)
(** ** Further properties of the builder *)

Lemma isWatchedStorageKey_spec (watched : list Hash) (k : bytes) :
  isWatchedStorageKey watched k = true -> watched = [] \/ k ∈ watched.
Proof.
  unfold isWatchedStorageKey. destruct watched as [|h t]; [by left|]. intros H. right.
  apply existsb_exists in H as [h' [Hin Heq]]. unfold bytes_Equal in Heq.
  apply bool_decide_eq_true in Heq. subst. by apply list_elem_of_In.
Qed.

Lemma buildStateTrie_step_shape env acc s tr tr' acc' :
  buildStateTrie_step env acc s tr = (tr', inl acc') ->
  tr' = tr /\
  if skipped s then acc' = acc
  else exists n codes, acc' = (acc.1 ++ [n], acc.2 ++ codes) /\ trieNodeOutcome env s n codes.
Proof.
  destruct acc as [sn cc]. unfold buildStateTrie_step. intros H.
  destruct (skipped s) eqn:Hs; [unfold ret in H; by simplify_eq|].
  unfold readNode, decodeAccount, bind, lift, ret, throw in H. cbv beta iota zeta in H.
  destruct (NodeOf env (st_Hash s)) as [node|e] eqn:E1; [|discriminate].
  destruct (DecodeElements env node) as [el|e] eqn:E2; [|discriminate].
  destruct (CheckKeyType el) as [ty|e] eqn:E3; [|discriminate].
  destruct ty; try discriminate.
  - destruct (as_bytes (el !! 1%nat)) as [v|e] eqn:E4; [|discriminate].
    destruct (DecodeAccount env v) as [acct|e] eqn:E5; [|discriminate].
    destruct (leafKeyOf (st_Path s) el) as [lk|e] eqn:E6; [|discriminate].
    destruct (bytes_Equal (CodeHash acct) (nullCodeHash env)) eqn:E7; simpl in H.
    + simplify_eq. split; [done|]. eexists _, []. rewrite app_nil_r. split; [done|].
      split; [done|]. exists node, el. simpl. repeat (split; [done|]).
      exists v, acct. rewrite E7. done.
    + destruct (collect _) as [sns [u|e]] eqn:E8; [|discriminate].
      destruct (ContractCode env nullHashBytes (BytesToHash (CodeHash acct))) as [code|e] eqn:E9;
        [|discriminate].
      simplify_eq. split; [done|]. eexists _, _. split; [done|].
      split; [done|]. exists node, el. simpl. repeat (split; [done|]).
      exists v, acct. rewrite E7. do 3 (split; [done|]). split; [by exists u|]. by exists code.
  - simplify_eq. split; [done|]. eexists _, []. rewrite app_nil_r. split; [done|].
    split; [done|]. exists node, el. done.
  - simplify_eq. split; [done|]. eexists _, []. rewrite app_nil_r. split; [done|].
    split; [done|]. exists node, el. done.
Qed.

Lemma buildStateTrie_fold_shape env (l : list IterStep) acc tr tr' acc' :
  foldM (buildStateTrie_step env) l acc tr = (tr', inl acc') ->
  tr' = tr /\
  exists outs, Forall2 (fun s o => trieNodeOutcome env s o.1 o.2)
                 (filter (fun s => skipped s = false) l) outs /\
    acc' = (acc.1 ++ map fst outs, acc.2 ++ concat (map snd outs)).
Proof.
  revert acc tr. induction l as [|s l IH]; intros acc tr H; simpl in H.
  { unfold ret in H. simplify_eq. split; [done|]. exists []. simpl.
    split; [constructor|]. destruct acc'. by rewrite !app_nil_r. }
  apply bind_inl in H as (tr1 & acc1 & H1 & H2).
  apply buildStateTrie_step_shape in H1 as [-> Hs].
  destruct (IH _ _ H2) as [-> (outs & Hf & ->)]. split; [done|].
  rewrite filter_cons. destruct (skipped s) eqn:Es.
  - subst acc1. rewrite decide_False by congruence. by exists outs.
  - rewrite decide_True by done. destruct Hs as (n & codes & -> & Hn).
    exists ((n, codes) :: outs). split; [by constructor|]. simpl.
    by rewrite <- !app_assoc.
Qed.

(** X1: [BuildStateTrieObject] on success returns the block's number and hash
    and, for the trie at the block's state root (whose iterator reports no
    error), one state node per visited node that is not a value node and
    whose hash is not all zeros, in iteration order: the node read from the
    database with its type, a leaf with its leaf key and, for a contract
    account, the storage nodes of its whole storage trie; the code and code
    hash pairs are those of the contract accounts, in the same order. *)
Theorem BuildStateTrieObject_nodes (env : Env) (current : Block) (so : StateObject) :
  BuildStateTrieObject env current = (so, None) ->
  so_BlockNumber so = b_Number current /\ so_BlockHash so = b_Hash current /\
  exists it outs, OpenTrie env (b_Root current) = inl it /\ it_Error it = None /\
    Forall2 (fun s o => trieNodeOutcome env s o.1 o.2)
      (filter (fun s => skipped s = false) (it_steps it)) outs /\
    so_Nodes so = map fst outs /\ so_CodeAndCodeHashes so = concat (map snd outs).
Proof.
  unfold BuildStateTrieObject. intros H.
  destruct (OpenTrie env (b_Root current)) as [it|e] eqn:Eo; [|discriminate].
  destruct (collect (buildStateTrie env it)) as [tr' [[sns ccs]|e]] eqn:Ec; [|discriminate].
  simplify_eq/=. split; [done|]. split; [done|].
  unfold collect, buildStateTrie in Ec. apply bind_inl in Ec as (tr1 & acc & H1 & H2).
  unfold iterError in H2. destruct (it_Error it) eqn:Ee; [discriminate|].
  unfold ret in H2. simplify_eq.
  apply buildStateTrie_fold_shape in H1 as [_ (outs & Hf & Hacc)]. simplify_eq/=.
  by exists it, outs.
Qed.

(** X2: Every storage record [buildStorageNodesFromTrie] sends comes from a
    visited node of the trie that is not a value node and whose hash is not
    all zeros, at that node's path; it is a leaf whose key passes the watch
    list (any key when the list is empty), or an extension or a branch, with
    no leaf key, and then only when intermediate nodes are requested. *)
Theorem buildStorageNodesFromTrie_records (env : Env) (it : NodeIterator)
    (watched : list Hash) (inter : bool) (output : Sink StorageNode) :
  Hoare (fun n => exists s, s ∈ it_steps it /\ skipped s = false /\ sPath n = st_Path s /\
           ((sNodeType n = Leaf /\ (watched = [] \/ sLeafKey n ∈ watched)) \/
            ((sNodeType n = Extension \/ sNodeType n = Branch) /\ inter = true /\
             sLeafKey n = [])))
    (buildStorageNodesFromTrie env it watched inter output) (fun _ => True).
Proof.
  unfold buildStorageNodesFromTrie. eapply Hoare_bind.
  - refine (Hoare_foldM _ _ (fun _ _ => True) (fun s => s ∈ it_steps it) _ _ [] tt _ I).
    + intros done [] s _ Hin. unfold buildStorageNodesFromTrie_step.
      destruct (skipped s) eqn:Hs; [by apply Hoare_ret|].
      eapply Hoare_bind; [apply Hoare_readNode|]. intros [[node el] ty] _.
      destruct ty; try apply Hoare_throw.
      * eapply Hoare_bind; [apply Hoare_lift|]. intros lk _.
        destruct (isWatchedStorageKey watched lk) eqn:Hw; [|by apply Hoare_ret].
        apply Hoare_emit. exists s. do 3 (split; [done|]). left. split; [done|].
        by apply isWatchedStorageKey_spec.
      * destruct inter; [|by apply Hoare_ret]. apply Hoare_emit. exists s.
        do 3 (split; [done|]). right. auto.
      * destruct inter; [|by apply Hoare_ret]. apply Hoare_emit. exists s.
        do 3 (split; [done|]). right. auto.
    + by apply Forall_forall.
  - intros _ _. by apply Hoare_iterError.
Qed.

Lemma buildStorageNodesFromTrie_step_all env output s tr tr' u :
  buildStorageNodesFromTrie_step env [] true output tt s tr = (tr', inl u) ->
  exists ext, tr' = tr ++ ext /\ map sPath ext = if skipped s then [] else [st_Path s].
Proof.
  unfold buildStorageNodesFromTrie_step. intros H.
  destruct (skipped s) eqn:Hs; [unfold ret in H; simplify_eq; exists []; by rewrite app_nil_r|].
  unfold readNode, bind, lift, ret, throw, emit in H. cbv beta iota zeta in H.
  destruct (NodeOf env (st_Hash s)) as [node|e]; [|discriminate].
  destruct (DecodeElements env node) as [el|e]; [|discriminate].
  destruct (CheckKeyType el) as [ty|e]; [|discriminate].
  destruct ty; try discriminate.
  - destruct (leafKeyOf (st_Path s) el) as [lk|e]; [|discriminate]. simpl in H.
    case_match; simplify_eq. by eexists.
  - case_match; simplify_eq. by eexists.
  - case_match; simplify_eq. by eexists.
Qed.

(** X3: With no watched keys and intermediate nodes requested, a successful
    [buildStorageNodesEventual] sends nothing for an empty storage root and
    otherwise one record per visited node of the storage trie that is not a
    value node and whose hash is not all zeros, at the node's path, in
    iteration order. *)
Theorem buildStorageNodesEventual_all_nodes (env : Env) (sr : Hash)
    (output : Sink StorageNode) (tr tr' : list StorageNode) (u : unit) :
  buildStorageNodesEventual env sr [] true output tr = (tr', inl u) ->
  exists ext, tr' = tr ++ ext /\
    if bytes_Equal sr (emptyContractRoot env) then ext = []
    else exists it, OpenTrie env sr = inl it /\
           map sPath ext = map st_Path (filter (fun s => skipped s = false) (it_steps it)).
Proof.
  unfold buildStorageNodesEventual. intros H.
  destruct (bytes_Equal sr (emptyContractRoot env)).
  { unfold ret in H. simplify_eq. exists []. by rewrite app_nil_r. }
  apply bind_inl in H as (tr1 & it & H1 & H2). unfold lift in H1. simplify_eq.
  unfold buildStorageNodesFromTrie in H2. apply bind_inl in H2 as (tr2 & [] & H3 & H4).
  unfold iterError in H4. destruct (it_Error it); [discriminate|]. unfold ret in H4. simplify_eq.
  assert (Hfold : forall l tr1 tr2,
            foldM (buildStorageNodesFromTrie_step env [] true output) l tt tr1 = (tr2, inl tt) ->
            exists ext, tr2 = tr1 ++ ext /\
              map sPath ext = map st_Path (filter (fun s => skipped s = false) l)).
  { clear. intros l. induction l as [|s l IH]; intros tr1 tr2 H3; simpl in H3.
    { unfold ret in H3. simplify_eq. exists []. by rewrite app_nil_r. }
    apply bind_inl in H3 as (tr3 & [] & H5 & H6).
    apply buildStorageNodesFromTrie_step_all in H5 as (e1 & -> & He1).
    destruct (IH _ _ H6) as (e2 & -> & He2).
    exists (e1 ++ e2). rewrite app_assoc. split; [done|].
    rewrite map_app, He1, He2, filter_cons. by destruct (skipped s). }
  destruct (Hfold _ _ _ H3) as (ext & -> & Hext). exists ext. split; [done|]. by exists it.
Qed.

(** Two computations in sequence: the records of the first, then those of
    the second, which runs only once the first has returned. *)
Lemma Hoare_seq {R A B} (Q1 : R -> Prop) (Q2 : A -> R -> Prop) (P1 : A -> Prop)
    (m : M R A) (k : A -> M R B) tr tr' r :
  Hoare Q1 m P1 -> (forall a, P1 a -> Hoare (Q2 a) (k a) (fun _ => True)) ->
  bind m k tr = (tr', r) ->
  exists e1 e2, tr' = tr ++ e1 ++ e2 /\ Forall Q1 e1 /\
    (e2 = [] \/ exists a, P1 a /\ Forall (Q2 a) e2).
Proof.
  intros Hm Hk H. unfold bind in H. destruct (m tr) as [tr1 [a|e]] eqn:E.
  - destruct (Hm _ _ _ E) as [(e1 & -> & F1) HP]. specialize (HP a eq_refl).
    destruct (Hk a HP _ _ _ H) as [(e2 & -> & F2) _].
    exists e1, e2. split; [by rewrite app_assoc|]. split; [done|]. right. eauto.
  - simplify_eq. destruct (Hm _ _ _ E) as [(e1 & -> & F1) _].
    exists e1, []. rewrite app_nil_r. auto.
Qed.

(** The B-side storage pass sends no [Removed] record, only records at the
    paths of the nodes it visits, and returns the hex paths of all of them. *)
Lemma createdAndUpdatedStorage_hoare env a b watched inter output :
  Hoare (fun n => sNodeType n <> Removed /\
           exists s, s ∈ it_steps (NewDifferenceIterator a b) /\ skipped s = false /\
                     sPath n = st_Path s)
    (createdAndUpdatedStorage env a b watched inter output)
    (fun P => forall s, s ∈ it_steps (NewDifferenceIterator a b) -> skipped s = false ->
              Bytes2Hex (st_Path s) ∈ P).
Proof.
  unfold createdAndUpdatedStorage. cbv zeta. eapply Hoare_bind.
  - refine (Hoare_foldM _ _
      (fun done P => forall s, s ∈ done -> skipped s = false -> Bytes2Hex (st_Path s) ∈ P)
      (fun s => s ∈ it_steps (NewDifferenceIterator a b)) _ _ [] ∅ _ _).
    + intros done P s HI Hin. unfold createdAndUpdatedStorage_step.
      destruct (skipped s) eqn:Hs.
      { apply Hoare_ret. intros s' Hs' Hk. apply elem_of_app in Hs' as [Hs'|Hs']; [by apply HI|].
        apply list_elem_of_singleton in Hs'. subst. congruence. }
      eapply Hoare_bind; [apply Hoare_readNode|]. intros [[node el] ty] _.
      eapply (Hoare_bind _ _ _ (fun _ => True)).
      * destruct ty; try apply Hoare_throw.
        -- eapply Hoare_bind; [apply Hoare_lift|]. intros lk _.
           case_match; [|by apply Hoare_ret]. apply Hoare_emit. split; [done|]. by exists s.
        -- case_match; [|by apply Hoare_ret]. apply Hoare_emit. split; [done|]. by exists s.
        -- case_match; [|by apply Hoare_ret]. apply Hoare_emit. split; [done|]. by exists s.
      * intros _ _. apply Hoare_ret. intros s' Hs' Hk.
        apply elem_of_app in Hs' as [Hs'|Hs']; [specialize (HI s' Hs' Hk); set_solver|].
        apply list_elem_of_singleton in Hs'. subst. set_solver.
    + by apply Forall_forall.
    + intros s Hs. by apply not_elem_of_nil in Hs.
  - intros P HP. by apply Hoare_iterError.
Qed.

(** The A-side storage pass sends only [Removed] records with an empty value,
    at paths whose hex is not in [diffPathsAtB]. *)
Lemma deletedOrUpdatedStorage_hoare env a b P watched inter output :
  Hoare (fun n => sNodeType n = Removed /\ sNodeValue n = [] /\ Bytes2Hex (sPath n) ∉ P)
    (deletedOrUpdatedStorage env a b P watched inter output) (fun _ => True).
Proof.
  unfold deletedOrUpdatedStorage. cbv zeta. eapply Hoare_bind.
  - refine (Hoare_foldM _ _ (fun _ _ => True) (fun _ => True) _ _ [] tt _ I).
    + intros done [] s _ _. unfold deletedOrUpdatedStorage_step.
      destruct (skipped s); [by apply Hoare_ret|].
      case_bool_decide as Hp; [by apply Hoare_ret|].
      eapply Hoare_bind; [apply Hoare_readNode|]. intros [[node el] ty] _.
      destruct ty; try apply Hoare_throw.
      * eapply Hoare_bind; [apply Hoare_lift|]. intros lk _.
        case_match; [|by apply Hoare_ret]. by apply Hoare_emit.
      * case_match; [|by apply Hoare_ret]. by apply Hoare_emit.
      * case_match; [|by apply Hoare_ret]. by apply Hoare_emit.
    + by apply Forall_forall.
  - intros _ _. by apply Hoare_iterError.
Qed.

(** X4: [buildStorageNodesIncremental] sends the records of the new storage trie
    first (each at the path of a node, not skipped, that the difference
    iterator of the new storage trie against the old one visits), none of
    them [Removed], then only [Removed] records with an empty
    value; no [Removed] record has the hex path of a record sent before it.
    This holds for every run, also one that fails part way. *)
Theorem buildStorageNodesIncremental_removed_after (env : Env) (oldSR newSR : Hash)
    (watched : list Hash) (inter : bool) (output : Sink StorageNode)
    (tr tr' : list StorageNode) (r : unit + error) :
  buildStorageNodesIncremental env oldSR newSR watched inter output tr = (tr', r) ->
  exists e1 e2, tr' = tr ++ e1 ++ e2 /\
    Forall (fun n => sNodeType n <> Removed /\
              exists oldTrie newTrie s, OpenTrie env oldSR = inl oldTrie /\
                OpenTrie env newSR = inl newTrie /\
                s ∈ it_steps (NewDifferenceIterator oldTrie newTrie) /\
                skipped s = false /\ sPath n = st_Path s) e1 /\
    Forall (fun n => sNodeType n = Removed /\ sNodeValue n = []) e2 /\
    forall n1 n2, n1 ∈ e1 -> n2 ∈ e2 -> Bytes2Hex (sPath n1) <> Bytes2Hex (sPath n2).
Proof.
  unfold buildStorageNodesIncremental. intros H.
  assert (Hnil : tr' = tr -> exists e1 e2 : list StorageNode, tr' = tr ++ e1 ++ e2 /\
    Forall (fun n => sNodeType n <> Removed /\
              exists oldTrie newTrie s, OpenTrie env oldSR = inl oldTrie /\
                OpenTrie env newSR = inl newTrie /\
                s ∈ it_steps (NewDifferenceIterator oldTrie newTrie) /\
                skipped s = false /\ sPath n = st_Path s) e1 /\
    Forall (fun n => sNodeType n = Removed /\ sNodeValue n = []) e2 /\
    forall n1 n2, n1 ∈ e1 -> n2 ∈ e2 -> Bytes2Hex (sPath n1) <> Bytes2Hex (sPath n2)).
  { intros ->. exists [], []. rewrite app_nil_r. repeat split; try constructor.
    intros n1 n2 Hn1. by apply not_elem_of_nil in Hn1. }
  destruct (bytes_Equal newSR oldSR); [unfold ret in H; simplify_eq; by apply Hnil|].
  unfold bind at 1, lift at 1 in H. destruct (OpenTrie env oldSR) as [ot|e] eqn:Eo;
    [|simplify_eq; by apply Hnil].
  unfold bind at 1, lift at 1 in H. destruct (OpenTrie env newSR) as [nt|e] eqn:En;
    [|simplify_eq; by apply Hnil].
  destruct (Hoare_seq _ (fun P n => sNodeType n = Removed /\ sNodeValue n = [] /\
                                    Bytes2Hex (sPath n) ∉ P) _ _ _ _ _ _
              (createdAndUpdatedStorage_hoare env ot nt watched inter output)
              (fun P _ => deletedOrUpdatedStorage_hoare env ot nt P watched inter output) H)
    as (e1 & e2 & -> & F1 & He2).
  exists e1, e2. split; [done|].
  split; [eapply Forall_impl; [exact F1|]; intros n (? & s & ? & ? & ?); split; [done|];
          by exists ot, nt, s|].
  destruct He2 as [->|(P & HP & F2)].
  { split; [constructor|]. intros n1 n2 _ Hn2. by apply not_elem_of_nil in Hn2. }
  split; [eapply Forall_impl; [exact F2|]; by intros ? (? & ? & _)|].
  intros n1 n2 Hn1 Hn2 Heq.
  rewrite Forall_forall in F1, F2. destruct (F1 n1 Hn1) as (_ & s & Hs & Hsk & Hp).
  destruct (F2 n2 Hn2) as (_ & _ & Hnot). apply Hnot. rewrite <- Heq, Hp. by apply HP.
Qed.

(** X5: [WriteStateDiffObject], whichever variant the parameters select, fails
    at once, sending nothing, when a state root cannot be opened: first the
    old root, with the message "error creating trie for oldStateRoot", then
    the new one, with "error creating trie for newStateRoot". *)
Theorem WriteStateDiffObject_open_error (env : Env) (rt : GoRuntime) (args : StateRoots)
    (params : Params) (output : Sink StateNode) (tr : list StateNode) :
  (forall e, OpenTrie env (OldStateRoot args) = inr e ->
     WriteStateDiffObject env rt args params output tr =
       (tr, inr (Errorf "error creating trie for oldStateRoot" e))) /\
  (forall t e, OpenTrie env (OldStateRoot args) = inl t -> OpenTrie env (NewStateRoot args) = inr e ->
     WriteStateDiffObject env rt args params output tr =
       (tr, inr (Errorf "error creating trie for newStateRoot" e))).
Proof.
  split.
  - intros e He. unfold WriteStateDiffObject, buildStateDiffWithoutIntermediateStateNodes,
      buildStateDiffWithIntermediateStateNodes, openTrie, bind, throw.
    rewrite He. by case_match.
  - intros t e Ht He. unfold WriteStateDiffObject, buildStateDiffWithoutIntermediateStateNodes,
      buildStateDiffWithIntermediateStateNodes, openTrie, bind, throw, ret.
    rewrite Ht, He. by case_match.
Qed.

(** X6: A successful [buildAccountUpdates] takes exactly the updated keys out of
    both account maps it is given and leaves every other entry as it was. *)
Theorem buildAccountUpdates_deletes (env : Env) (B A : AccountMap) (keys : list string)
    (wsk : list Hash) (inter : bool) (output : Sink StateNode) (tr tr' : list StateNode)
    (B' A' : AccountMap) :
  buildAccountUpdates env B A keys wsk inter output tr = (tr', inl (B', A')) ->
  forall j, B' !! j = (if decide (j ∈ keys) then None else B !! j) /\
            A' !! j = (if decide (j ∈ keys) then None else A !! j).
Proof.
  revert B A tr. induction keys as [|k keys IH]; intros B A tr H j; simpl in H.
  { unfold ret in H. simplify_eq. rewrite decide_False by apply not_elem_of_nil. done. }
  apply bind_inl in H as (tr1 & sd & _ & H2).
  apply bind_inl in H2 as (tr2 & [] & _ & H4).
  destruct (IH _ _ _ H4 j) as [HB HA]. rewrite HB, HA.
  destruct (decide (j = k)) as [->|Hne].
  - rewrite !lookup_delete_eq.
    destruct (decide (k ∈ k :: keys)) as [_|Hc]; [|destruct Hc; apply list_elem_of_here].
    by destruct (decide (k ∈ keys)).
  - rewrite !lookup_delete_ne by congruence.
    destruct (decide (j ∈ keys)) as [Hj|Hj];
      destruct (decide (j ∈ k :: keys)) as [Hj'|Hj']; try done.
    + destruct Hj'. by apply list_elem_of_further.
    + apply elem_of_cons in Hj' as [?|?]; [congruence|done].
Qed.

(** X7: A successful [buildAccountUpdates] over distinct keys sends, in the
    order of the keys, one record per key built from the entries the two
    maps it was given hold at that key (the zero value where a map has
    none): the entry of [creations] with, when both entries carry an
    account, the incremental storage diff between their storage roots. *)
Theorem buildAccountUpdates_records (env : Env) (B A : AccountMap) (keys : list string)
    (wsk : list Hash) (inter : bool) (output : Sink StateNode) (tr tr' : list StateNode)
    (B' A' : AccountMap) :
  NoDup keys ->
  buildAccountUpdates env B A keys wsk inter output tr = (tr', inl (B', A')) ->
  tr' = tr ++ map (fun k => updateRecord env wsk inter (lookup0 B k) (lookup0 A k)) keys.
Proof.
  revert B A tr. induction keys as [|k keys IH]; intros B A tr Hnd H; simpl in H.
  { unfold ret in H. simplify_eq. by rewrite app_nil_r. }
  apply NoDup_cons in Hnd as [Hk Hnd].
  apply bind_inl in H as (tr1 & sd & H1 & H2).
  apply bind_inl in H2 as (tr2 & [] & H3 & H4). apply emit_inl in H3 as [-> _].
  assert (tr1 = tr /\ sd = StorageNodes (updateRecord env wsk inter (lookup0 B k) (lookup0 A k)))
    as [-> ->].
  { unfold updateRecord. simpl.
    destruct (aw_Account (lookup0 A k)), (aw_Account (lookup0 B k));
      unfold ret, throw in H1; try (simplify_eq; done).
    destruct (collect _) as [sds [u|e]]; simplify_eq; done. }
  rewrite (IH _ _ _ Hnd H4), <- app_assoc. simpl. f_equal. f_equal.
  apply map_ext_in. intros k' Hk'.
  assert (k' <> k) by (intros ->; apply Hk; by apply list_elem_of_In).
  unfold lookup0. by rewrite !lookup_delete_ne by congruence.
Qed.

(** X8: The account maps of Passes 1 and 2 ([createdAndUpdatedState], its
    variant with intermediate nodes, and [deletedOrUpdatedState]) hold only
    leaves with a decoded account, each filed under the hex encoding of its
    leaf key and taken from a visited node of the difference iterator (new
    against old for Pass 1, old against new for Pass 2) that is not a value
    node and whose hash is not all zeros. *)
Theorem accountMaps_entries (env : Env) (a b : NodeIterator) (watched : list bytes)
    (pathsB : gset string) (output : Sink StateNode) :
  Hoare (fun _ => True) (createdAndUpdatedState env a b watched)
    (fun acc => map_Forall (accountEntryFrom (it_steps (NewDifferenceIterator a b))) acc.1) /\
  Hoare (fun _ => True) (createdAndUpdatedStateWithIntermediateNodes env a b output)
    (fun acc => map_Forall (accountEntryFrom (it_steps (NewDifferenceIterator a b))) acc.1) /\
  Hoare (fun _ => True) (deletedOrUpdatedState env a b pathsB output)
    (map_Forall (accountEntryFrom (it_steps (NewDifferenceIterator b a)))).
Proof.
  assert (Hins : forall steps s (m : AccountMap) lk p node acct,
            map_Forall (accountEntryFrom steps) m -> s ∈ steps -> skipped s = false ->
            p = st_Path s ->
            map_Forall (accountEntryFrom steps)
              (<[Bytes2Hex lk := {| aw_NodeType := Leaf; aw_Path := p; aw_NodeValue := node;
                                    aw_LeafKey := lk; aw_Account := Some acct |}]> m)).
  { intros steps s m lk p node acct Hm Hs Hk ->. apply map_Forall_insert_2; [|done].
    split; [done|]. split; [done|]. split; [by eexists|]. by exists s. }
  split; [|split].
  - unfold createdAndUpdatedState. cbv zeta. eapply Hoare_bind.
    + refine (Hoare_foldM _ _ (fun _ acc => map_Forall (accountEntryFrom
                 (it_steps (NewDifferenceIterator a b))) acc.1)
                (fun s => s ∈ it_steps (NewDifferenceIterator a b)) _ _ [] (∅, ∅) _ _);
        [|by apply Forall_forall|apply map_Forall_empty].
      intros done [accB paths] s HI Hin. unfold createdAndUpdatedState_step.
      destruct (skipped s) eqn:Hs; [by apply Hoare_ret|]. simpl in HI.
      eapply Hoare_bind; [apply Hoare_readNode|]. intros [[node el] ty] _.
      apply (Hoare_bind _ _ _ (map_Forall (accountEntryFrom (it_steps (NewDifferenceIterator a b))))).
      * destruct ty; try (by apply Hoare_ret).
        eapply Hoare_bind; [apply Hoare_decodeAccount|]. intros acct _.
        eapply Hoare_bind; [apply Hoare_lift|]. intros k _.
        case_match; apply Hoare_ret; [|done]. by eapply Hins.
      * intros m Hm. by apply Hoare_ret.
    + intros acc HI. by apply Hoare_iterError.
  - unfold createdAndUpdatedStateWithIntermediateNodes. cbv zeta. eapply Hoare_bind.
    + refine (Hoare_foldM _ _ (fun _ acc => map_Forall (accountEntryFrom
                 (it_steps (NewDifferenceIterator a b))) acc.1)
                (fun s => s ∈ it_steps (NewDifferenceIterator a b)) _ _ [] (∅, ∅) _ _);
        [|by apply Forall_forall|apply map_Forall_empty].
      intros done [accB paths] s HI Hin. unfold createdAndUpdatedStateWithIntermediateNodes_step.
      destruct (skipped s) eqn:Hs; [by apply Hoare_ret|]. simpl in HI.
      eapply Hoare_bind; [apply Hoare_readNode|]. intros [[node el] ty] _.
      apply (Hoare_bind _ _ _ (map_Forall (accountEntryFrom (it_steps (NewDifferenceIterator a b))))).
      * destruct ty; try (by apply Hoare_throw).
        -- eapply Hoare_bind; [apply Hoare_decodeAccount|]. intros acct _.
           eapply Hoare_bind; [apply Hoare_lift|]. intros k _.
           apply Hoare_ret. by eapply Hins.
        -- eapply Hoare_bind; [by apply Hoare_emit|]. intros _ _. by apply Hoare_ret.
        -- eapply Hoare_bind; [by apply Hoare_emit|]. intros _ _. by apply Hoare_ret.
      * intros m Hm. by apply Hoare_ret.
    + intros acc HI. by apply Hoare_iterError.
  - unfold deletedOrUpdatedState. cbv zeta. eapply Hoare_bind.
    + refine (Hoare_foldM _ _ (fun _ m => map_Forall (accountEntryFrom
                 (it_steps (NewDifferenceIterator b a))) m)
                (fun s => s ∈ it_steps (NewDifferenceIterator b a)) _ _ [] ∅ _ _);
        [|by apply Forall_forall|apply map_Forall_empty].
      intros done m s HI Hin. unfold deletedOrUpdatedState_step.
      destruct (skipped s) eqn:Hs; [by apply Hoare_ret|].
      eapply (Hoare_bind _ _ _ (fun _ => True)).
      { case_bool_decide; [by apply Hoare_ret|by apply Hoare_emit]. }
      intros _ _. eapply Hoare_bind; [apply Hoare_readNode|]. intros [[node el] ty] _.
      destruct ty; try (by apply Hoare_throw); try (by apply Hoare_ret).
      eapply Hoare_bind; [apply Hoare_decodeAccount|]. intros acct _.
      eapply Hoare_bind; [apply Hoare_lift|]. intros k _.
      apply Hoare_ret. by eapply Hins.
    + intros acc HI. by apply Hoare_iterError.
Qed.

(** X9: [createdAndUpdatedStateWithIntermediateNodes] sends only extension and
    branch records, with no leaf key and no storage nodes, each at the path
    of a visited node of the difference iterator that is not a value node
    and whose hash is not all zeros; on success the path set it returns
    holds the hex path of every such node. *)
Theorem createdAndUpdatedStateWithIntermediateNodes_records (env : Env) (a b : NodeIterator)
    (output : Sink StateNode) :
  Hoare (fun n => (NodeType_ n = Extension \/ NodeType_ n = Branch) /\ LeafKey n = [] /\
           StorageNodes n = [] /\
           exists s, s ∈ it_steps (NewDifferenceIterator a b) /\ skipped s = false /\
                     Path n = st_Path s)
    (createdAndUpdatedStateWithIntermediateNodes env a b output)
    (fun acc => forall s, s ∈ it_steps (NewDifferenceIterator a b) -> skipped s = false ->
                Bytes2Hex (st_Path s) ∈ acc.2).
Proof.
  unfold createdAndUpdatedStateWithIntermediateNodes. cbv zeta. eapply Hoare_bind.
  - refine (Hoare_foldM _ _
      (fun done acc => forall s, s ∈ done -> skipped s = false -> Bytes2Hex (st_Path s) ∈ acc.2)
      (fun s => s ∈ it_steps (NewDifferenceIterator a b)) _ _ [] (∅, ∅) _ _).
    + intros done [accB paths] s HI Hin. unfold createdAndUpdatedStateWithIntermediateNodes_step.
      destruct (skipped s) eqn:Hs.
      { apply Hoare_ret. intros s' Hs' Hk. apply elem_of_app in Hs' as [Hs'|Hs']; [by apply HI|].
        apply list_elem_of_singleton in Hs'. subst. congruence. }
      eapply Hoare_bind; [apply Hoare_readNode|]. intros [[node el] ty] _.
      eapply (Hoare_bind _ _ _ (fun _ => True)).
      * destruct ty; try apply Hoare_throw.
        -- eapply Hoare_bind; [apply Hoare_decodeAccount|]. intros acct _.
           eapply Hoare_bind; [apply Hoare_lift|]. intros k _. by apply Hoare_ret.
        -- eapply Hoare_bind; [apply Hoare_emit|intros _ _; by apply Hoare_ret].
           simpl. split; [auto|]. do 2 (split; [done|]). by exists s.
        -- eapply Hoare_bind; [apply Hoare_emit|intros _ _; by apply Hoare_ret].
           simpl. split; [auto|]. do 2 (split; [done|]). by exists s.
      * intros m _. apply Hoare_ret. intros s' Hs' Hk. simpl in HI |- *.
        apply elem_of_app in Hs' as [Hs'|Hs']; [specialize (HI s' Hs' Hk); set_solver|].
        apply list_elem_of_singleton in Hs'. subst. set_solver.
    + by apply Forall_forall.
    + intros s Hs. by apply not_elem_of_nil in Hs.
  - intros acc HP. by apply Hoare_iterError.
Qed.

Lemma BuildStateTrieObject_nodes_witness :
  BuildStateTrieObject Demo.env Demo.block12 =
    ((BuildStateTrieObject Demo.env Demo.block12).1, None) /\
  so_BlockNumber (BuildStateTrieObject Demo.env Demo.block12).1 = b_Number Demo.block12 /\
  so_BlockHash (BuildStateTrieObject Demo.env Demo.block12).1 = b_Hash Demo.block12 /\
  exists it outs, OpenTrie Demo.env (b_Root Demo.block12) = inl it /\ it_Error it = None /\
    Forall2 (fun s o => trieNodeOutcome Demo.env s o.1 o.2)
      (filter (fun s => skipped s = false) (it_steps it)) outs /\
    so_Nodes (BuildStateTrieObject Demo.env Demo.block12).1 = map fst outs /\
    so_CodeAndCodeHashes (BuildStateTrieObject Demo.env Demo.block12).1 = concat (map snd outs).
Proof.
  assert (H : BuildStateTrieObject Demo.env Demo.block12 =
                ((BuildStateTrieObject Demo.env Demo.block12).1, None))
    by (vm_compute; reflexivity).
  split; [exact H|].
  exact (BuildStateTrieObject_nodes Demo.env Demo.block12 _ H).
Defined.

Lemma buildStorageNodesEventual_all_nodes_witness :
  buildStorageNodesEventual Demo.env [10] [] true storageNodeAppender [] =
    ([{| sNodeType := Leaf; sPath := []; sLeafKey := [9; 238]; sNodeValue := [11] |}], inl tt) /\
  exists ext, [{| sNodeType := Leaf; sPath := []; sLeafKey := [9; 238]; sNodeValue := [11] |}]
                = [] ++ ext /\
    if bytes_Equal [10] (emptyContractRoot Demo.env) then ext = []
    else exists it, OpenTrie Demo.env [10] = inl it /\
           map sPath ext = map st_Path (filter (fun s => skipped s = false) (it_steps it)).
Proof.
  assert (H : buildStorageNodesEventual Demo.env [10] [] true storageNodeAppender [] =
    ([{| sNodeType := Leaf; sPath := []; sLeafKey := [9; 238]; sNodeValue := [11] |}], inl tt))
    by (vm_compute; reflexivity).
  split; [exact H|]. exact (buildStorageNodesEventual_all_nodes _ _ _ _ _ _ H).
Defined.

Lemma buildStorageNodesIncremental_removed_after_witness :
  buildStorageNodesIncremental Demo.env [1] [2] [] true storageNodeAppender [] =
    ((buildStorageNodesIncremental Demo.env [1] [2] [] true storageNodeAppender []).1, inl tt) /\
  exists e1 e2,
    (buildStorageNodesIncremental Demo.env [1] [2] [] true storageNodeAppender []).1
      = [] ++ e1 ++ e2 /\
    Forall (fun n => sNodeType n <> Removed /\
              exists oldTrie newTrie s, OpenTrie Demo.env [1] = inl oldTrie /\
                OpenTrie Demo.env [2] = inl newTrie /\
                s ∈ it_steps (NewDifferenceIterator oldTrie newTrie) /\
                skipped s = false /\ sPath n = st_Path s) e1 /\
    Forall (fun n => sNodeType n = Removed /\ sNodeValue n = []) e2 /\
    forall n1 n2, n1 ∈ e1 -> n2 ∈ e2 -> Bytes2Hex (sPath n1) <> Bytes2Hex (sPath n2).
Proof.
  assert (H : buildStorageNodesIncremental Demo.env [1] [2] [] true storageNodeAppender [] =
    ((buildStorageNodesIncremental Demo.env [1] [2] [] true storageNodeAppender []).1, inl tt))
    by (vm_compute; reflexivity).
  split; [exact H|]. exact (buildStorageNodesIncremental_removed_after _ _ _ _ _ _ _ _ _ H).
Defined.

Lemma WriteStateDiffObject_open_error_witness :
  OpenTrie Demo.env [99] = inr (ErrValue 404) /\
  WriteStateDiffObject Demo.env Demo.rt {| OldStateRoot := [99]; NewStateRoot := [2] |}
    (Demo.params true []) stateNodeAppender [] =
    ([], inr (Errorf "error creating trie for oldStateRoot" (ErrValue 404))).
Proof.
  split; [reflexivity|].
  apply (WriteStateDiffObject_open_error Demo.env Demo.rt
           {| OldStateRoot := [99]; NewStateRoot := [2] |} (Demo.params true []) stateNodeAppender []).
  reflexivity.
Defined.

Lemma buildAccountUpdates_deletes_witness :
  buildAccountUpdates Demo.env (Demo.diffB Demo.old_trie Demo.new_trie)
    (Demo.diffA Demo.old_trie Demo.new_trie) ["0aee"] [] true stateNodeAppender [] =
    ((buildAccountUpdates Demo.env (Demo.diffB Demo.old_trie Demo.new_trie)
        (Demo.diffA Demo.old_trie Demo.new_trie) ["0aee"] [] true stateNodeAppender []).1,
     inl (delete "0aee" (Demo.diffB Demo.old_trie Demo.new_trie),
          delete "0aee" (Demo.diffA Demo.old_trie Demo.new_trie))) /\
  forall j, delete "0aee" (Demo.diffB Demo.old_trie Demo.new_trie) !! j =
              (if decide (j ∈ ["0aee"]) then None else Demo.diffB Demo.old_trie Demo.new_trie !! j) /\
            delete "0aee" (Demo.diffA Demo.old_trie Demo.new_trie) !! j =
              (if decide (j ∈ ["0aee"]) then None else Demo.diffA Demo.old_trie Demo.new_trie !! j).
Proof.
  assert (H : buildAccountUpdates Demo.env (Demo.diffB Demo.old_trie Demo.new_trie)
    (Demo.diffA Demo.old_trie Demo.new_trie) ["0aee"] [] true stateNodeAppender [] =
    ((buildAccountUpdates Demo.env (Demo.diffB Demo.old_trie Demo.new_trie)
        (Demo.diffA Demo.old_trie Demo.new_trie) ["0aee"] [] true stateNodeAppender []).1,
     inl (delete "0aee" (Demo.diffB Demo.old_trie Demo.new_trie),
          delete "0aee" (Demo.diffA Demo.old_trie Demo.new_trie)))) by (vm_compute; reflexivity).
  split; [exact H|]. exact (buildAccountUpdates_deletes _ _ _ _ _ _ _ _ _ _ _ H).
Defined.

Lemma buildAccountUpdates_records_witness :
  NoDup ["0aee"] /\
  buildAccountUpdates Demo.env (Demo.diffB Demo.old_trie Demo.new_trie)
    (Demo.diffA Demo.old_trie Demo.new_trie) ["0aee"] [] true stateNodeAppender [] =
    ((buildAccountUpdates Demo.env (Demo.diffB Demo.old_trie Demo.new_trie)
        (Demo.diffA Demo.old_trie Demo.new_trie) ["0aee"] [] true stateNodeAppender []).1,
     inl (delete "0aee" (Demo.diffB Demo.old_trie Demo.new_trie),
          delete "0aee" (Demo.diffA Demo.old_trie Demo.new_trie))) /\
  (buildAccountUpdates Demo.env (Demo.diffB Demo.old_trie Demo.new_trie)
     (Demo.diffA Demo.old_trie Demo.new_trie) ["0aee"] [] true stateNodeAppender []).1 =
    [] ++ map (fun k => updateRecord Demo.env [] true
                          (lookup0 (Demo.diffB Demo.old_trie Demo.new_trie) k)
                          (lookup0 (Demo.diffA Demo.old_trie Demo.new_trie) k)) ["0aee"].
Proof.
  assert (Hnd : NoDup ["0aee"]) by (apply NoDup_singleton).
  assert (H : buildAccountUpdates Demo.env (Demo.diffB Demo.old_trie Demo.new_trie)
    (Demo.diffA Demo.old_trie Demo.new_trie) ["0aee"] [] true stateNodeAppender [] =
    ((buildAccountUpdates Demo.env (Demo.diffB Demo.old_trie Demo.new_trie)
        (Demo.diffA Demo.old_trie Demo.new_trie) ["0aee"] [] true stateNodeAppender []).1,
     inl (delete "0aee" (Demo.diffB Demo.old_trie Demo.new_trie),
          delete "0aee" (Demo.diffA Demo.old_trie Demo.new_trie)))) by (vm_compute; reflexivity).
  split; [exact Hnd|]. split; [exact H|]. exact (buildAccountUpdates_records _ _ _ _ _ _ _ _ _ _ _ Hnd H).
Defined.

(* ------------------------------------------------------------------ *)
(** ** The mock state diff service *)

Import Mocks.

Ltac svc_unfold :=
  unfold mbind, mret, Svc_bind, Svc_ret, Lock, Unlock, gets, modify, assignSub, deleteSub,
    subs_of in *.

(** X10: Subscribing an id and then unsubscribing it, from an unlocked service
    with a (non-nil) subscription map, returns nil and leaves the service
    unlocked with the id's entry removed and the other entries as before. *)
Theorem Subscribe_Unsubscribe (s : MockStateDiffService) (m : gmap string Subscription)
    (id : string) (sub : Subscription) :
  mu_locked s = false -> Subscriptions s = Some m ->
  (Subscribe id sub ;; Unsubscribe id) s = Done (set_subs (Some (delete id m)) s) None.
Proof.
  destruct s as [lk subs sb bc pbc qc chs]; simpl. intros -> ->.
  unfold Subscribe, Unsubscribe. svc_unfold. simpl.
  rewrite lookup_insert_eq. simpl. by rewrite delete_insert_eq.
Qed.

(** X11: [Unsubscribe] of an id that has no subscription returns an error and
    leaves the mutex held: every later [Subscribe], [Unsubscribe], [send] or
    [close] then blocks. *)
Theorem Unsubscribe_unknown_keeps_lock (rt : SubsRuntime) (s : MockStateDiffService)
    (id : string) :
  mu_locked s = false -> subs_of s !! id = None ->
  exists e, Unsubscribe id s = Done (set_locked true s) (Some e) /\
    forall id' sub p,
      Subscribe id' sub (set_locked true s) = Blocked /\
      Unsubscribe id' (set_locked true s) = Blocked /\
      send rt p (set_locked true s) = Blocked /\
      close rt (set_locked true s) = Blocked.
Proof.
  intros Hl Hid. unfold Unsubscribe. svc_unfold. rewrite Hl. simpl. rewrite Hid.
  eexists. split; [reflexivity|]. intros id' sub p.
  unfold Subscribe, Unsubscribe, send, close. svc_unfold. simpl. auto.
Qed.

(** X12: Calling [Stop] twice always panics: the second call closes the quit
    channel the first one closed, unless the first call already panicked on
    a nil or closed quit channel. *)
Theorem Stop_twice_panics (s : MockStateDiffService) :
  (Stop ;; Stop) s = Panic.
Proof.
  destruct s as [lk subs sb bc pbc qc chs].
  unfold Stop, closeChan. svc_unfold. simpl.
  destruct qc as [c|]; [|done].
  case_bool_decide; [done|]. simpl. case_bool_decide as Hc; [done|]. set_solver.
Qed.

Lemma Svc_bind_Done {A B} (m : Svc A) (k : A -> Svc B) s s' a :
  m s = Done s' a -> (m ≫= k) s = k a s'.
Proof. intros H. unfold mbind, Svc_bind. by rewrite H. Qed.

Lemma set_channels_channels s : set_channels (channels s) s = s.
Proof. by destruct s. Qed.

Lemma set_channels_twice c1 c2 s : set_channels c2 (set_channels c1 s) = set_channels c2 s.
Proof. by destruct s. Qed.

(** A [select] send on a channel that is nil or open: it takes the value
    when the channel has room, and otherwise falls through to [default]. *)
Lemma trySend_open (c' : chan) (m : message) s :
  (forall c, c' = Some c -> c ∉ ch_closed (channels s)) ->
  trySend c' m s = Done s false \/
  exists c n, c' = Some c /\ ch_room (channels s) !! c = Some (S n) /\
    trySend c' m s = Done (set_channels {| ch_room := <[c:=n]> (ch_room (channels s));
                                           ch_closed := ch_closed (channels s);
                                           ch_sent := ch_sent (channels s) ++ [(c, m)] |} s) true.
Proof.
  intros Hc. unfold trySend. destruct c' as [c|]; [|by left].
  rewrite bool_decide_false by by apply Hc.
  destruct (ch_room (channels s) !! c) as [[|n]|] eqn:Er; [by left| |by left].
  right. by exists c, n.
Qed.

(** The loop of [send]: each subscription's payload channel that is ready
    takes the payload, the others are skipped. *)
Lemma forEach_send (p : Payload) (l : list (string * Subscription)) s0 :
  (forall kv c, kv ∈ l -> PayloadChan kv.2 = Some c -> c ∉ ch_closed (channels s0)) ->
  exists ch' cs,
    forEach (fun kv : string * Subscription =>
               _ ← trySend (PayloadChan kv.2) (MPayload p) ; mret tt) l s0
      = Done (set_channels ch' s0) tt /\
    ch_closed ch' = ch_closed (channels s0) /\
    ch_sent ch' = ch_sent (channels s0) ++ map (fun c => (c, MPayload p)) cs /\
    cs `sublist_of` omap (fun kv : string * Subscription => PayloadChan kv.2) l.
Proof.
  revert s0. induction l as [|kv l IH]; intros s0 Hc; cbn [forEach].
  { exists (channels s0), []. rewrite set_channels_channels, app_nil_r.
    split; [done|]. split; [done|]. split; [done|apply sublist_nil_l]. }
  assert (Hc' : forall kv' c, kv' ∈ l -> PayloadChan kv'.2 = Some c ->
                  c ∉ ch_closed (channels s0)).
  { intros kv' c Hin. apply Hc. by apply list_elem_of_further. }
  destruct (trySend_open (PayloadChan kv.2) (MPayload p) s0)
    as [Ht | (c & n & Ep & Er & Ht)].
  { intros c Hp. apply (Hc kv c); [apply list_elem_of_here|done]. }
  - erewrite Svc_bind_Done; [|by erewrite Svc_bind_Done].
    destruct (IH s0 Hc') as (ch' & cs & Hf & Hcl & Hs & Hsub).
    exists ch', cs. rewrite Hf. simpl. destruct (PayloadChan kv.2); repeat split; try done.
    by apply sublist_cons.
  - erewrite Svc_bind_Done; [|by erewrite Svc_bind_Done].
    match type of Ht with context [set_channels ?ch1 s0] => set (s1 := set_channels ch1 s0) end.
    destruct (IH s1) as (ch' & cs & Hf & Hcl & Hs & Hsub).
    { subst s1. destruct s0. exact Hc'. }
    exists ch', (c :: cs). rewrite Hf. subst s1. rewrite set_channels_twice.
    simpl. rewrite Ep. destruct s0; simpl in *.
    repeat split; [done| |by apply sublist_skip]. rewrite Hs. simpl. by rewrite <- app_assoc.
Qed.

(** The loop of [send], counted per channel: a channel takes the payload
    as many times as it has room for, up to the number of subscriptions
    that use it, and its room goes down by as much. *)
Lemma forEach_send_counts (p : Payload) (l : list (string * Subscription)) s0 :
  (forall kv c, kv ∈ l -> PayloadChan kv.2 = Some c -> c ∉ ch_closed (channels s0)) ->
  exists ch' cs,
    forEach (fun kv : string * Subscription =>
               _ ← trySend (PayloadChan kv.2) (MPayload p) ; mret tt) l s0
      = Done (set_channels ch' s0) tt /\
    ch_closed ch' = ch_closed (channels s0) /\
    ch_sent ch' = ch_sent (channels s0) ++ map (fun c => (c, MPayload p)) cs /\
    cs `sublist_of` omap (fun kv : string * Subscription => PayloadChan kv.2) l /\
    forall c,
      length (filter (fun c' => c' = c) cs) =
        min (default 0%nat (ch_room (channels s0) !! c))
            (length (filter (fun c' => c' = c)
                       (omap (fun kv : string * Subscription => PayloadChan kv.2) l))) /\
      ch_room ch' !! c =
        (fun k => k - length (filter (fun c' => c' = c) cs))%nat <$> ch_room (channels s0) !! c.
Proof.
  revert s0. induction l as [|kv l IH]; intros s0 Hc; cbn [forEach].
  { exists (channels s0), []. rewrite set_channels_channels, app_nil_r.
    split; [done|]. split; [done|]. split; [done|]. split; [apply sublist_nil_l|].
    intros c. simpl. rewrite Nat.min_0_r. split; [done|].
    destruct (ch_room (channels s0) !! c); simpl; [f_equal; lia|done]. }
  assert (Hc' : forall kv' c, kv' ∈ l -> PayloadChan kv'.2 = Some c ->
                  c ∉ ch_closed (channels s0)).
  { intros kv' c Hin. apply Hc. by apply list_elem_of_further. }
  destruct (PayloadChan kv.2) as [c0|] eqn:Ep.
  2:{ assert (Ht : trySend None (MPayload p) s0 = Done s0 false) by done.
      erewrite Svc_bind_Done; [|by erewrite Svc_bind_Done].
      destruct (IH s0 Hc') as (ch' & cs & Hf & Hcl & Hs & Hsub & Hcnt).
      exists ch', cs. rewrite Hf. simpl. rewrite Ep. done. }
  assert (Hcl0 : c0 ∉ ch_closed (channels s0)) by (apply (Hc kv); [apply list_elem_of_here|done]).
  destruct (ch_room (channels s0) !! c0) as [[|n]|] eqn:Er.
  2:{ assert (Ht : trySend (Some c0) (MPayload p) s0 =
        Done (set_channels {| ch_room := <[c0:=n]> (ch_room (channels s0));
                              ch_closed := ch_closed (channels s0);
                              ch_sent := ch_sent (channels s0) ++ [(c0, MPayload p)] |} s0) true).
      { unfold trySend. rewrite bool_decide_false, Er by done. done. }
      erewrite Svc_bind_Done; [|by erewrite Svc_bind_Done].
      match type of Ht with context [set_channels ?ch1 s0] => set (s1 := set_channels ch1 s0) end.
      destruct (IH s1) as (ch' & cs & Hf & Hcl & Hs & Hsub & Hcnt).
      { subst s1. destruct s0. exact Hc'. }
      exists ch', (c0 :: cs). rewrite Hf. subst s1. rewrite set_channels_twice.
      simpl in Hcl, Hs, Hcnt. simpl. rewrite Ep.
      split; [done|]. split; [done|].
      split; [rewrite Hs; simpl; by rewrite <- app_assoc|].
      split; [by apply sublist_skip|].
      intros c. destruct (Hcnt c) as [Hn Hr]. rewrite !filter_cons.
      destruct (decide (c0 = c)) as [<-|Hne].
      - rewrite lookup_insert_eq in Hn, Hr. cbn [from_option id] in Hn.
        rewrite Er. cbn [length from_option id].
        split; [rewrite Hn, <- Nat.succ_min_distr; reflexivity|rewrite Hr; simpl; f_equal; lia].
      - rewrite lookup_insert_ne in Hn, Hr by done. done. }
  all: assert (Ht : trySend (Some c0) (MPayload p) s0 = Done s0 false)
         by (unfold trySend; by rewrite bool_decide_false, Er by done).
  all: erewrite Svc_bind_Done; [|by erewrite Svc_bind_Done].
  all: destruct (IH s0 Hc') as (ch' & cs & Hf & Hcl & Hs & Hsub & Hcnt).
  all: exists ch', cs; rewrite Hf; simpl; rewrite Ep.
  all: split; [done|]; split; [done|]; split; [done|]; split; [by apply sublist_cons|].
  all: intros c; destruct (Hcnt c) as [Hn Hr]; split; [|done].
  all: rewrite filter_cons; destruct (decide (c0 = c)) as [<-|Hne]; [|done].
  all: rewrite Hn, Er; simpl; lia.
Qed.

(** When every payload channel met is open, distinct and has room, the loop
    of [send] delivers to all of them. *)
Lemma forEach_send_all (p : Payload) (l : list (string * Subscription)) s0 :
  (forall kv, kv ∈ l -> (exists c n, PayloadChan kv.2 = Some c /\ (c ∉ ch_closed (channels s0)) /\
                         ch_room (channels s0) !! c = Some (S n))) ->
  NoDup (omap (fun kv : string * Subscription => PayloadChan kv.2) l) ->
  exists ch',
    forEach (fun kv : string * Subscription =>
               _ ← trySend (PayloadChan kv.2) (MPayload p) ; mret tt) l s0
      = Done (set_channels ch' s0) tt /\
    ch_closed ch' = ch_closed (channels s0) /\
    ch_sent ch' = ch_sent (channels s0) ++
                  map (fun c => (c, MPayload p))
                      (omap (fun kv : string * Subscription => PayloadChan kv.2) l) /\
    forall c, ch_room ch' !! c =
      if decide (c ∈ omap (fun kv : string * Subscription => PayloadChan kv.2) l)
      then pred <$> ch_room (channels s0) !! c else ch_room (channels s0) !! c.
Proof.
  revert s0. induction l as [|kv l IH]; intros s0 Hc Hnd; cbn [forEach].
  { exists (channels s0). rewrite set_channels_channels, app_nil_r.
    do 3 (split; [done|]). intros c. by rewrite decide_False by apply not_elem_of_nil. }
  destruct (Hc kv (list_elem_of_here _ _)) as (c & n & Ep & Hcl & Er).
  simpl in Hnd. rewrite Ep in Hnd. apply NoDup_cons in Hnd as [Hnin Hnd].
  assert (Ht : trySend (PayloadChan kv.2) (MPayload p) s0 =
     Done (set_channels {| ch_room := <[c:=n]> (ch_room (channels s0));
                           ch_closed := ch_closed (channels s0);
                           ch_sent := ch_sent (channels s0) ++ [(c, MPayload p)] |} s0) true).
  { unfold trySend. rewrite Ep, bool_decide_false, Er by done. done. }
  erewrite Svc_bind_Done; [|by erewrite Svc_bind_Done].
  match type of Ht with context [set_channels ?ch1 s0] => set (s1 := set_channels ch1 s0) end.
  destruct (IH s1) as (ch' & Hf & Hcl' & Hs & Hr); [|done|].
  { intros kv' Hin. destruct (Hc kv' (list_elem_of_further _ _ _ Hin)) as (c' & n' & Ep' & ? & Er').
    exists c', n'. subst s1. destruct s0; simpl in *. split; [done|]. split; [done|].
    rewrite lookup_insert_ne; [done|]. intros ->. apply Hnin.
    apply list_elem_of_omap. by exists kv'. }
  exists ch'. rewrite Hf. subst s1. rewrite set_channels_twice. simpl. rewrite Ep.
  split; [done|]. split; [done|]. split; [rewrite Hs; simpl; by rewrite <- app_assoc|].
  intros c'. rewrite Hr. simpl.
  destruct (decide (c' = c)) as [->|Hne].
  - rewrite decide_False by done. rewrite decide_True by apply list_elem_of_here.
    by rewrite lookup_insert_eq, Er.
  - rewrite lookup_insert_ne by congruence.
    destruct (decide (c' ∈ _)) as [Hi|Hi]; destruct (decide (c' ∈ c :: _)) as [Hi'|Hi'];
      try done.
    + destruct Hi'. by apply list_elem_of_further.
    + apply elem_of_cons in Hi' as [?|?]; [congruence|done].
Qed.

Lemma range_subs_entries (rt : SubsRuntime) (m : gmap string Subscription) kv :
  kv ∈ range_subs rt m -> m !! kv.1 = Some kv.2.
Proof.
  destruct kv as [k v]. intros H. rewrite (range_subs_perm rt) in H.
  by apply elem_of_map_to_list in H.
Qed.

(** X13: [send] on an unlocked service whose payload channels are not closed
    neither blocks nor panics: it leaves the service unlocked with its
    subscriptions unchanged, closes nothing, and sends the payload on the
    subscriptions' payload channels in the order of the iteration over the
    subscriptions, skipping the nil ones and those with no room left: each
    channel takes the payload as many times as it has room for (no room for
    a channel the sender does not know), up to the number of subscriptions
    using it, and its room goes down by as much. *)
Theorem send_nonblocking (rt : SubsRuntime) (p : Payload) (s : MockStateDiffService) :
  mu_locked s = false ->
  (forall id sub c, subs_of s !! id = Some sub -> PayloadChan sub = Some c ->
                    c ∉ ch_closed (channels s)) ->
  exists s' cs, send rt p s = Done s' tt /\ mu_locked s' = false /\
    Subscriptions s' = Subscriptions s /\
    ch_closed (channels s') = ch_closed (channels s) /\
    ch_sent (channels s') = ch_sent (channels s) ++ map (fun c => (c, MPayload p)) cs /\
    cs `sublist_of` omap (fun kv : string * Subscription => PayloadChan kv.2)
                         (range_subs rt (subs_of s)) /\
    forall c,
      length (filter (fun c' => c' = c) cs) =
        min (default 0%nat (ch_room (channels s) !! c))
            (length (filter (fun c' => c' = c)
                       (omap (fun kv : string * Subscription => PayloadChan kv.2)
                             (range_subs rt (subs_of s))))) /\
      ch_room (channels s') !! c =
        (fun k => k - length (filter (fun c' => c' = c) cs))%nat <$> ch_room (channels s) !! c.
Proof.
  intros Hl Hc. unfold send.
  rewrite (Svc_bind_Done Lock _ s (set_locked true s) tt) by (unfold Lock; by rewrite Hl).
  rewrite (Svc_bind_Done (gets subs_of) _ _ (set_locked true s) (subs_of s)) by done.
  destruct (forEach_send_counts p (range_subs rt (subs_of s)) (set_locked true s))
    as (ch' & cs & Hf & Hcl & Hs & Hsub & Hcnt).
  { intros kv c Hin Hp. destruct s. eapply Hc; [|done]. by apply (range_subs_entries rt). }
  rewrite (Svc_bind_Done _ _ _ _ _ Hf).
  exists (set_locked false (set_channels ch' (set_locked true s))), cs.
  destruct s; simpl in *. unfold Unlock. simpl. done.
Qed.

(** X14: [send] on an unlocked service whose subscriptions each have an open
    payload channel with room, no two sharing one, delivers the payload to
    every subscription, in the order of the iteration over them. *)
Theorem send_reaches_all (rt : SubsRuntime) (p : Payload) (s : MockStateDiffService) :
  mu_locked s = false ->
  (forall id sub, subs_of s !! id = Some sub ->
     exists c n, PayloadChan sub = Some c /\ (c ∉ ch_closed (channels s)) /\
                 ch_room (channels s) !! c = Some (S n)) ->
  NoDup (omap (fun kv : string * Subscription => PayloadChan kv.2) (map_to_list (subs_of s))) ->
  exists s', send rt p s = Done s' tt /\ mu_locked s' = false /\
    ch_sent (channels s') = ch_sent (channels s) ++
      map (fun c => (c, MPayload p))
          (omap (fun kv : string * Subscription => PayloadChan kv.2) (range_subs rt (subs_of s))).
Proof.
  intros Hl Hc Hnd. unfold send.
  rewrite (Svc_bind_Done Lock _ s (set_locked true s) tt) by (unfold Lock; by rewrite Hl).
  rewrite (Svc_bind_Done (gets subs_of) _ _ (set_locked true s) (subs_of s)) by done.
  destruct (forEach_send_all p (range_subs rt (subs_of s)) (set_locked true s))
    as (ch' & Hf & Hcl & Hs & _).
  { intros kv Hin. destruct s. eapply Hc. by apply (range_subs_entries rt). }
  { by rewrite (range_subs_perm rt). }
  rewrite (Svc_bind_Done _ _ _ _ _ Hf).
  exists (set_locked false (set_channels ch' (set_locked true s))).
  destruct s; simpl in *. unfold Unlock. simpl. done.
Qed.

(** The loop of [close]: a subscription whose quit channel takes the signal
    is deleted from the map, the others stay. *)
Lemma forEach_close (l : list (string * Subscription)) s0 m0 :
  Subscriptions s0 = Some m0 ->
  (forall kv c, kv ∈ l -> sub_QuitChan kv.2 = Some c -> c ∉ ch_closed (channels s0)) ->
  exists s' ds,
    forEach (fun kv : string * Subscription =>
               ok ← trySend (sub_QuitChan kv.2) (MBool true) ;
               if (ok : bool) then deleteSub kv.1 else mret tt) l s0 = Done s' tt /\
    mu_locked s' = mu_locked s0 /\
    ds `sublist_of` l /\ Forall (fun kv : string * Subscription => is_Some (sub_QuitChan kv.2)) ds /\
    (exists m', Subscriptions s' = Some m' /\
       forall id, m' !! id = if decide (id ∈ map fst ds) then None else m0 !! id) /\
    ch_closed (channels s') = ch_closed (channels s0) /\
    ch_sent (channels s') = ch_sent (channels s0) ++
      map (fun c => (c, MBool true)) (omap (fun kv : string * Subscription => sub_QuitChan kv.2) ds).
Proof.
  revert s0 m0. induction l as [|kv l IH]; intros s0 m0 Hm Hc; cbn [forEach].
  { exists s0, []. rewrite app_nil_r. split; [done|]. split; [done|].
    split; [apply sublist_nil_l|]. split; [constructor|]. split; [|done].
    exists m0. split; [done|]. intros id. by rewrite decide_False by apply not_elem_of_nil. }
  assert (Hc' : forall kv' c, kv' ∈ l -> sub_QuitChan kv'.2 = Some c ->
                  c ∉ ch_closed (channels s0)).
  { intros kv' c Hin. apply Hc. by apply list_elem_of_further. }
  destruct (trySend_open (sub_QuitChan kv.2) (MBool true) s0)
    as [Ht | (c & n & Ep & Er & Ht)].
  { intros c Hp. apply (Hc kv c); [apply list_elem_of_here|done]. }
  - erewrite Svc_bind_Done; [|by rewrite (Svc_bind_Done _ _ _ _ _ Ht)].
    destruct (IH s0 m0 Hm Hc') as (s' & ds & Hf & Hl & Hsub & Hq & Hsubs & Hcl & Hs).
    exists s', ds. rewrite Hf. do 2 (split; [done|]). split; [by apply sublist_cons|]. done.
  - erewrite Svc_bind_Done; [|rewrite (Svc_bind_Done _ _ _ _ _ Ht); reflexivity].
    cbv beta iota.
    match type of Ht with context [set_channels ?ch1 s0] => set (s1 := set_channels ch1 s0) end.
    set (s2 := set_subs (delete kv.1 <$> Subscriptions s1) s1).
    change ((deleteSub kv.1 ≫= fun _ => forEach _ l) s1) with (forEach
      (fun kv : string * Subscription =>
         ok ← trySend (sub_QuitChan kv.2) (MBool true) ;
         if (ok : bool) then deleteSub kv.1 else mret tt) l s2).
    destruct (IH s2 (delete kv.1 m0)) as (s' & ds & Hf & Hl & Hsub & Hq & Hsubs & Hcl & Hs).
    { subst s2 s1. destruct s0; simpl in *. by rewrite Hm. }
    { subst s2 s1. destruct s0. exact Hc'. }
    exists s', (kv :: ds). rewrite Hf.
    assert (Hch : channels s2 = {| ch_room := <[c:=n]> (ch_room (channels s0));
                                   ch_closed := ch_closed (channels s0);
                                   ch_sent := ch_sent (channels s0) ++ [(c, MBool true)] |}).
    { subst s2 s1. by destruct s0. }
    rewrite Hch in Hcl, Hs. simpl in Hcl, Hs.
    split; [done|]. split; [rewrite Hl; subst s2 s1; by destruct s0|].
    split; [by apply sublist_skip|]. split; [constructor; [by rewrite Ep|done]|].
    split; [|split; [done|]].
    + destruct Hsubs as (m' & Hm' & Hid). exists m'. split; [done|]. intros id.
      rewrite Hid. simpl. destruct (decide (id = kv.1)) as [->|Hne].
      * rewrite lookup_delete_eq. rewrite (decide_True _ _ (list_elem_of_here _ _)).
        by destruct (decide _).
      * rewrite lookup_delete_ne by congruence.
        destruct (decide (id ∈ map fst ds)) as [Hi|Hi];
          destruct (decide (id ∈ kv.1 :: map fst ds)) as [Hi'|Hi']; try done.
        -- destruct Hi'. by apply list_elem_of_further.
        -- apply elem_of_cons in Hi' as [?|?]; [congruence|done].
    + rewrite Hs. simpl. rewrite Ep. simpl. by rewrite <- app_assoc.
Qed.

(** X15: [close] on an unlocked service with a subscription map whose quit
    channels are not closed neither blocks nor panics: it leaves the service
    unlocked, sends [true] on the quit channels of some of the subscriptions
    (those ready, in the order of the iteration, never on a nil channel), and
    deletes exactly those subscriptions from the map; the other entries stay. *)
Theorem close_removes_delivered (rt : SubsRuntime) (s : MockStateDiffService)
    (m : gmap string Subscription) :
  mu_locked s = false -> Subscriptions s = Some m ->
  (forall id sub c, m !! id = Some sub -> sub_QuitChan sub = Some c ->
                    c ∉ ch_closed (channels s)) ->
  exists s' ds, close rt s = Done s' tt /\ mu_locked s' = false /\
    ds `sublist_of` range_subs rt m /\
    Forall (fun kv : string * Subscription => is_Some (sub_QuitChan kv.2)) ds /\
    (exists m', Subscriptions s' = Some m' /\
       forall id, m' !! id = if decide (id ∈ map fst ds) then None else m !! id) /\
    ch_closed (channels s') = ch_closed (channels s) /\
    ch_sent (channels s') = ch_sent (channels s) ++
      map (fun c => (c, MBool true)) (omap (fun kv : string * Subscription => sub_QuitChan kv.2) ds).
Proof.
  intros Hl Hm Hc. unfold close.
  rewrite (Svc_bind_Done Lock _ s (set_locked true s) tt) by (unfold Lock; by rewrite Hl).
  rewrite (Svc_bind_Done (gets subs_of) _ _ (set_locked true s) m)
    by (unfold gets, subs_of; simpl; by rewrite Hm).
  destruct (forEach_close (range_subs rt m) (set_locked true s) m)
    as (s' & ds & Hf & Hl' & Hsub & Hq & Hsubs & Hcl & Hs); [done| |].
  { intros kv c Hin Hp. eapply Hc; [|done]. by apply (range_subs_entries rt). }
  rewrite (Svc_bind_Done _ _ _ _ _ Hf).
  unfold Unlock. rewrite Hl'. simpl.
  exists (set_locked false s'), ds. destruct s'; simpl in *. done.
Qed.

Lemma mu_locked_set_channels c s : mu_locked (set_channels c s) = mu_locked s.
Proof. by destruct s. Qed.

Lemma Subscriptions_set_channels c s : Subscriptions (set_channels c s) = Subscriptions s.
Proof. by destruct s. Qed.

Lemma subs_of_set_channels c s : subs_of (set_channels c s) = subs_of s.
Proof. by destruct s. Qed.

Lemma streamBlock_set_channels c s : streamBlock (set_channels c s) = streamBlock s.
Proof. by destruct s. Qed.

Lemma channels_set_channels c s : channels (set_channels c s) = c.
Proof. by destruct s. Qed.

(** [send] when every subscription has its own open payload channel with
    room: only the channels change, every one of them takes the payload and
    has one place less. *)
Lemma send_all_state (rt : SubsRuntime) (p : Payload) (s : MockStateDiffService) :
  mu_locked s = false ->
  (forall id sub, subs_of s !! id = Some sub ->
     exists c n, PayloadChan sub = Some c /\ (c ∉ ch_closed (channels s)) /\
                 ch_room (channels s) !! c = Some (S n)) ->
  NoDup (omap (fun kv : string * Subscription => PayloadChan kv.2) (map_to_list (subs_of s))) ->
  exists ch', send rt p s = Done (set_channels ch' s) tt /\
    ch_closed ch' = ch_closed (channels s) /\
    ch_sent ch' = ch_sent (channels s) ++
      map (fun c => (c, MPayload p))
          (omap (fun kv : string * Subscription => PayloadChan kv.2) (range_subs rt (subs_of s))) /\
    forall c, ch_room ch' !! c =
      if decide (c ∈ omap (fun kv : string * Subscription => PayloadChan kv.2)
                          (range_subs rt (subs_of s)))
      then pred <$> ch_room (channels s) !! c else ch_room (channels s) !! c.
Proof.
  intros Hl Hc Hnd. unfold send.
  rewrite (Svc_bind_Done Lock _ s (set_locked true s) tt) by (unfold Lock; by rewrite Hl).
  rewrite (Svc_bind_Done (gets subs_of) _ _ (set_locked true s) (subs_of s)) by done.
  destruct (forEach_send_all p (range_subs rt (subs_of s)) (set_locked true s))
    as (ch' & Hf & Hcl & Hs & Hr).
  { intros kv Hin. destruct s. eapply Hc. by apply (range_subs_entries rt). }
  { by rewrite (range_subs_perm rt). }
  rewrite (Svc_bind_Done _ _ _ _ _ Hf).
  exists ch'. destruct s; simpl in *. subst. unfold Unlock. simpl. done.
Qed.

(** X16: [Loop] over block events with non-nil blocks, on an unlocked
    service whose subscriptions each have an open payload channel, no two
    sharing one, with room for as many values as there are events, neither
    blocks nor panics: it keeps the service unlocked and its subscriptions,
    and for each payload [processStateDiff] builds, in the order of the
    events (a failed diff is skipped), sends it to every subscription, in
    the order of the iteration over them. *)
Theorem Loop_delivers (rt : SubsRuntime) {SD} (w : MockWorld SD) (evs : list LoopEvent)
    (s : MockStateDiffService) :
  mu_locked s = false ->
  Forall (fun ev => exists cur par, ev = BlockReceived (Some cur) (Some par)) evs ->
  (forall id sub, subs_of s !! id = Some sub ->
     exists c n, PayloadChan sub = Some c /\ (c ∉ ch_closed (channels s)) /\
                 ch_room (channels s) !! c = Some n /\ (length evs <= n)%nat) ->
  NoDup (omap (fun kv : string * Subscription => PayloadChan kv.2) (map_to_list (subs_of s))) ->
  exists s', Loop rt w evs s = Done s' tt /\ mu_locked s' = false /\
    Subscriptions s' = Subscriptions s /\
    ch_sent (channels s') = ch_sent (channels s) ++
      concat (map (fun p => map (fun c => (c, MPayload p))
                                (omap (fun kv : string * Subscription => PayloadChan kv.2)
                                      (range_subs rt (subs_of s))))
                  (loopPayloads w (streamBlock s) evs)).
Proof.
  revert s. induction evs as [|ev evs IH]; intros s Hl Hev Hc Hnd.
  { exists s. simpl. by rewrite app_nil_r. }
  inversion Hev as [|? ? (cur & par & ->) Hev']; subst.
  cbn [Loop]. unfold mbind at 1, Svc_bind at 1, gets.
  assert (Hc' : forall id sub, subs_of s !! id = Some sub ->
     exists c n, PayloadChan sub = Some c /\ (c ∉ ch_closed (channels s)) /\
                 ch_room (channels s) !! c = Some n /\ (length evs <= n)%nat).
  { intros id sub Hs. destruct (Hc id sub Hs) as (c & n & ? & ? & ? & ?).
    exists c, n. simpl in *. repeat split; try done. lia. }
  destruct (processStateDiff w (streamBlock s) cur par) as [p|e] eqn:Ep.
  2:{ assert (HP : loopPayloads w (streamBlock s) (BlockReceived (Some cur) (Some par) :: evs)
                   = loopPayloads w (streamBlock s) evs)
        by (unfold loopPayloads; simpl; rewrite Ep; reflexivity).
      rewrite HP. by apply IH. }
  assert (HP : loopPayloads w (streamBlock s) (BlockReceived (Some cur) (Some par) :: evs)
               = p :: loopPayloads w (streamBlock s) evs)
    by (unfold loopPayloads; simpl; rewrite Ep; reflexivity).
  rewrite HP.
  destruct (send_all_state rt p s) as (ch' & Hsend & Hcl & Hs & Hr); [done| |done|].
  { intros id sub Hsub. destruct (Hc id sub Hsub) as (c & n & ? & ? & ? & Hn).
    simpl in Hn. destruct n as [|n]; [lia|]. by exists c, n. }
  rewrite (Svc_bind_Done _ _ _ _ _ Hsend).
  destruct (IH (set_channels ch' s)) as (s' & HL & Hl' & Hsubs & Hsent).
  { by rewrite mu_locked_set_channels. }
  { done. }
  { rewrite subs_of_set_channels, channels_set_channels. intros id sub Hsub.
    destruct (Hc id sub Hsub) as (c & n & Hp & Hcl0 & Hr0 & Hn).
    exists c, (pred n). rewrite Hcl, Hr, decide_True, Hr0.
    - simpl in Hn. repeat split; try done. lia.
    - apply list_elem_of_omap. exists (id, sub). split; [|done].
      rewrite (range_subs_perm rt). by apply elem_of_map_to_list. }
  { by rewrite subs_of_set_channels. }
  exists s'. split; [done|]. split; [done|].
  rewrite Hsubs, Subscriptions_set_channels. split; [done|].
  rewrite Hsent, channels_set_channels, Hs, subs_of_set_channels, streamBlock_set_channels.
  simpl. by rewrite app_assoc.
Qed.

Lemma Subscribe_Unsubscribe_witness :
  (mu_locked DemoMock.svc = false /\ Subscriptions DemoMock.svc = Some DemoMock.subs) /\
  (Subscribe "c" {| PayloadChan := Some 8; sub_QuitChan := None |} ;; Unsubscribe "c")
    DemoMock.svc = Done (set_subs (Some (delete "c" DemoMock.subs)) DemoMock.svc) None.
Proof.
  split; [split; reflexivity|].
  apply (Subscribe_Unsubscribe DemoMock.svc DemoMock.subs); reflexivity.
Defined.

Lemma Unsubscribe_unknown_keeps_lock_witness :
  (mu_locked DemoMock.svc = false /\ subs_of DemoMock.svc !! "c" = None) /\
  exists e, Unsubscribe "c" DemoMock.svc = Done (set_locked true DemoMock.svc) (Some e) /\
    forall id' sub p,
      Subscribe id' sub (set_locked true DemoMock.svc) = Blocked /\
      Unsubscribe id' (set_locked true DemoMock.svc) = Blocked /\
      send DemoMock.rt p (set_locked true DemoMock.svc) = Blocked /\
      close DemoMock.rt (set_locked true DemoMock.svc) = Blocked.
Proof.
  split; [split; reflexivity|].
  apply (Unsubscribe_unknown_keeps_lock DemoMock.rt DemoMock.svc "c"); reflexivity.
Defined.

Lemma send_nonblocking_witness :
  (mu_locked DemoMock.svc = false /\
   forall id sub c, subs_of DemoMock.svc !! id = Some sub -> PayloadChan sub = Some c ->
                    c ∉ ch_closed (channels DemoMock.svc)) /\
  exists s' cs, send DemoMock.rt DemoMock.payload DemoMock.svc = Done s' tt /\
    mu_locked s' = false /\ Subscriptions s' = Subscriptions DemoMock.svc /\
    ch_closed (channels s') = ch_closed (channels DemoMock.svc) /\
    ch_sent (channels s') = ch_sent (channels DemoMock.svc) ++
                            map (fun c => (c, MPayload DemoMock.payload)) cs /\
    cs `sublist_of` omap (fun kv : string * Subscription => PayloadChan kv.2)
                         (range_subs DemoMock.rt (subs_of DemoMock.svc)) /\
    forall c,
      length (filter (fun c' => c' = c) cs) =
        min (default 0%nat (ch_room (channels DemoMock.svc) !! c))
            (length (filter (fun c' => c' = c)
                       (omap (fun kv : string * Subscription => PayloadChan kv.2)
                             (range_subs DemoMock.rt (subs_of DemoMock.svc))))) /\
      ch_room (channels s') !! c =
        (fun k => k - length (filter (fun c' => c' = c) cs))%nat
          <$> ch_room (channels DemoMock.svc) !! c.
Proof.
  assert (Hc : forall id sub c, subs_of DemoMock.svc !! id = Some sub -> PayloadChan sub = Some c ->
                 c ∉ ch_closed (channels DemoMock.svc)).
  { intros id sub c _ _. apply not_elem_of_empty. }
  split; [split; [reflexivity|exact Hc]|].
  apply (send_nonblocking DemoMock.rt DemoMock.payload DemoMock.svc); [reflexivity|exact Hc].
Defined.

Lemma send_reaches_all_witness :
  (mu_locked DemoMock.svc = false /\
   (forall id sub, subs_of DemoMock.svc !! id = Some sub ->
      exists c n, PayloadChan sub = Some c /\ (c ∉ ch_closed (channels DemoMock.svc)) /\
                  ch_room (channels DemoMock.svc) !! c = Some (S n)) /\
   NoDup (omap (fun kv : string * Subscription => PayloadChan kv.2)
               (map_to_list (subs_of DemoMock.svc)))) /\
  exists s', send DemoMock.rt DemoMock.payload DemoMock.svc = Done s' tt /\
    mu_locked s' = false /\
    ch_sent (channels s') = ch_sent (channels DemoMock.svc) ++
      map (fun c => (c, MPayload DemoMock.payload))
          (omap (fun kv : string * Subscription => PayloadChan kv.2)
                (range_subs DemoMock.rt (subs_of DemoMock.svc))).
Proof.
  assert (Hc : forall id sub, subs_of DemoMock.svc !! id = Some sub ->
      exists c n, PayloadChan sub = Some c /\ (c ∉ ch_closed (channels DemoMock.svc)) /\
                  ch_room (channels DemoMock.svc) !! c = Some (S n)).
  { intros id sub H. unfold subs_of, DemoMock.svc, DemoMock.subs in H. simpl in H.
    apply lookup_insert_Some in H as [[_ <-]|[_ H]].
    - exists 1, 0%nat. split; [reflexivity|]. split; [apply not_elem_of_empty|reflexivity].
    - apply lookup_insert_Some in H as [[_ <-]|[_ H]]; [|by rewrite lookup_empty in H].
      exists 3, 0%nat. split; [reflexivity|]. split; [apply not_elem_of_empty|reflexivity]. }
  assert (Hnd : NoDup (omap (fun kv : string * Subscription => PayloadChan kv.2)
                            (map_to_list (subs_of DemoMock.svc)))).
  { apply (bool_decide_unpack _). vm_compute. reflexivity. }
  split; [split; [reflexivity|split; [exact Hc|exact Hnd]]|].
  apply (send_reaches_all DemoMock.rt DemoMock.payload DemoMock.svc); [reflexivity|exact Hc|exact Hnd].
Defined.

Lemma close_removes_delivered_witness :
  (mu_locked DemoMock.svc = false /\ Subscriptions DemoMock.svc = Some DemoMock.subs /\
   forall id sub c, DemoMock.subs !! id = Some sub -> sub_QuitChan sub = Some c ->
                    c ∉ ch_closed (channels DemoMock.svc)) /\
  exists s' ds, close DemoMock.rt DemoMock.svc = Done s' tt /\ mu_locked s' = false /\
    ds `sublist_of` range_subs DemoMock.rt DemoMock.subs /\
    Forall (fun kv : string * Subscription => is_Some (sub_QuitChan kv.2)) ds /\
    (exists m', Subscriptions s' = Some m' /\
       forall id, m' !! id = if decide (id ∈ map fst ds) then None else DemoMock.subs !! id) /\
    ch_closed (channels s') = ch_closed (channels DemoMock.svc) /\
    ch_sent (channels s') = ch_sent (channels DemoMock.svc) ++
      map (fun c => (c, MBool true)) (omap (fun kv : string * Subscription => sub_QuitChan kv.2) ds).
Proof.
  assert (Hc : forall id sub c, DemoMock.subs !! id = Some sub -> sub_QuitChan sub = Some c ->
                 c ∉ ch_closed (channels DemoMock.svc)).
  { intros id sub c _ _. apply not_elem_of_empty. }
  split; [split; [reflexivity|split; [reflexivity|exact Hc]]|].
  apply (close_removes_delivered DemoMock.rt DemoMock.svc DemoMock.subs);
    [reflexivity|reflexivity|exact Hc].
Defined.

Lemma Loop_delivers_witness :
  (mu_locked DemoMock.svc2 = false /\
   Forall (fun ev => exists cur par, ev = BlockReceived (Some cur) (Some par))
     [BlockReceived (Some (DemoMock.blk 2)) (Some (DemoMock.blk 1));
      BlockReceived (Some (DemoMock.blk 3)) (Some (DemoMock.blk 2))] /\
   (forall id sub, subs_of DemoMock.svc2 !! id = Some sub ->
      exists c n, PayloadChan sub = Some c /\ (c ∉ ch_closed (channels DemoMock.svc2)) /\
                  ch_room (channels DemoMock.svc2) !! c = Some n /\ (2 <= n)%nat) /\
   NoDup (omap (fun kv : string * Subscription => PayloadChan kv.2)
               (map_to_list (subs_of DemoMock.svc2)))) /\
  exists s', Loop DemoMock.rt DemoMock.world
               [BlockReceived (Some (DemoMock.blk 2)) (Some (DemoMock.blk 1));
                BlockReceived (Some (DemoMock.blk 3)) (Some (DemoMock.blk 2))]
               DemoMock.svc2 = Done s' tt /\
    mu_locked s' = false /\ Subscriptions s' = Subscriptions DemoMock.svc2 /\
    ch_sent (channels s') = ch_sent (channels DemoMock.svc2) ++
      concat (map (fun p => map (fun c => (c, MPayload p))
                                (omap (fun kv : string * Subscription => PayloadChan kv.2)
                                      (range_subs DemoMock.rt (subs_of DemoMock.svc2))))
                  (loopPayloads DemoMock.world (streamBlock DemoMock.svc2)
                     [BlockReceived (Some (DemoMock.blk 2)) (Some (DemoMock.blk 1));
                      BlockReceived (Some (DemoMock.blk 3)) (Some (DemoMock.blk 2))])).
Proof.
  assert (Hev : Forall (fun ev => exists cur par, ev = BlockReceived (Some cur) (Some par))
     [BlockReceived (Some (DemoMock.blk 2)) (Some (DemoMock.blk 1));
      BlockReceived (Some (DemoMock.blk 3)) (Some (DemoMock.blk 2))]).
  { repeat constructor; eauto. }
  assert (Hc : forall id sub, subs_of DemoMock.svc2 !! id = Some sub ->
      exists c n, PayloadChan sub = Some c /\ (c ∉ ch_closed (channels DemoMock.svc2)) /\
                  ch_room (channels DemoMock.svc2) !! c = Some n /\ (2 <= n)%nat).
  { intros id sub H. unfold subs_of, DemoMock.svc2, DemoMock.svc, DemoMock.subs in H.
    simpl in H.
    apply lookup_insert_Some in H as [[_ <-]|[_ H]].
    - exists 1, 2%nat. split; [reflexivity|]. split; [apply not_elem_of_empty|].
      split; [reflexivity|lia].
    - apply lookup_insert_Some in H as [[_ <-]|[_ H]]; [|by rewrite lookup_empty in H].
      exists 3, 2%nat. split; [reflexivity|]. split; [apply not_elem_of_empty|].
      split; [reflexivity|lia]. }
  assert (Hnd : NoDup (omap (fun kv : string * Subscription => PayloadChan kv.2)
                            (map_to_list (subs_of DemoMock.svc2)))).
  { apply (bool_decide_unpack _). vm_compute. reflexivity. }
  split; [split; [reflexivity|split; [exact Hev|split; [exact Hc|exact Hnd]]]|].
  apply (Loop_delivers DemoMock.rt DemoMock.world _ DemoMock.svc2);
    [reflexivity|exact Hev|exact Hc|exact Hnd].
Defined.
